(** * Convex: branch-tree layout, edge geometry, viewport recentering and
      branch creation

    A shallow embedding of [src/UI/components/MainLayout.tsx] (with the
    [ChatBar] it is followed by) and [src/UI/components/CanvasArea.tsx]
    (with its [ConversationBlock]).

    Modelling conventions.
    - A JavaScript object used as a record keyed by strings
      ([Record<string, T>]) is an association list in property-enumeration
      order with pairwise distinct keys ([JsObject]): the keys that are
      array indices first, in ascending numeric order, then the other
      keys in the order in which they were added.  [obj_set] puts a new
      key at its place in that order, and [jsOrdered], part of
      [wfBranches], says that a list is in that order.
    - A lookup [obj_get] finds own properties only.  An object literal
      also inherits the members of [Object.prototype], so for a key in
      [objectPrototypeKeys] that is not an own property the source reads
      an inherited member where [obj_get] gives [None].  The ids the
      application makes are ["main"] and ["branch-<ms>"]; theorems about
      arbitrary branch mappings say which ids they are about ([plainIds],
      or a key outside [objectPrototypeKeys]).
    - [childrenMap] is only ever read by key, never enumerated: a [gmap],
      which agrees with the object of the source on every key outside
      [objectPrototypeKeys].
    - Strings are sequences of bytes.  Where the source counts or cuts
      characters ([content.slice(0, 50)]) the text is taken to be ASCII,
      for which bytes and UTF-16 code units coincide.
    - Block coordinates are [Z]: [canvasCenter] is [(800,400)] in every
      conversation the application builds and the layout constants are
      integers, so every coordinate the engine computes is an integer and
      the double arithmetic of the source is exact.  Quantities that the
      source divides by two or scales by [0.3] in the viewport and the
      edge geometry are rationals ([Q]).
    - [Date.now()] is an argument of the handlers that call it.
    - The recursion of [positionBranch] is driven by fuel; [None] means
      that the fuel ran out.  The call stack of the source is taken to be
      deep enough for the recursion.
      [calculateOptimalBranchPositions_total] shows
      that the fuel handed out by [calculateOptimalBranchPositions] always
      suffices when the branch ids are distinct.
    - Handlers are transformers of the state they read and set, and events
      are handled one at a time.  The handlers of [MainLayout] are made
      anew by each render and called through the props of that render, so
      each sees the state the previous one left.  The mousemove and
      mouseup listeners of [CanvasArea] are registered on the document by
      an effect: the listener called is that of the last render whose
      effect ran ([Canvas], [canvasStep]).  The timer of
      [handleNavigateToMessage] is left out.
    - Pointer coordinates and wheel deltas are rationals.
    - Of the DOM, [isWithinScrollableArea] sees a tree of elements with
      attribute names, class lists and children; an element of the document
      is named by the path of child indices from the root.
    - [branchesByLevel] is an object keyed by numbers: its entries are
      kept in the order [Object.entries] gives, array-index keys ascending
      first. *)

From Stdlib Require Import ZArith QArith Qminmax Lia Ascii DecimalString DecimalN.
From stdpp Require Import gmap strings list.

Local Open Scope string_scope.
Local Open Scope Z_scope.
Local Open Scope list_scope.

(** ** JavaScript objects as records in enumeration order *)

Abbreviation JsObject V := (list (string * V)).

(** [o[k]], for a key that is an own property of [o] or is not the name
    of a member every object inherits ([objectPrototypeKeys] below). *)
Fixpoint obj_get {V} (o : JsObject V) (k : string) : option V :=
  match o with
  | [] => None
  | (k', v) :: o' => if String.eqb k' k then Some v else obj_get o' k
  end.

(** The value of a decimal digit: the characters 0 to 9 have the codes
    48 to 57. *)
Definition digit (c : ascii) : option N :=
  let code := N_of_ascii c in
  if (48 <=? code)%N && (code <=? 57)%N then Some (code - 48)%N else None.

Fixpoint digitsValue (acc : N) (s : string) : option N :=
  match s with
  | EmptyString => Some acc
  | String c s =>
      match digit c with
      | Some d => digitsValue (10 * acc + d) s
      | None => None
      end
  end.

(** A property key is an array index when it is the canonical decimal
    form (no leading zero) of an integer from 0 to 2^32 - 2. *)
Definition arrayIndex (k : string) : option N :=
  match k with
  | EmptyString => None
  | String c rest =>
      match digit c with
      | None => None
      | Some 0%N => match rest with EmptyString => Some 0%N | _ => None end
      | Some d =>
          match digitsValue d rest with
          | Some n => if (n <? 4294967295)%N then Some n else None
          | None => None
          end
      end
  end.

(** The order in which an object enumerates its own string keys:
    array-index keys first, in ascending numeric order, then the other
    keys in the order in which they were added.  [enumeratedBefore k' k]:
    a property [k'] that is already there stays ahead of a newly added
    property [k]. *)
Definition enumeratedBefore (k' k : string) : bool :=
  match arrayIndex k', arrayIndex k with
  | Some n', Some n => (n' <=? n)%N
  | Some _, None => true
  | None, Some _ => false
  | None, None => true
  end.

Fixpoint jsOrdered (keys : list string) : bool :=
  match keys with
  | [] => true
  | k :: keys => forallb (enumeratedBefore k) keys && jsOrdered keys
  end.

(** Assignment to a key that is present or that is not an array index:
    an existing key keeps its place, a new key goes last. *)
Fixpoint obj_put {V} (o : JsObject V) (k : string) (v : V) : JsObject V :=
  match o with
  | [] => [(k, v)]
  | (k', v') :: o' =>
      if String.eqb k' k then (k', v) :: o' else (k', v') :: obj_put o' k v
  end.

(** A new property takes its place in the enumeration order. *)
Fixpoint obj_insert {V} (o : JsObject V) (k : string) (v : V) : JsObject V :=
  match o with
  | [] => [(k, v)]
  | (k', v') :: o' =>
      if enumeratedBefore k' k then (k', v') :: obj_insert o' k v else (k, v) :: o
  end.

(** [o[k] = v], and also the spread [{...o, [k]: v}]. *)
Definition obj_set {V} (o : JsObject V) (k : string) (v : V) : JsObject V :=
  match arrayIndex k, obj_get o k with
  | Some _, None => obj_insert o k v
  | _, _ => obj_put o k v
  end.

Definition Object_keys {V} (o : JsObject V) : list string := o.*1.
Definition Object_values {V} (o : JsObject V) : list V := o.*2.
Definition Object_entries {V} (o : JsObject V) : list (string * V) := o.

(** The names of the members an object literal inherits from
    [Object.prototype].  A lookup [o[k]] with such a [k] that is not an own
    property of [o] does not give [undefined]. *)
Definition objectPrototypeKeys : list string :=
  ["constructor"; "__defineGetter__"; "__defineSetter__"; "hasOwnProperty";
   "__lookupGetter__"; "__lookupSetter__"; "isPrototypeOf";
   "propertyIsEnumerable"; "toString"; "valueOf"; "__proto__"; "toLocaleString"].

(** ** Data model (the interfaces of MainLayout.tsx) *)

Record Point : Type := mkPoint { x : Z; y : Z }.

Inductive Role : Type := user | assistant.

Record Message : Type := mkMessage {
  message_id : string;
  content : string;
  role : Role;
  timestamp : Z;
  isInherited : option bool
}.

Record Branch : Type := mkBranch {
  branch_id : string;
  name : string;
  parentBranchId : option string;
  parentMessageId : option string;
  messages : list Message;
  summary : string;
  position : Point;
  level : Z
}.

Record Conversation : Type := mkConversation {
  conversation_id : string;
  title : string;
  lastMessage : string;
  branches : JsObject Branch;
  activeBranchId : string;
  canvasCenter : Point
}.

(** Truthiness of an optional string: [undefined] and [""] are falsy. *)
Definition truthy (s : option string) : option string :=
  match s with
  | Some p => if String.eqb p "" then None else Some p
  | None => None
  end.

(** Truthiness of an optional boolean. *)
Definition truthy_flag (b : option bool) : bool :=
  match b with Some true => true | _ => false end.

(** ** Layout engine: [calculateOptimalBranchPositions] *)

Definition HORIZONTAL_SPACING : Z := 450.
Definition VERTICAL_SPACING : Z := 150.
Definition BLOCK_HEIGHT : Z := 380.
Definition BLOCK_WIDTH : Z := 320.
Definition MIN_SPACING : Z := 50.

(** Body of the first [branches.forEach]: record the branch under its
    parent.  ([parentMap] is written but never read and is left out.)
    [childrenMap] starts as the literal [{}]: for a parent id in
    [objectPrototypeKeys] the source finds an inherited member instead of
    [undefined] and calls its [push], which throws; [plainBranch] rules
    such ids out. *)
Definition addChild (childrenMap : gmap string (list string)) (branch : Branch)
    : gmap string (list string) :=
  match truthy (parentBranchId branch) with
  | Some p => <[p := default [] (childrenMap !! p) ++ [branch_id branch]]> childrenMap
  | None => childrenMap
  end.

Definition buildChildrenMap (bs : list Branch) : gmap string (list string) :=
  fold_left addChild bs ∅.

(** [b => !b.parentBranchId] *)
Definition isRoot (b : Branch) : bool :=
  match truthy (parentBranchId b) with Some _ => false | None => true end.

(** [Object.values(positions).filter(pred).length] *)
Definition countWhere (pred : Point -> bool) (positions : JsObject Point) : Z :=
  Z.of_nat (length (filter (fun pos => pred pos = true) (Object_values positions))).

(** [children.forEach((childId, index) => body)] with the mutable
    [positions] threaded through the callback. *)
Fixpoint forEach (body : string -> nat -> JsObject Point -> option (JsObject Point))
    (children : list string) (index : nat) (positions : JsObject Point)
    : option (JsObject Point) :=
  match children with
  | [] => Some positions
  | childId :: rest =>
      match body childId index positions with
      | Some positions' => forEach body rest (S index) positions'
      | None => None
      end
  end.

(** The side of the parent a child goes to. *)
Definition goRight (index : nat) (existingRightBranches existingLeftBranches : Z) : bool :=
  if Nat.eqb (index mod 2) 0%nat
  then existingRightBranches <=? existingLeftBranches
  else existingLeftBranches <? existingRightBranches.

Definition childPosition (parentPos : Point) (startY : Z)
    (existingRightBranches existingLeftBranches : Z) (index : nat) : Point :=
  let xDirection := if goRight index existingRightBranches existingLeftBranches then 1 else -1 in
  let xOffset := HORIZONTAL_SPACING * xDirection in
  let yPosition := startY + Z.of_nat index * VERTICAL_SPACING in
  {| x := x parentPos + xOffset; y := yPosition |}.

(** [positionBranch]; the source's [depth] argument is never read and is
    left out. *)
Fixpoint positionBranch (fuel : nat) (childrenMap : gmap string (list string))
    (branchId : string) (positions : JsObject Point) : option (JsObject Point) :=
  match fuel with
  | O => None
  | S fuel' =>
      let children := default [] (childrenMap !! branchId) in
      if Nat.eqb (length children) 0%nat then Some positions else
      match obj_get positions branchId with
      | None => Some positions
      | Some parentPos =>
          let totalChildren := Z.of_nat (length children) in
          let totalHeight := Z.max (totalChildren * VERTICAL_SPACING) BLOCK_HEIGHT in
          let startY := y parentPos - totalHeight / 2 + VERTICAL_SPACING / 2 in
          let existingRightBranches := countWhere (fun pos => x parentPos <? x pos) positions in
          let existingLeftBranches := countWhere (fun pos => x pos <? x parentPos) positions in
          forEach
            (fun childId index positions =>
               positionBranch fuel' childrenMap childId
                 (obj_set positions childId
                    (childPosition parentPos startY
                       existingRightBranches existingLeftBranches index)))
            children 0%nat positions
      end
  end.

(** ** Overlap resolution: [resolveOverlaps] *)

Definition overlapping (pos1 pos2 : Point) : bool :=
  let dx := Z.abs (x pos1 - x pos2) in
  let dy := Z.abs (y pos1 - y pos2) in
  (dx <? BLOCK_WIDTH + MIN_SPACING) && (dy <? BLOCK_HEIGHT + MIN_SPACING).

(** Where the second block of an overlapping pair is put. *)
Definition moved (pos1 pos2 : Point) : Point :=
  let moveDistance := BLOCK_HEIGHT + MIN_SPACING in
  if y pos1 <=? y pos2
  then {| x := x pos2; y := y pos1 + moveDistance |}
  else {| x := x pos2; y := y pos1 - moveDistance |}.

(** Body of the inner loop at indices [i] and [j]. *)
Definition resolvePair (positionArray : list (string * Point)) (i j : nat)
    (resolved : JsObject Point) : JsObject Point :=
  match positionArray !! i, positionArray !! j with
  | Some (id1, pos1), Some (id2, pos2) =>
      if overlapping pos1 pos2 then obj_set resolved id2 (moved pos1 pos2)
      else resolved
  | _, _ => resolved
  end.

(** [for (let j = i + 1; j < positionArray.length; j++)] *)
Definition resolveRow (positionArray : list (string * Point)) (i : nat)
    (resolved : JsObject Point) : JsObject Point :=
  fold_left (fun resolved j => resolvePair positionArray i j resolved)
    (seq (S i) (length positionArray - S i)) resolved.

Definition resolveOverlaps (positions : JsObject Point) : JsObject Point :=
  let positionArray := Object_entries positions in
  fold_left (fun resolved i => resolveRow positionArray i resolved)
    (seq 0%nat (length positionArray)) positions.

Definition calculateOptimalBranchPositions (conversation : Conversation)
    : option (JsObject Point) :=
  let bs := Object_values (branches conversation) in
  let childrenMap := buildChildrenMap bs in
  match find isRoot bs with
  | None => Some []
  | Some rootBranch =>
      let positions := obj_set [] (branch_id rootBranch) (canvasCenter conversation) in
      match positionBranch (length bs) childrenMap (branch_id rootBranch) positions with
      | Some positions' => Some (resolveOverlaps positions')
      | None => None
      end
  end.

(** ** Branch handlers of [MainLayout] *)

(** [Date.now().toString()], decimal. *)
Definition toString (n : N) : string := NilEmpty.string_of_uint (N.to_uint n).

(** [{...lastMessage, id: `inherited-${lastMessage.id}`, isInherited: true}] *)
Definition inheritedCopy (lastMessage : Message) : Message :=
  {| message_id := "inherited-" +:+ message_id lastMessage;
     content := content lastMessage;
     role := role lastMessage;
     timestamp := timestamp lastMessage;
     isInherited := Some true |}.

(** [{...branch, position: newPositions[id] || branch.position}] *)
Definition withPosition (newPositions : JsObject Point) (id : string) (branch : Branch)
    : Branch :=
  {| branch_id := branch_id branch;
     name := name branch;
     parentBranchId := parentBranchId branch;
     parentMessageId := parentMessageId branch;
     messages := messages branch;
     summary := summary branch;
     position := default (position branch) (obj_get newPositions id);
     level := level branch |}.

(** The [Object.entries(...).forEach] that writes the positions back. *)
Definition updateBranches (newPositions : JsObject Point) (bs : JsObject Branch)
    : JsObject Branch :=
  fold_left
    (fun updatedBranches '(id, branch) =>
       obj_set updatedBranches id (withPosition newPositions id branch))
    (Object_entries bs) [].

(** [handleCreateBranch] as a transformer of the active conversation; [now]
    is the value of [Date.now()] and [lastMsg] is the source's local
    [lastMessage].  An early [return] leaves the state as it is. *)
Definition handleCreateBranch (now : N) (activeConversation : Conversation)
    : option Conversation :=
  match obj_get (branches activeConversation) (activeBranchId activeConversation) with
  | None => Some activeConversation
  | Some activeBranch =>
      match last (messages activeBranch) with
      | None => Some activeConversation
      | Some lastMsg =>
          let newBranchId := "branch-" +:+ toString now in
          let newLevel := level activeBranch + 1 in
          let inheritedMessage := inheritedCopy lastMsg in
          let newBranch :=
            {| branch_id := newBranchId;
               name := newBranchId;
               parentBranchId := Some (branch_id activeBranch);
               parentMessageId := Some (message_id lastMsg);
               messages := [inheritedMessage];
               summary := "Branch from: " +:+ summary activeBranch;
               position := {| x := 0; y := 0 |};
               level := newLevel |} in
          let updatedConversation :=
            {| conversation_id := conversation_id activeConversation;
               title := title activeConversation;
               lastMessage := lastMessage activeConversation;
               branches := obj_set (branches activeConversation) newBranchId newBranch;
               activeBranchId := newBranchId;
               canvasCenter := canvasCenter activeConversation |} in
          match calculateOptimalBranchPositions updatedConversation with
          | None => None
          | Some newPositions =>
              Some {| conversation_id := conversation_id updatedConversation;
                      title := title updatedConversation;
                      lastMessage := lastMessage updatedConversation;
                      branches := updateBranches newPositions (branches updatedConversation);
                      activeBranchId := activeBranchId updatedConversation;
                      canvasCenter := canvasCenter updatedConversation |}
          end
      end
  end.

(** [handleSwitchBranch]: only the active branch id changes. *)
Definition handleSwitchBranch (branchId : string) (activeConversation : Conversation)
    : Conversation :=
  {| conversation_id := conversation_id activeConversation;
     title := title activeConversation;
     lastMessage := lastMessage activeConversation;
     branches := branches activeConversation;
     activeBranchId := branchId;
     canvasCenter := canvasCenter activeConversation |}.

(** The double-quote character, as a string. *)
Definition quote : string := String "034"%char "".

(** [handleSendMessage]; [now] is the value of [Date.now()], also used for
    the [new Date()] timestamps, and [content.slice(0, 50)] is the first 50
    characters of the content, which for ASCII text are its first 50
    bytes. *)
Definition handleSendMessage (content' : string) (now : N) (activeConversation : Conversation)
    : Conversation :=
  match obj_get (branches activeConversation) (activeBranchId activeConversation) with
  | None => activeConversation
  | Some activeBranch =>
      let userMessage :=
        {| message_id := toString now; content := content'; role := user;
           timestamp := Z.of_N now; isInherited := None |} in
      let assistantMessage :=
        {| message_id := toString (now + 1);
           content := "This is a response to: " +:+ quote +:+ content' +:+ quote;
           role := assistant; timestamp := Z.of_N now; isInherited := None |} in
      {| conversation_id := conversation_id activeConversation;
         title := title activeConversation;
         lastMessage := content';
         branches :=
           obj_set (branches activeConversation) (branch_id activeBranch)
             {| branch_id := branch_id activeBranch;
                name := name activeBranch;
                parentBranchId := parentBranchId activeBranch;
                parentMessageId := parentMessageId activeBranch;
                messages := messages activeBranch ++ [userMessage; assistantMessage];
                summary :=
                  if Nat.eqb (length (messages activeBranch)) 0
                  then "Discussion about: " +:+ String.substring 0 50 content' +:+ "..."
                  else summary activeBranch;
                position := position activeBranch;
                level := level activeBranch |};
         activeBranchId := activeBranchId activeConversation;
         canvasCenter := canvasCenter activeConversation |}
  end.

(** The conversation literal of [handleNewConversation] and of the first
    entry of the initial state, which differ in id and [lastMessage]. *)
Definition emptyConversation (newId lastMessage' : string) : Conversation :=
  {| conversation_id := newId; title := "New Conversation";
     lastMessage := lastMessage';
     branches :=
       [("main",
         {| branch_id := "main"; name := "main"; parentBranchId := None;
            parentMessageId := None; messages := []; summary := "New conversation";
            position := {| x := 800; y := 400 |}; level := 0 |})];
     activeBranchId := "main";
     canvasCenter := {| x := 800; y := 400 |} |}.

(** [canCreateBranch] of ChatBar: the New Branch button is enabled. *)
Definition canCreateBranch (activeBranch : option Branch) : bool :=
  match activeBranch with
  | Some b => existsb (fun m => negb (truthy_flag (isInherited m))) (messages b)
  | None => false
  end.

(** ** Edge geometry of [CanvasArea] *)

Record ConnectionPoints : Type := mkConnectionPoints {
  startX : Z; startY : Z; endX : Z; endY : Z
}.

(** Half of the block width, named [BLOCK_WIDTH] inside
    [calculateConnectionPoints]. *)
Definition BLOCK_HALF_WIDTH : Z := 160.

Definition calculateConnectionPoints (parentBranch childBranch : Branch)
    : ConnectionPoints :=
  let isChildOnRight := x (position parentBranch) <? x (position childBranch) in
  let isChildOnLeft := x (position childBranch) <? x (position parentBranch) in
  let '(startX, endX) :=
    if isChildOnRight then
      (x (position parentBranch) + BLOCK_HALF_WIDTH, x (position childBranch) - BLOCK_HALF_WIDTH)
    else if isChildOnLeft then
      (x (position parentBranch) - BLOCK_HALF_WIDTH, x (position childBranch) + BLOCK_HALF_WIDTH)
    else (x (position parentBranch), x (position childBranch)) in
  {| startX := startX;
     startY := y (position parentBranch);
     endX := endX;
     endY := y (position childBranch) |}.

(** What the connection-line callback computes for one edge; [0.3] is the
    rational [3/10].  ([distance] is computed but never used in the source
    and is left out.) *)
Record Connection : Type := mkConnection {
  points : ConnectionPoints;
  controlOffset : Q;
  controlX1 : Q;
  controlX2 : Q;
  minX : Z; maxX : Z; minY : Z; maxY : Z
}.

Definition connectionFor (parentBranch branch : Branch) : Connection :=
  let cp := calculateConnectionPoints parentBranch branch in
  let deltaX := Z.abs (endX cp - startX cp) in
  let controlOffset := Qmin (Qmax (inject_Z deltaX * (3 # 10)) (inject_Z 80)) (inject_Z 150) in
  let isChildOnRight := startX cp <? endX cp in
  {| points := cp;
     controlOffset := controlOffset;
     controlX1 := (inject_Z (startX cp)
                   + (if isChildOnRight then controlOffset else - controlOffset))%Q;
     controlX2 := (inject_Z (endX cp)
                   + (if isChildOnRight then - controlOffset else controlOffset))%Q;
     minX := Z.min (startX cp) (endX cp) - 50;
     maxX := Z.max (startX cp) (endX cp) + 50;
     minY := Z.min (startY cp) (endY cp) - 50;
     maxY := Z.max (startY cp) (endY cp) + 50 |}.

(** ** Viewport of [CanvasArea]: the recentering effect *)

Record Offset : Type := mkOffset { offsetX : Q; offsetY : Q }.

(** The element behind [canvasRef.current]. *)
Record Container : Type := mkContainer { clientWidth : Z; clientHeight : Z }.

(** Body of the effect. *)
Definition recenter (conversation : option Conversation) (current : option Container)
    (canvasOffset : Offset) : Offset :=
  match conversation, current with
  | Some conversation, Some container =>
      match obj_get (branches conversation) "main" with
      | Some mainBranch =>
          {| offsetX := (inject_Z (clientWidth container) / 2
                         - inject_Z (x (position mainBranch)))%Q;
             offsetY := (inject_Z (clientHeight container) / 2
                         - inject_Z (y (position mainBranch)))%Q |}
      | None => canvasOffset
      end
  | _, _ => canvasOffset
  end.

(** [conversation?.id], the only dependency of the effect. *)
Definition effectDependency (conversation : option Conversation) : option string :=
  conversation_id <$> conversation.

(** One render with the previous render's conversation [previous]: the
    effect body runs exactly when the dependency differs.  On mount there
    is no previous render and the effect runs; [previous = None] covers
    that, since without a conversation the body does nothing. *)
Definition afterRender (previous conversation : option Conversation)
    (current : option Container) (canvasOffset : Offset) : Offset :=
  if decide (effectDependency previous = effectDependency conversation)
  then canvasOffset
  else recenter conversation current canvasOffset.

(** ** The error taxonomy of the specification

    The source declares no error type, [calculateOptimalBranchPositions]
    has no [throw] statement and its result type is the positions mapping:
    a call that finishes always finishes with [Positions]. *)

Inductive LayoutError : Type :=
  | NoRoot
  | DanglingParent (branchId : string).

Inductive LayoutOutcome : Type :=
  | Positions (positions : JsObject Point)
  | Failure (e : LayoutError).

Definition layout (conversation : Conversation) : option LayoutOutcome :=
  Positions <$> calculateOptimalBranchPositions conversation.

(** ** Well-formed branch mappings and tree vocabulary *)

(** An object has each key once and lists its keys in enumeration order,
    and every handler stores a branch under its own id. *)
Definition wfBranches (bs : JsObject Branch) : Prop :=
  NoDup (Object_keys bs) ∧ Forall (fun kb => branch_id kb.2 = kb.1) bs ∧
  jsOrdered (Object_keys bs) = true.

(** Ids for which the plain objects of the layout behave as maps: a
    branch id that is not an array index, so that [positions] enumerates
    in insertion order, and no branch id or parent id that is the name of
    an inherited member, so that [childrenMap[id]] and [positions[id]]
    find own properties only. *)
Definition plainBranch (b : Branch) : bool :=
  bool_decide (arrayIndex (branch_id b) = None)
  && bool_decide (branch_id b ∉ objectPrototypeKeys)
  && match truthy (parentBranchId b) with
     | Some p => bool_decide (p ∉ objectPrototypeKeys)
     | None => true
     end.

Definition plainIds (bs : list Branch) : Prop := forallb plainBranch bs = true.

(** The ids recorded under [p] in [childrenMap], in enumeration order. *)
Definition childrenOf (bs : list Branch) (p : string) : list string :=
  branch_id <$> filter (fun b => truthy (parentBranchId b) = Some p) bs.

(** [isChild bs p c]: branch [c] names [p] as its parent. *)
Definition isChild (bs : list Branch) (p c : string) : Prop :=
  c ∈ childrenOf bs p.

(** Reachable from [a] by following parent links downwards. *)
Definition descendsFrom (bs : list Branch) (a u : string) : Prop :=
  rtc (isChild bs) a u.

(** What the structure of the layout depends on. *)
Definition shape (b : Branch) : string * option string :=
  (branch_id b, parentBranchId b).

(** The position the pass leaves a block at, given the pre-pass positions
    of the blocks enumerated before it: the last overlapping one decides. *)
Definition resolvedAt (earlier : list Point) (pos2 : Point) : Point :=
  fold_left (fun acc pos1 => if overlapping pos1 pos2 then moved pos1 pos2 else acc)
    earlier pos2.

(** [depthOf bs rootBranch u n]: [u] is [n] parent links below the root. *)
Inductive depthOf (bs : list Branch) (rootBranch : Branch) : string → nat → Prop :=
  | depthOf_root : depthOf bs rootBranch (branch_id rootBranch) 0
  | depthOf_child p c n :
      depthOf bs rootBranch p n → isChild bs p c → depthOf bs rootBranch c (S n).

(** What one execution of the inner loop body leaves at index [j]. *)
Definition pairResult (positionArray : list (string * Point)) (i j : nat)
    (old : option (string * Point)) : option (string * Point) :=
  match positionArray !! i, positionArray !! j with
  | Some (_, pos1), Some (id2, pos2) =>
      if overlapping pos1 pos2 then Some (id2, moved pos1 pos2) else old
  | _, _ => old
  end.

(** The ids handed out by [handleCreateBranch]. *)
Definition newBranchId (now : N) : string := "branch-" +:+ toString now.

(** The local [newBranch] of [handleCreateBranch]. *)
Definition newBranchOf (now : N) (activeBranch : Branch) (lastMsg : Message) : Branch :=
  {| branch_id := newBranchId now;
     name := newBranchId now;
     parentBranchId := Some (branch_id activeBranch);
     parentMessageId := Some (message_id lastMsg);
     messages := [inheritedCopy lastMsg];
     summary := "Branch from: " +:+ summary activeBranch;
     position := {| x := 0; y := 0 |};
     level := level activeBranch + 1 |}.

(** The local [updatedConversation] of [handleCreateBranch]. *)
Definition updatedConversationOf (now : N) (activeConversation : Conversation)
    (activeBranch : Branch) (lastMsg : Message) : Conversation :=
  {| conversation_id := conversation_id activeConversation;
     title := title activeConversation;
     lastMessage := lastMessage activeConversation;
     branches := obj_set (branches activeConversation) (newBranchId now)
                   (newBranchOf now activeBranch lastMsg);
     activeBranchId := newBranchId now;
     canvasCenter := canvasCenter activeConversation |}.

(** The conversation with the new positions written back. *)
Definition repositioned (newPositions : JsObject Point) (c : Conversation) : Conversation :=
  {| conversation_id := conversation_id c;
     title := title c;
     lastMessage := lastMessage c;
     branches := (λ kb, (kb.1, withPosition newPositions kb.1 kb.2)) <$> branches c;
     activeBranchId := activeBranchId c;
     canvasCenter := canvasCenter c |}.

(** The root of the second conversation of the initial state. *)
Definition projectIdeasMain : Branch :=
  {| branch_id := "main"; name := "main"; parentBranchId := None;
     parentMessageId := None;
     messages :=
       [{| message_id := "1"; content := "Let's brainstorm some project ideas";
           role := user; timestamp := 0; isInherited := None |};
        {| message_id := "2";
           content := "Here are some exciting project ideas we could explore...";
           role := assistant; timestamp := 0; isInherited := None |}];
     summary := "Brainstorming project concepts";
     position := {| x := 800; y := 400 |}; level := 0 |}.

(** The second conversation of the initial state of [MainLayout]; the
    timestamps, [new Date()] in the source, are taken to be 0. *)
Definition projectIdeas : Conversation :=
  {| conversation_id := "2"; title := "Project Ideas";
     lastMessage := "Let's brainstorm some concepts";
     branches := [("main", projectIdeasMain)];
     activeBranchId := "main";
     canvasCenter := {| x := 800; y := 400 |} |}.

(** The conversations the application can build. *)
Inductive built : Conversation → Prop :=
  | built_empty newId lastMessage' : built (emptyConversation newId lastMessage')
  | built_sample : built projectIdeas
  | built_send c content' now : built c → built (handleSendMessage content' now c)
  | built_switch c branchId : built c → built (handleSwitchBranch branchId c)
  | built_create c now c' : built c → handleCreateBranch now c = Some c' → built c'.

(** Every key is a non-empty id, and the parentless branches are exactly
    those stored under main. *)
Definition mainIsRoot (bs : JsObject Branch) : Prop :=
  Forall (λ kb, kb.1 ≠ "" ∧ (isRoot kb.2 = true ↔ kb.1 = "main")) bs ∧
  is_Some (obj_get bs "main").

(** The inherited messages of a branch come first. *)
Definition seedFirst (ms : list Message) : Prop :=
  ∃ seed sent,
    ms = seed ++ sent ∧
    Forall (λ m, truthy_flag (isInherited m) = true) seed ∧
    Forall (λ m, truthy_flag (isInherited m) = false) sent.

(** ** Example conversations *)

Definition exampleBranch (id : string) (parent : option string) : string * Branch :=
  (id, {| branch_id := id; name := id; parentBranchId := parent;
          parentMessageId := None; messages := []; summary := "";
          position := {| x := 0; y := 0 |}; level := 0 |}).

Definition exampleConversation (bs : JsObject Branch) : Conversation :=
  {| conversation_id := "1"; title := "New Conversation";
     lastMessage := "Welcome to your workspace"; branches := bs;
     activeBranchId := "main"; canvasCenter := {| x := 800; y := 400 |} |}.

(** A root with the children a, b, in the two enumeration orders. *)
Definition siblingsAB : Conversation :=
  exampleConversation
    [exampleBranch "main" None; exampleBranch "a" (Some "main");
     exampleBranch "b" (Some "main")].

Definition siblingsBA : Conversation :=
  exampleConversation
    [exampleBranch "main" None; exampleBranch "b" (Some "main");
     exampleBranch "a" (Some "main")].

(** Two branches naming each other as parent: no parentless branch. *)
Definition noRootConversation : Conversation :=
  exampleConversation [exampleBranch "a" (Some "b"); exampleBranch "b" (Some "a")].

(** Two parentless branches, the second with a child. *)
Definition twoRootsConversation : Conversation :=
  exampleConversation
    [exampleBranch "main" None; exampleBranch "other" None;
     exampleBranch "a" (Some "other")].

(** A branch d whose parent id names no branch, with a child e of its own. *)
Definition danglingConversation : Conversation :=
  exampleConversation
    [exampleBranch "main" None; exampleBranch "a" (Some "main");
     exampleBranch "d" (Some "gone"); exampleBranch "e" (Some "d")].

(** A root with five children. *)
Definition fiveChildren : Conversation :=
  exampleConversation
    [exampleBranch "main" None; exampleBranch "a" (Some "main");
     exampleBranch "b" (Some "main"); exampleBranch "c" (Some "main");
     exampleBranch "d" (Some "main"); exampleBranch "e" (Some "main")].

(** The positions of [fiveChildren] before the overlap pass. *)
Definition fiveChildrenPlaced : JsObject Point :=
  [("main", {| x := 800; y := 400 |}); ("a", {| x := 1250; y := 100 |});
   ("b", {| x := 350; y := 250 |}); ("c", {| x := 1250; y := 400 |});
   ("d", {| x := 350; y := 550 |}); ("e", {| x := 1250; y := 700 |})].

(** The number of parentless branches. *)
Definition rootCount (conversation : Conversation) : nat :=
  length (filter (fun b => isRoot b = true) (Object_values (branches conversation))).

(** A block at a given position, for the edge geometry. *)
Definition edgeBlock (px py : Z) : Branch :=
  {| branch_id := "b"; name := "b"; parentBranchId := None; parentMessageId := None;
     messages := []; summary := ""; position := {| x := px; y := py |}; level := 0 |}.

(** A tree whose branch ids are array indices: 5 below the root 9, and
    1 and 2 below 5. *)
Definition numericConversation : Conversation :=
  exampleConversation
    [exampleBranch "1" (Some "5"); exampleBranch "2" (Some "5");
     exampleBranch "5" (Some "9"); exampleBranch "9" None].

(** ** Vocabulary for the placement of children *)

(** [startY] of [positionBranch] for a parent at [parentPos] with [k]
    children. *)
Definition startYOf (parentPos : Point) (k : nat) : Z :=
  y parentPos - Z.max (Z.of_nat k * VERTICAL_SPACING) BLOCK_HEIGHT / 2
  + VERTICAL_SPACING / 2.

(** [k] is a child of [v] or below one. *)
Definition strictlyBelow (bs : list Branch) (v k : string) : Prop :=
  ∃ c, isChild bs v c ∧ descendsFrom bs c k.

(** [expandedAt bs ps p]: [p] is a property of [ps], and each child of [p]
    sits where [positionBranch] puts it when the side counts are taken
    over the properties of [ps] up to and including [p]. *)
Definition expandedAt (bs : list Branch) (ps : JsObject Point) (p : string) : Prop :=
  ∃ pre pp rest,
    ps = pre ++ (p, pp) :: rest ∧
    ∀ i c, childrenOf bs p !! i = Some c →
      obj_get ps c =
      Some (childPosition pp (startYOf pp (length (childrenOf bs p)))
              (countWhere (λ pos, x pp <? x pos) (pre ++ [(p, pp)]))
              (countWhere (λ pos, x pos <? x pp) (pre ++ [(p, pp)])) i).

(** What the walk from [v] has established once the children in [done]
    have been handled and the properties [ext] have been added. *)
Definition walkInv (bs : list Branch) (pre : JsObject Point) (v : string) (pv : Point) (startY R L : Z)
    (done : list string) (ext : JsObject Point) : Prop :=
  NoDup (Object_keys (pre ++ (v, pv) :: ext)) ∧
  (∀ k, k ∈ Object_keys ext → ∃ c, c ∈ done ∧ descendsFrom bs c k) ∧
  (∀ i c, done !! i = Some c →
     obj_get (pre ++ (v, pv) :: ext) c = Some (childPosition pv startY R L i)) ∧
  (∀ q, q ∈ Object_keys ext → expandedAt bs (pre ++ (v, pv) :: ext) q).

(** What a walk from [v], the last property of the positions it starts
    from, returns. *)
Definition walkPost (bs : list Branch) (pre : JsObject Point) (v : string) (pv : Point)
    (ps' : JsObject Point) : Prop :=
  ∃ ext,
    ps' = pre ++ (v, pv) :: ext ∧
    NoDup (Object_keys ps') ∧
    (∀ k, k ∈ Object_keys ext → strictlyBelow bs v k) ∧
    (∀ q, q = v ∨ q ∈ Object_keys ext → expandedAt bs ps' q).

(** A root main with two branches a and b that name each other as parent. *)
Definition cyclicConversation : Conversation :=
  exampleConversation
    [exampleBranch "main" None; exampleBranch "c" (Some "main");
     exampleBranch "a" (Some "b"); exampleBranch "b" (Some "a")].

(** A root with three children, the first of which has two children. *)
Definition nestedConversation : Conversation :=
  exampleConversation
    [exampleBranch "main" None; exampleBranch "a" (Some "main");
     exampleBranch "b" (Some "main"); exampleBranch "c" (Some "main");
     exampleBranch "a1" (Some "a"); exampleBranch "a2" (Some "a")].

(** ** The connection lines drawn by [CanvasArea] *)

(** The callback of the second [branches.map]: [None] is the source's
    [null], for a branch without parent id or whose parent id names no
    branch. *)
Definition connectionLine (conversation : Conversation) (branch : Branch)
    : option Connection :=
  match truthy (parentBranchId branch) with
  | None => None
  | Some parentBranchId =>
      match obj_get (branches conversation) parentBranchId with
      | None => None
      | Some parentBranch => Some (connectionFor parentBranch branch)
      end
  end.

Definition connectionLines (conversation : Conversation) : list (option Connection) :=
  connectionLine conversation <$> Object_values (branches conversation).

(** Two blocks in the same column, 100 apart. *)
Definition twoBlocks : JsObject Point :=
  [("a", {| x := 0; y := 0 |}); ("b", {| x := 0; y := 100 |})].

(** ** Conversations built with fresh branch ids *)

(** The branch [handleSendMessage] stores in place of the active one. *)
Definition sentBranch (content' : string) (now : N) (activeBranch : Branch) : Branch :=
  {| branch_id := branch_id activeBranch;
     name := name activeBranch;
     parentBranchId := parentBranchId activeBranch;
     parentMessageId := parentMessageId activeBranch;
     messages :=
       messages activeBranch ++
       [{| message_id := toString now; content := content'; role := user;
           timestamp := Z.of_N now; isInherited := None |};
        {| message_id := toString (now + 1);
           content := "This is a response to: " +:+ quote +:+ content' +:+ quote;
           role := assistant; timestamp := Z.of_N now; isInherited := None |}];
     summary :=
       if Nat.eqb (length (messages activeBranch)) 0
       then "Discussion about: " +:+ String.substring 0 50 content' +:+ "..."
       else summary activeBranch;
     position := position activeBranch;
     level := level activeBranch |}.

(** The conversations the application builds when every create-branch
    draws an id that is not in use and every switch names a branch of the
    conversation. *)
Inductive builtFresh : Conversation → Prop :=
  | fresh_empty newId lastMessage' : builtFresh (emptyConversation newId lastMessage')
  | fresh_sample : builtFresh projectIdeas
  | fresh_send c content' now :
      builtFresh c → builtFresh (handleSendMessage content' now c)
  | fresh_switch c branchId :
      builtFresh c → branchId ∈ Object_keys (branches c) →
      builtFresh (handleSwitchBranch branchId c)
  | fresh_create c now c' :
      builtFresh c → newBranchId now ∉ Object_keys (branches c) →
      handleCreateBranch now c = Some c' → builtFresh c'.

(** A parentless branch has level 0; any other branch has its parent in
    the mapping, one level up. *)
Definition levelsConsistent (bs : JsObject Branch) : Prop :=
  ∀ k b, obj_get bs k = Some b →
    match truthy (parentBranchId b) with
    | None => level b = 0
    | Some p => ∃ pb, obj_get bs p = Some pb ∧ level b = level pb + 1
    end.

(** The stored positions are those the layout computes. *)
Definition positionsStored (c : Conversation) : Prop :=
  ∃ positions,
    calculateOptimalBranchPositions c = Some positions ∧
    ∀ k b, obj_get (branches c) k = Some b → obj_get positions k = Some (position b).

Definition treeShaped (c : Conversation) : Prop :=
  is_Some (obj_get (branches c) (activeBranchId c)) ∧
  canvasCenter c = {| x := 800; y := 400 |} ∧
  (∀ k, k ∈ Object_keys (branches c) →
        descendsFrom (Object_values (branches c)) "main" k) ∧
  levelsConsistent (branches c) ∧
  positionsStored c.

(** The sample conversation after a first branch, and after a message in
    that branch and a second branch from it. *)
Definition branchedOnce : Conversation :=
  default projectIdeas (handleCreateBranch 1 projectIdeas).

Definition branchedTwice : Conversation :=
  default branchedOnce (handleCreateBranch 3 (handleSendMessage "hi" 2 branchedOnce)).

(** [hasBranches] of [CanvasArea]: some branch has a message.  Without it
    the canvas shows a placeholder instead of blocks and lines. *)
Definition hasBranches (conversation : Conversation) : bool :=
  existsb (λ branch, 0 <? Z.of_nat (length (messages branch)))
    (Object_values (branches conversation)).

(** The connection lines the canvas renders. *)
Definition drawnLines (conversation : Conversation) : list (option Connection) :=
  if hasBranches conversation then connectionLines conversation else [].

(** ** Viewport of [CanvasArea]: dragging and wheel panning

    The three pieces of state of [CanvasArea], and its handlers as
    transformers of that state.  [handleMouseDown] reads nothing of the
    state, and [handleWheel] only the offset it updates.
    [handleMouseMove] is a closure over [isDragging] and [lastMousePos]:
    each render makes a new one, and the one the document calls is the
    one the effect of the last render registered. *)

Record MousePos : Type := mkMousePos { mouseX : Q; mouseY : Q }.

Record Viewport : Type := mkViewport {
  isDragging : bool;
  lastMousePos : MousePos;
  canvasOffset : Offset
}.

(** [handleMouseDown], for a press of [button] at [(clientX, clientY)]. *)
Definition handleMouseDown (button : Z) (clientX clientY : Q) (v : Viewport) : Viewport :=
  if button =? 0 then
    {| isDragging := true;
       lastMousePos := {| mouseX := clientX; mouseY := clientY |};
       canvasOffset := canvasOffset v |}
  else v.

(** [handleMouseMove] as the render of the state [rendered] makes it,
    called in the state [v]: [isDragging] and [lastMousePos] are those of
    [rendered]; [setCanvasOffset] is given a function of the previous
    offset, so the offset it updates is that of [v]. *)
Definition handleMouseMove (rendered : Viewport) (clientX clientY : Q) (v : Viewport)
    : Viewport :=
  if isDragging rendered then
    let deltaX := (clientX - mouseX (lastMousePos rendered))%Q in
    let deltaY := (clientY - mouseY (lastMousePos rendered))%Q in
    {| isDragging := isDragging v;
       lastMousePos := {| mouseX := clientX; mouseY := clientY |};
       canvasOffset := {| offsetX := (offsetX (canvasOffset v) + deltaX)%Q;
                          offsetY := (offsetY (canvasOffset v) + deltaY)%Q |} |}
  else v.

Definition handleMouseUp (v : Viewport) : Viewport :=
  {| isDragging := false;
     lastMousePos := lastMousePos v;
     canvasOffset := canvasOffset v |}.

(** A run of mouse-move events with a render after each: every move is
    handled by the handler made from the state it finds. *)
Definition mouseMoves (moves : list MousePos) (v : Viewport) : Viewport :=
  fold_left (λ v m, handleMouseMove v (mouseX m) (mouseY m) v) moves v.

(** The canvas between renders: its state, and the state of the render
    whose effect registered the mousemove and mouseup listeners on the
    document, if listeners are registered. *)
Record Canvas : Type := mkCanvas {
  viewport : Viewport;
  registered : option Viewport
}.

Inductive CanvasEvent : Type :=
  | MouseDown (button : Z) (clientX clientY : Q)
  | MouseMove (clientX clientY : Q)
  | MouseUp
  | Render.

(** A render of the same conversation followed by its effects: the
    listeners of the previous render are removed, and those of this
    render are registered when it finds [isDragging] set.  (The
    recentering effect runs only when the conversation id changes.) *)
Definition render (c : Canvas) : Canvas :=
  {| viewport := viewport c;
     registered := if isDragging (viewport c) then Some (viewport c) else None |}.

(** [onMouseDown] of the canvas calls [handleMouseDown]; a mousemove or
    mouseup on the document calls the registered listener, if any. *)
Definition canvasStep (e : CanvasEvent) (c : Canvas) : Canvas :=
  match e with
  | MouseDown button clientX clientY =>
      {| viewport := handleMouseDown button clientX clientY (viewport c);
         registered := registered c |}
  | MouseMove clientX clientY =>
      match registered c with
      | Some rendered =>
          {| viewport := handleMouseMove rendered clientX clientY (viewport c);
             registered := registered c |}
      | None => c
      end
  | MouseUp =>
      match registered c with
      | Some _ => {| viewport := handleMouseUp (viewport c); registered := registered c |}
      | None => c
      end
  | Render => render c
  end.

Definition canvasRun (events : list CanvasEvent) (c : Canvas) : Canvas :=
  fold_left (λ c e, canvasStep e c) events c.

(** Mouse moves with no render between them, and with a render after
    each. *)
Definition movesOnly (moves : list MousePos) : list CanvasEvent :=
  (λ m, MouseMove (mouseX m) (mouseY m)) <$> moves.

Definition movesRendered (moves : list MousePos) : list CanvasEvent :=
  flat_map (λ m, [MouseMove (mouseX m) (mouseY m); Render]) moves.

(** The part of the DOM that [isWithinScrollableArea] looks at: for each
    element the names of its attributes, its class list and its child
    elements. *)
#[warnings="-register-all"]
Inductive Element : Type :=
  mkElement (attributes classList : list string) (children : list Element).

Definition attributes (e : Element) : list string :=
  match e with mkElement attributes _ _ => attributes end.

Definition classList (e : Element) : list string :=
  match e with mkElement _ classList _ => classList end.

Definition children (e : Element) : list Element :=
  match e with mkElement _ _ children => children end.

Definition hasAttribute (e : Element) (attribute : string) : bool :=
  bool_decide (attribute ∈ attributes e).

Definition contains (e : Element) (class : string) : bool :=
  bool_decide (class ∈ classList e).

(** The element or one of its descendants has the attribute. *)
Fixpoint carries (attribute : string) (e : Element) : bool :=
  match e with
  | mkElement attributes _ children =>
      bool_decide (attribute ∈ attributes) || existsb (carries attribute) children
  end.

(** [e.querySelector('[attribute]')] is not null: a descendant of [e],
    not [e] itself, has the attribute. *)
Definition querySelector (e : Element) (attribute : string) : bool :=
  existsb (carries attribute) (children e).

(** An element of the document is named by the path of child indices that
    leads to it from the root element.  [parentChain] lists what following
    [parentElement] from it visits: the element, its parent, and so on up
    to the root, whose [parentElement] is null. *)
Fixpoint parentChain (root : Element) (path : list nat) (above : list Element)
    : option (list Element) :=
  match path with
  | [] => Some (root :: above)
  | i :: path =>
      match children root !! i with
      | Some child => parentChain child path (root :: above)
      | None => None
      end
  end.

(** The [while (current)] loop of [isWithinScrollableArea]. *)
Fixpoint whileCurrent (chain : list Element) : bool :=
  match chain with
  | [] => false
  | current :: parents =>
      if hasAttribute current "data-radix-scroll-area-viewport"
         || contains current "scroll-area-viewport"
         || querySelector current "data-radix-scroll-area-viewport"
      then true
      else if contains current "conversation-block-content" then true
      else whileCurrent parents
  end.

(** [isWithinScrollableArea]; [None] is a target that is null or not an
    element. *)
Definition isWithinScrollableArea (document : Element) (target : option (list nat)) : bool :=
  match target with
  | None => false
  | Some path =>
      match parentChain document path [] with
      | Some chain => whileCurrent chain
      | None => false
      end
  end.

(** [handleWheel], for a wheel event on [target] in [document]. *)
Definition handleWheel (ctrlKey metaKey : bool) (document : Element)
    (target : option (list nat)) (deltaX deltaY : Q) (v : Viewport) : Viewport :=
  let isPinch := ctrlKey || metaKey in
  if isPinch then v
  else if isWithinScrollableArea document target then v
  else
    let sensitivity := 1%Q in
    {| isDragging := isDragging v;
       lastMousePos := lastMousePos v;
       canvasOffset := {| offsetX := (offsetX (canvasOffset v) - deltaX * sensitivity)%Q;
                          offsetY := (offsetY (canvasOffset v) - deltaY * sensitivity)%Q |} |}.

(** A page whose only scroll viewport is inside a sidebar, next to an
    empty canvas. *)
Definition examplePage : Element :=
  mkElement [] []
    [mkElement [] ["sidebar"] [mkElement ["data-radix-scroll-area-viewport"] [] []];
     mkElement [] ["canvas"] [mkElement [] ["grid"] []]].

Definition restingViewport : Viewport :=
  {| isDragging := false;
     lastMousePos := {| mouseX := 0; mouseY := 0 |};
     canvasOffset := {| offsetX := 0; offsetY := 0 |} |}.

(** ** Messages as [ConversationBlock] and [ChatBar] show them *)

(** The two filters of [ConversationBlock]; the block renders the
    inherited messages first and the new ones below them. *)
Definition inheritedMessages (branch : Branch) : list Message :=
  List.filter (λ m, truthy_flag (isInherited m)) (messages branch).

Definition newMessages (branch : Branch) : list Message :=
  List.filter (λ m, negb (truthy_flag (isInherited m))) (messages branch).

(** The two counters of [ChatBar]. *)
Definition inheritedCount (activeBranch : option Branch) : nat :=
  match activeBranch with
  | Some b => length (inheritedMessages b)
  | None => 0
  end.

Definition newMessageCount (activeBranch : option Branch) : nat :=
  match activeBranch with
  | Some b => length (newMessages b)
  | None => 0
  end.

(** [s.slice(start)] *)
Fixpoint slice (start : nat) (s : string) : string :=
  match start, s with
  | O, _ => s
  | S start, String _ s => slice start s
  | S _, EmptyString => EmptyString
  end.

(** [s.replace(pattern, '')] for a string pattern: the first occurrence
    of the pattern is removed. *)
Fixpoint replace (pattern s : string) {struct s} : string :=
  if String.prefix pattern s then slice (String.length pattern) s
  else match s with
       | EmptyString => EmptyString
       | String c s => String c (replace pattern s)
       end.





(** ** The branch menu of [ChatBar] *)

(** A number used as a property key is an array index when it is an
    integer from 0 to 2^32 - 2.  An object enumerates its array-index keys
    first, in ascending numeric order, and its other keys after them, in
    insertion order. *)
Definition isArrayIndex (key : Z) : bool := (0 <=? key) && (key <? 4294967295).

(** One step of the [reduce] of [branchesByLevel]: the group of the
    branch's level is created if it is missing, and the branch is pushed
    onto it.  The accumulator is the list [Object.entries] gives. *)
Fixpoint pushByLevel (acc : list (Z * list Branch)) (branch : Branch)
    : list (Z * list Branch) :=
  match acc with
  | [] => [(level branch, [branch])]
  | (key, group) :: rest =>
      if key =? level branch then (key, group ++ [branch]) :: rest
      else if isArrayIndex (level branch)
              && (negb (isArrayIndex key) || (level branch <? key))
      then (level branch, [branch]) :: acc
      else (key, group) :: pushByLevel rest branch
  end.

Definition branchesByLevel (availableBranches : list Branch) : list (Z * list Branch) :=
  fold_left pushByLevel availableBranches [].

(** Strictly ascending keys. *)
Fixpoint ascending (keys : list Z) : Prop :=
  match keys with
  | [] => True
  | key :: keys => Forall (λ key', key < key') keys ∧ ascending keys
  end.

(** * Properties *)

(** ** Records *)

Section JsObjectFacts.
Context {V : Type}.
Implicit Types (o : JsObject V) (k : string) (v : V).

Lemma obj_get_Some o k v : obj_get o k = Some v → (k, v) ∈ o.
Proof.
  induction o as [|[k' v'] o IH]; simpl; [done|].
  destruct (String.eqb k' k) eqn:E.
  - apply String.eqb_eq in E. intros [= ->]. subst. left.
  - intros H. right. auto.
Qed.

Lemma obj_get_is_Some o k : is_Some (obj_get o k) ↔ k ∈ Object_keys o.
Proof.
  unfold Object_keys. induction o as [|[k' v'] o IH]; simpl.
  - split; [by intros [? ?]|]. intros H. by apply elem_of_nil in H.
  - destruct (String.eqb k' k) eqn:E.
    + apply String.eqb_eq in E. subst. split; [left|eauto].
    + apply String.eqb_neq in E. rewrite IH, elem_of_cons.
      split; [by right|]. intros [?|?]; [congruence|done].
Qed.

Lemma obj_get_None o k : obj_get o k = None ↔ k ∉ Object_keys o.
Proof. rewrite <- obj_get_is_Some, eq_None_not_Some. done. Qed.

Lemma obj_get_lookup o k v j :
  NoDup (Object_keys o) → o !! j = Some (k, v) → obj_get o k = Some v.
Proof.
  unfold Object_keys. revert j. induction o as [|[k' v'] o IH]; intros j Hnd Hj.
  - done.
  - simpl in *. apply NoDup_cons in Hnd as [Hk' Hnd]. destruct j as [|j]; simpl in Hj.
    + injection Hj as -> ->. by rewrite String.eqb_refl.
    + destruct (String.eqb k' k) eqn:E; [|eauto].
      apply String.eqb_eq in E. subst k'. exfalso. apply Hk'.
      apply list_elem_of_fmap. exists (k, v). split; [done|].
      by eapply list_elem_of_lookup_2.
Qed.

(** *** Assignment in place or at the end *)

Lemma obj_get_put_eq o k v : obj_get (obj_put o k v) k = Some v.
Proof.
  induction o as [|[k' v'] o IH]; simpl.
  - by rewrite String.eqb_refl.
  - destruct (String.eqb k' k) eqn:E; simpl; rewrite E; done.
Qed.

Lemma obj_get_put_ne o k k' v : k ≠ k' → obj_get (obj_put o k v) k' = obj_get o k'.
Proof.
  intros Hne. induction o as [|[k0 v0] o IH]; simpl.
  - destruct (String.eqb k k') eqn:E; [|done].
    apply String.eqb_eq in E. done.
  - destruct (String.eqb k0 k) eqn:E; simpl; [|by rewrite IH].
    apply String.eqb_eq in E. subst k0.
    destruct (String.eqb k k') eqn:E'; [|done].
    apply String.eqb_eq in E'. done.
Qed.

Lemma obj_put_fresh o k v : k ∉ Object_keys o → obj_put o k v = o ++ [(k, v)].
Proof.
  unfold Object_keys. induction o as [|[k' v'] o IH]; simpl; [done|].
  intros Hk. apply not_elem_of_cons in Hk as [Hne Hk].
  destruct (String.eqb k' k) eqn:E.
  - apply String.eqb_eq in E. congruence.
  - by rewrite IH.
Qed.

Lemma obj_put_insert o k v v0 j :
  NoDup (Object_keys o) → o !! j = Some (k, v0) → obj_put o k v = <[j := (k, v)]> o.
Proof.
  unfold Object_keys. revert j. induction o as [|[k' v'] o IH]; intros j Hnd Hj.
  - done.
  - simpl in *. apply NoDup_cons in Hnd as [Hk' Hnd]. destruct j as [|j]; simpl in Hj.
    + injection Hj as -> ->. by rewrite String.eqb_refl.
    + destruct (String.eqb k' k) eqn:E.
      * apply String.eqb_eq in E. subst k'. exfalso. apply Hk'.
        apply list_elem_of_fmap. exists (k, v0). split; [done|].
        by eapply list_elem_of_lookup_2.
      * simpl. f_equal. eauto.
Qed.

Lemma obj_put_keys o k v :
  Object_keys (obj_put o k v) =
  if decide (k ∈ Object_keys o) then Object_keys o else Object_keys o ++ [k].
Proof.
  unfold Object_keys. induction o as [|[k' v'] o IH].
  - destruct (decide (k ∈ ([] : JsObject V).*1)) as [H|H]; [|done].
    by apply elem_of_nil in H.
  - cbn [obj_put]. destruct (String.eqb k' k) eqn:E.
    + apply String.eqb_eq in E. subst.
      destruct (decide (k ∈ ((k, v') :: o).*1)) as [H|H]; [done|].
      exfalso. apply H. left.
    + apply String.eqb_neq in E. rewrite !fmap_cons, IH. cbn [fst].
      destruct (decide (k ∈ o.*1)) as [H|H];
        destruct (decide (k ∈ k' :: o.*1)) as [H'|H']; try done.
      * exfalso. apply H'. by right.
      * apply elem_of_cons in H' as [?|?]; congruence.
Qed.

Lemma obj_put_head o k0 v0 k v :
  k ≠ k0 → obj_put ((k0, v0) :: o) k v = (k0, v0) :: obj_put o k v.
Proof.
  intros Hne. simpl. destruct (String.eqb k0 k) eqn:E; [|done].
  apply String.eqb_eq in E. congruence.
Qed.

(** *** A new property *)

Lemma obj_get_insert_eq o k v : obj_get o k = None → obj_get (obj_insert o k v) k = Some v.
Proof.
  induction o as [|[k' v'] o IH]; simpl.
  - by rewrite String.eqb_refl.
  - destruct (String.eqb k' k) eqn:E; [done|]. intros Hk.
    destruct (enumeratedBefore k' k); simpl.
    + rewrite E. auto.
    + by rewrite String.eqb_refl.
Qed.

Lemma obj_get_insert_ne o k k' v : k ≠ k' → obj_get (obj_insert o k v) k' = obj_get o k'.
Proof.
  intros Hne. apply String.eqb_neq in Hne.
  induction o as [|[k0 v0] o IH]; simpl.
  - by rewrite Hne.
  - destruct (enumeratedBefore k0 k); simpl.
    + by rewrite IH.
    + by rewrite Hne.
Qed.

Lemma obj_insert_keys o k v : Object_keys (obj_insert o k v) ≡ₚ k :: Object_keys o.
Proof.
  unfold Object_keys. induction o as [|[k' v'] o IH]; simpl; [done|].
  destruct (enumeratedBefore k' k); simpl; [|done].
  rewrite IH. apply perm_swap.
Qed.

Lemma obj_insert_last o k v :
  forallb (λ k', enumeratedBefore k' k) (Object_keys o) = true →
  obj_insert o k v = o ++ [(k, v)].
Proof.
  unfold Object_keys. induction o as [|[k' v'] o IH]; simpl; [done|].
  intros H. apply andb_true_iff in H as [-> H]. by rewrite IH.
Qed.

(** *** Assignment *)

Lemma obj_set_named o k v : arrayIndex k = None → obj_set o k v = obj_put o k v.
Proof. unfold obj_set. by intros ->. Qed.

Lemma obj_set_present o k v : is_Some (obj_get o k) → obj_set o k v = obj_put o k v.
Proof. unfold obj_set. intros [v0 ->]. by destruct (arrayIndex k). Qed.

Lemma obj_set_cases o k v :
  obj_set o k v = obj_put o k v ∨
  (obj_get o k = None ∧ obj_set o k v = obj_insert o k v).
Proof.
  unfold obj_set. destruct (arrayIndex k); [|by left].
  destruct (obj_get o k); [by left|by right].
Qed.

Lemma obj_set_nil k v : obj_set ([] : JsObject V) k v = [(k, v)].
Proof. unfold obj_set. simpl. by destruct (arrayIndex k). Qed.

Lemma obj_get_set_eq o k v : obj_get (obj_set o k v) k = Some v.
Proof.
  destruct (obj_set_cases o k v) as [->|[Hk ->]];
    [apply obj_get_put_eq|by apply obj_get_insert_eq].
Qed.

Lemma obj_get_set_ne o k k' v : k ≠ k' → obj_get (obj_set o k v) k' = obj_get o k'.
Proof.
  intros Hne. destruct (obj_set_cases o k v) as [->|[Hk ->]];
    [by apply obj_get_put_ne|by apply obj_get_insert_ne].
Qed.

(** A key that is not an array index and is not there yet goes last. *)
Lemma obj_set_fresh o k v :
  arrayIndex k = None → k ∉ Object_keys o → obj_set o k v = o ++ [(k, v)].
Proof. intros Hk Hfresh. rewrite obj_set_named by done. by apply obj_put_fresh. Qed.

(** So does any new key that every key already there is enumerated
    before. *)
Lemma obj_set_last o k v :
  k ∉ Object_keys o →
  forallb (λ k', enumeratedBefore k' k) (Object_keys o) = true →
  obj_set o k v = o ++ [(k, v)].
Proof.
  intros Hfresh Hbefore. destruct (obj_set_cases o k v) as [->|[_ ->]].
  - by apply obj_put_fresh.
  - by apply obj_insert_last.
Qed.

(** Assigning to a key that is present writes in place. *)
Lemma obj_set_insert o k v v0 j :
  NoDup (Object_keys o) → o !! j = Some (k, v0) → obj_set o k v = <[j := (k, v)]> o.
Proof.
  intros Hnd Hj. rewrite obj_set_present.
  - by eapply obj_put_insert.
  - erewrite obj_get_lookup; [by eexists|done|done].
Qed.

Lemma obj_set_keys_present o k v :
  k ∈ Object_keys o → Object_keys (obj_set o k v) = Object_keys o.
Proof.
  intros Hk. rewrite obj_set_present by (by apply obj_get_is_Some).
  by rewrite obj_put_keys, decide_True.
Qed.


Lemma obj_set_keys_perm o k v :
  Object_keys (obj_set o k v) ≡ₚ
  if decide (k ∈ Object_keys o) then Object_keys o else k :: Object_keys o.
Proof.
  destruct (obj_set_cases o k v) as [->|[Hk ->]].
  - rewrite obj_put_keys. case_decide; [done|]. by rewrite Permutation_app_comm.
  - apply obj_get_None in Hk. rewrite decide_False by done. apply obj_insert_keys.
Qed.

Lemma obj_set_keys_elem o k v k' :
  k' ∈ Object_keys (obj_set o k v) ↔ k' = k ∨ k' ∈ Object_keys o.
Proof.
  rewrite obj_set_keys_perm. case_decide as Hk.
  - split; [by right|]. intros [->|?]; done.
  - apply elem_of_cons.
Qed.

Lemma obj_set_NoDup o k v : NoDup (Object_keys o) → NoDup (Object_keys (obj_set o k v)).
Proof.
  intros Hnd. rewrite obj_set_keys_perm. case_decide; [done|]. by apply NoDup_cons.
Qed.

Lemma obj_set_keys_mono o k v k' :
  k' ∈ Object_keys o → k' ∈ Object_keys (obj_set o k v).
Proof. intros H. apply obj_set_keys_elem. by right. Qed.

(** The first property of an object stays first and keeps its value
    under assignments to other keys that are not array indices. *)
Lemma obj_set_head o k0 v0 k v :
  arrayIndex k = None → k ≠ k0 →
  obj_set ((k0, v0) :: o) k v = (k0, v0) :: obj_set o k v.
Proof. intros Hk Hne. rewrite !obj_set_named by done. by apply obj_put_head. Qed.
End JsObjectFacts.

(** *** The enumeration order *)

Lemma enumeratedBefore_named (k' k : string) :
  arrayIndex k = None → enumeratedBefore k' k = true.
Proof. unfold enumeratedBefore. intros ->. by destruct (arrayIndex k'). Qed.

Lemma enumeratedBefore_total (k' k : string) :
  enumeratedBefore k' k = false → enumeratedBefore k k' = true.
Proof.
  unfold enumeratedBefore. destruct (arrayIndex k') as [n'|], (arrayIndex k) as [n|];
    try done. intros H. apply N.leb_gt in H. apply N.leb_le. lia.
Qed.

Lemma enumeratedBefore_trans (k1 k2 k3 : string) :
  enumeratedBefore k1 k2 = true → enumeratedBefore k2 k3 = true →
  enumeratedBefore k1 k3 = true.
Proof.
  unfold enumeratedBefore.
  destruct (arrayIndex k1) as [n1|], (arrayIndex k2) as [n2|], (arrayIndex k3) as [n3|];
    try done. intros H1%N.leb_le H2%N.leb_le. apply N.leb_le. lia.
Qed.

Lemma jsOrdered_named (keys : list string) :
  Forall (λ k, arrayIndex k = None) keys → jsOrdered keys = true.
Proof.
  induction 1 as [|k keys Hk Hkeys IH]; [done|]. simpl. rewrite IH, andb_true_r.
  apply forallb_forall. intros k' Hk'. apply enumeratedBefore_named.
  rewrite Forall_forall in Hkeys. by apply Hkeys, list_elem_of_In.
Qed.

Lemma jsOrdered_snoc (keys : list string) (k : string) :
  jsOrdered keys = true → forallb (λ k', enumeratedBefore k' k) keys = true →
  jsOrdered (keys ++ [k]) = true.
Proof.
  induction keys as [|k0 keys IH]; [done|]. simpl.
  intros [H0 Hord]%andb_true_iff [Hk0 Hk]%andb_true_iff.
  rewrite IH by done. rewrite andb_true_r, forallb_app, H0. simpl. by rewrite Hk0.
Qed.

Lemma jsOrdered_last (keys : list string) (k : string) :
  jsOrdered (keys ++ [k]) = true → forallb (λ k', enumeratedBefore k' k) keys = true.
Proof.
  induction keys as [|k0 keys IH]; [done|]. simpl.
  intros [H0 Hord]%andb_true_iff. rewrite forallb_app in H0.
  apply andb_true_iff in H0 as [_ H0]. simpl in H0. rewrite andb_true_r in H0.
  by rewrite H0, IH.
Qed.

Lemma jsOrdered_app_l (keys1 keys2 : list string) :
  jsOrdered (keys1 ++ keys2) = true → jsOrdered keys1 = true.
Proof.
  induction keys1 as [|k0 keys IH]; [done|]. simpl.
  intros [H0 Hord]%andb_true_iff. rewrite forallb_app in H0.
  apply andb_true_iff in H0 as [H0 _]. by rewrite H0, IH.
Qed.

Lemma obj_insert_jsOrdered {V} (o : JsObject V) (k : string) (v : V) :
  jsOrdered (Object_keys o) = true → jsOrdered (Object_keys (obj_insert o k v)) = true.
Proof.
  induction o as [|[k' v'] o IH]; [done|].
  change (Object_keys ((k', v') :: o)) with (k' :: Object_keys o).
  cbn [jsOrdered obj_insert]. intros [H0 Hord]%andb_true_iff.
  destruct (enumeratedBefore k' k) eqn:E.
  - change (Object_keys ((k', v') :: obj_insert o k v))
      with (k' :: Object_keys (obj_insert o k v)).
    cbn [jsOrdered]. rewrite IH by done. rewrite andb_true_r.
    apply forallb_forall. intros x Hx. apply list_elem_of_In in Hx.
    rewrite obj_insert_keys in Hx. apply elem_of_cons in Hx as [->|Hx]; [done|].
    rewrite forallb_forall in H0. by apply H0, list_elem_of_In.
  - change (Object_keys ((k, v) :: (k', v') :: o)) with (k :: k' :: Object_keys o).
    apply enumeratedBefore_total in E. cbn [jsOrdered forallb].
    rewrite E, H0, Hord. simpl. rewrite andb_true_r.
    apply forallb_forall. intros x Hx.
    rewrite forallb_forall in H0. eapply enumeratedBefore_trans; [exact E|by apply H0].
Qed.

Lemma obj_set_jsOrdered {V} (o : JsObject V) (k : string) (v : V) :
  jsOrdered (Object_keys o) = true → jsOrdered (Object_keys (obj_set o k v)) = true.
Proof.
  intros Hord. unfold obj_set.
  destruct (arrayIndex k) as [n|] eqn:Ek.
  - destruct (obj_get o k) as [v0|] eqn:Eo; [|by apply obj_insert_jsOrdered].
    rewrite obj_put_keys, decide_True; [done|]. apply obj_get_is_Some. by eexists.
  - rewrite obj_put_keys. case_decide; [done|]. apply jsOrdered_snoc; [done|].
    apply forallb_forall. intros k' _. by apply enumeratedBefore_named.
Qed.

(** ** The children index *)

Lemma buildChildrenMap_from (bs : list Branch) (cm : gmap string (list string)) (p : string) :
  default [] (fold_left addChild bs cm !! p) = default [] (cm !! p) ++ childrenOf bs p.
Proof.
  unfold childrenOf. revert cm. induction bs as [|b bs IH]; intros cm; simpl.
  - by rewrite app_nil_r.
  - rewrite IH. unfold addChild. rewrite filter_cons.
    destruct (truthy (parentBranchId b)) as [q|] eqn:Eq.
    + destruct (decide (q = p)) as [->|Hne].
      * rewrite lookup_insert_eq. rewrite decide_True by done. simpl.
        by rewrite <- app_assoc.
      * rewrite lookup_insert_ne by done. rewrite decide_False by congruence. done.
    + rewrite decide_False by congruence. done.
Qed.

Lemma buildChildrenMap_lookup (bs : list Branch) (p : string) :
  default [] (buildChildrenMap bs !! p) = childrenOf bs p.
Proof. unfold buildChildrenMap. by rewrite buildChildrenMap_from, lookup_empty. Qed.

Lemma isChild_spec (bs : list Branch) (p c : string) :
  isChild bs p c ↔ ∃ b, b ∈ bs ∧ branch_id b = c ∧ truthy (parentBranchId b) = Some p.
Proof.
  unfold isChild, childrenOf. rewrite list_elem_of_fmap. split.
  - intros (b & -> & Hb). apply list_elem_of_filter in Hb as [? ?]. eauto.
  - intros (b & Hb & <- & Hp). exists b. split; [done|].
    apply list_elem_of_filter. done.
Qed.

Lemma find_isRoot_Some (bs : list Branch) (rootBranch : Branch) :
  find isRoot bs = Some rootBranch → rootBranch ∈ bs ∧ isRoot rootBranch = true.
Proof.
  induction bs as [|b bs IH]; simpl; [done|].
  destruct (isRoot b) eqn:E.
  - intros [= ->]. split; [left|done].
  - intros H. destruct (IH H). split; [by right|done].
Qed.

Lemma find_isRoot_None (bs : list Branch) :
  find isRoot bs = None ↔ ∀ b, b ∈ bs → isRoot b = false.
Proof.
  induction bs as [|b bs IH]; simpl.
  - split; [|done]. intros _ b Hb. by apply elem_of_nil in Hb.
  - destruct (isRoot b) eqn:E.
    + split; [done|]. intros H. specialize (H b). rewrite E in H.
      discriminate H. left.
    + rewrite IH. split.
      * intros H b' Hb'. apply elem_of_cons in Hb' as [->|?]; auto.
      * intros H b' Hb'. apply H. by right.
Qed.

(** ** The branch tree under distinct ids *)

Section Tree.
Variable bs : list Branch.
Hypothesis ids_distinct : NoDup (branch_id <$> bs).

Lemma branch_of_id (b1 b2 : Branch) :
  b1 ∈ bs → b2 ∈ bs → branch_id b1 = branch_id b2 → b1 = b2.
Proof.
  intros H1 H2 Heq.
  apply list_elem_of_lookup in H1 as [i Hi]. apply list_elem_of_lookup in H2 as [j Hj].
  assert (i = j) as ->.
  { eapply NoDup_lookup; [exact ids_distinct| |].
    - rewrite list_lookup_fmap, Hi. done.
    - rewrite list_lookup_fmap, Hj. simpl. by rewrite Heq. }
  congruence.
Qed.

(** A branch has one parent. *)
Lemma isChild_parent_unique (p p' c : string) :
  isChild bs p c → isChild bs p' c → p = p'.
Proof.
  rewrite !isChild_spec. intros (b & Hb & Hid & Hp) (b' & Hb' & Hid' & Hp').
  assert (b = b') as -> by (apply branch_of_id; congruence). congruence.
Qed.

Lemma isChild_not_root (rootBranch : Branch) (p : string) :
  rootBranch ∈ bs → isRoot rootBranch = true → ¬ isChild bs p (branch_id rootBranch).
Proof.
  intros Hin Hroot. rewrite isChild_spec. intros (b & Hb & Hid & Hp).
  assert (b = rootBranch) as -> by (by apply branch_of_id).
  unfold isRoot in Hroot. by rewrite Hp in Hroot.
Qed.

Lemma isChild_id (p c : string) : isChild bs p c → c ∈ branch_id <$> bs.
Proof.
  rewrite isChild_spec. intros (b & Hb & <- & _). by apply list_elem_of_fmap_2.
Qed.

Variable rootBranch : Branch.
Hypothesis root_in : rootBranch ∈ bs.
Hypothesis root_isRoot : isRoot rootBranch = true.

Lemma depthOf_root_inv (u : string) (m : nat) :
  depthOf bs rootBranch u m → u = branch_id rootBranch → m = 0%nat.
Proof.
  destruct 1 as [|p c n Hp Hc]; [done|]. intros ->.
  exfalso. eapply isChild_not_root; [exact root_in|exact root_isRoot|exact Hc].
Qed.

Lemma depthOf_fun (u : string) (n m : nat) :
  depthOf bs rootBranch u n → depthOf bs rootBranch u m → n = m.
Proof.
  intros Hn. revert m. induction Hn as [|p c n Hp IH Hc]; intros m Hm.
  - symmetry. by eapply depthOf_root_inv.
  - destruct Hm as [|p' c' m' Hp' Hc'].
    + exfalso. eapply isChild_not_root; [exact root_in|exact root_isRoot|exact Hc].
    + f_equal. apply IH. by rewrite (isChild_parent_unique _ _ _ Hc Hc').
Qed.

Lemma depthOf_id (u : string) (n : nat) :
  depthOf bs rootBranch u n → u ∈ branch_id <$> bs.
Proof.
  destruct 1; [by apply list_elem_of_fmap_2|by eapply isChild_id].
Qed.

(** The ancestors of a branch at depth [n]: [n + 1] branches at the
    depths [n], ..., [0]. *)
Lemma depthOf_ancestors (u : string) (n : nat) :
  depthOf bs rootBranch u n →
  ∃ l : list string,
    length l = S n ∧ ∀ i v, l !! i = Some v → depthOf bs rootBranch v (n - i).
Proof.
  induction 1 as [|p c n Hp (l & Hlen & Hl) Hc].
  - exists [branch_id rootBranch]. split; [done|].
    intros [|i] v Hv; simpl in Hv; [|done]. injection Hv as <-. constructor.
  - exists (c :: l). split; [simpl; by rewrite Hlen|].
    intros [|i] v Hv; simpl in Hv.
    + injection Hv as <-. by econstructor.
    + by apply Hl.
Qed.

Lemma depthOf_bound (u : string) (n : nat) :
  depthOf bs rootBranch u n → (n < length bs)%nat.
Proof.
  intros Hd. destruct (depthOf_ancestors _ _ Hd) as (l & Hlen & Hl).
  assert (NoDup l) as Hnd.
  { apply NoDup_alt. intros i j v Hi Hj.
    pose proof (lookup_lt_Some _ _ _ Hi). pose proof (lookup_lt_Some _ _ _ Hj).
    pose proof (depthOf_fun _ _ _ (Hl _ _ Hi) (Hl _ _ Hj)). lia. }
  assert (l ⊆+ branch_id <$> bs) as Hsub.
  { apply NoDup_submseteq; [done|]. intros v Hv.
    apply list_elem_of_lookup in Hv as [i Hi]. eapply depthOf_id. eauto. }
  apply submseteq_length in Hsub. rewrite length_fmap in Hsub. lia.
Qed.

Lemma descendsFrom_depthOf (u : string) :
  descendsFrom bs (branch_id rootBranch) u ↔ ∃ n, depthOf bs rootBranch u n.
Proof.
  unfold descendsFrom. split.
  - revert u. apply rtc_ind_r.
    + exists 0%nat. constructor.
    + intros v w Hv Hw [n Hn]. exists (S n). by econstructor.
  - intros [n Hn]. induction Hn; [done|]. by eapply rtc_r.
Qed.
End Tree.

(** ** The positioning walk *)

Lemma forEach_inv (I : JsObject Point → Prop)
    (body : string → nat → JsObject Point → option (JsObject Point))
    (children : list string) (index : nat) (positions positions' : JsObject Point) :
  (∀ c i ps ps', c ∈ children → I ps → body c i ps = Some ps' → I ps') →
  I positions → forEach body children index positions = Some positions' → I positions'.
Proof.
  revert index positions. induction children as [|c cs IH]; intros index ps Hbody HI; simpl.
  - by intros [= <-].
  - destruct (body c index ps) as [ps1|] eqn:E; [|done].
    apply IH.
    + intros c' i ps0 ps0' Hc'. apply Hbody. by right.
    + eapply Hbody; [left|exact HI|exact E].
Qed.

Lemma forEach_is_Some
    (body : string → nat → JsObject Point → option (JsObject Point))
    (children : list string) (index : nat) (positions : JsObject Point) :
  (∀ c i ps, c ∈ children → is_Some (body c i ps)) →
  is_Some (forEach body children index positions).
Proof.
  revert index positions. induction children as [|c cs IH]; intros index ps Hbody; simpl.
  - done.
  - destruct (Hbody c index ps) as [ps1 ->]; [left|].
    apply IH. intros c' i ps0 Hc'. apply Hbody. by right.
Qed.

Lemma forEach_post (Post : string → JsObject Point → Prop)
    (body : string → nat → JsObject Point → option (JsObject Point))
    (children : list string) (index : nat) (positions positions' : JsObject Point) :
  (∀ c i ps ps', c ∈ children → body c i ps = Some ps' → Post c ps') →
  (∀ c c' i ps ps', Post c ps → body c' i ps = Some ps' → Post c ps') →
  forEach body children index positions = Some positions' →
  ∀ c, c ∈ children → Post c positions'.
Proof.
  intros Hestablish Hstable.
  revert index positions. induction children as [|c cs IH]; intros index ps; simpl.
  - intros _ c Hc. by apply elem_of_nil in Hc.
  - destruct (body c index ps) as [ps1|] eqn:E; [|done].
    intros Hrest c' Hc'. apply elem_of_cons in Hc' as [->|Hc'].
    + eapply (forEach_inv (Post c)); [|..|exact Hrest].
      * intros c' i ps0 ps0' _. apply Hstable.
      * eapply Hestablish; [left|exact E].
    + eapply IH; [|exact Hrest|exact Hc'].
      intros c0 i ps0 ps0' Hc0. apply Hestablish. by right.
Qed.

Lemma positionBranch_S (fuel : nat) (childrenMap : gmap string (list string))
    (branchId : string) (positions : JsObject Point) :
  positionBranch (S fuel) childrenMap branchId positions =
  let children := default [] (childrenMap !! branchId) in
  if Nat.eqb (length children) 0%nat then Some positions else
  match obj_get positions branchId with
  | None => Some positions
  | Some parentPos =>
      let totalChildren := Z.of_nat (length children) in
      let totalHeight := Z.max (totalChildren * VERTICAL_SPACING) BLOCK_HEIGHT in
      let startY := y parentPos - totalHeight / 2 + VERTICAL_SPACING / 2 in
      let existingRightBranches := countWhere (fun pos => x parentPos <? x pos) positions in
      let existingLeftBranches := countWhere (fun pos => x pos <? x parentPos) positions in
      forEach
        (fun childId index positions =>
           positionBranch fuel childrenMap childId
             (obj_set positions childId
                (childPosition parentPos startY
                   existingRightBranches existingLeftBranches index)))
        children 0%nat positions
  end.
Proof. reflexivity. Qed.

Section Positioning.
Variable bs : list Branch.

(** Every assignment the walk makes is to a child of a branch that is
    already positioned; an invariant kept by such assignments is kept by
    the walk. *)
Lemma positionBranch_inv (fuel : nat) :
  ∀ (I : JsObject Point → Prop),
    (∀ ps p c pt, I ps → isChild bs p c → p ∈ Object_keys ps → I (obj_set ps c pt)) →
    ∀ v ps ps', I ps → positionBranch fuel (buildChildrenMap bs) v ps = Some ps' → I ps'.
Proof.
  induction fuel as [|fuel IH]; intros I Hstep v ps ps' HI; [done|].
  rewrite positionBranch_S. cbv zeta. rewrite buildChildrenMap_lookup.
  destruct (Nat.eqb _ _); [by intros [= <-]|].
  destruct (obj_get ps v) as [parentPos|] eqn:Ev; [|by intros [= <-]].
  intros Hfe.
  assert (I ps' ∧ v ∈ Object_keys ps') as [? _]; [|done].
  eapply (forEach_inv (λ ps0, I ps0 ∧ v ∈ Object_keys ps0)); [| |exact Hfe].
  - intros c i ps0 ps0' Hc [HI0 Hv0]. apply (IH (λ ps0, I ps0 ∧ v ∈ Object_keys ps0)).
    + intros ps1 p c1 pt [HI1 Hv1] Hc1 Hp. split; [by eapply Hstep|].
      by apply obj_set_keys_mono.
    + split; [by eapply Hstep|]. by apply obj_set_keys_mono.
  - split; [done|]. apply obj_get_is_Some. by rewrite Ev.
Qed.

Lemma positionBranch_keys_mono (fuel : nat) (v : string) (ps ps' : JsObject Point) (k : string) :
  positionBranch fuel (buildChildrenMap bs) v ps = Some ps' →
  k ∈ Object_keys ps → k ∈ Object_keys ps'.
Proof.
  intros H Hk.
  eapply (positionBranch_inv fuel (λ ps0, k ∈ Object_keys ps0)); [|exact Hk|exact H].
  intros ps0 p c pt Hk0 _ _. by apply obj_set_keys_mono.
Qed.

Lemma positionBranch_NoDup (fuel : nat) (v : string) (ps ps' : JsObject Point) :
  positionBranch fuel (buildChildrenMap bs) v ps = Some ps' →
  NoDup (Object_keys ps) → NoDup (Object_keys ps').
Proof.
  intros H Hnd.
  eapply (positionBranch_inv fuel (λ ps0, NoDup (Object_keys ps0))); [|exact Hnd|exact H].
  intros ps0 p c pt Hnd0 _ _. by apply obj_set_NoDup.
Qed.

(** Once a branch is positioned, the walk from it positions everything
    below it. *)
Lemma positionBranch_complete (fuel : nat) :
  ∀ v ps ps',
    positionBranch fuel (buildChildrenMap bs) v ps = Some ps' →
    v ∈ Object_keys ps →
    ∀ u, descendsFrom bs v u → u ∈ Object_keys ps'.
Proof.
  induction fuel as [|fuel IH]; intros v ps ps'; [done|].
  rewrite positionBranch_S. cbv zeta. rewrite buildChildrenMap_lookup.
  intros Hrun Hv u Hu.
  apply rtc_inv in Hu as [<-|(c & Hc & Hcu)].
  { eapply positionBranch_keys_mono; [|exact Hv].
    rewrite positionBranch_S. cbv zeta. rewrite buildChildrenMap_lookup. exact Hrun. }
  unfold isChild in Hc.
  destruct (Nat.eqb (length (childrenOf bs v)) 0) eqn:El.
  { apply Nat.eqb_eq in El. apply nil_length_inv in El. rewrite El in Hc.
    by apply elem_of_nil in Hc. }
  destruct (obj_get ps v) as [parentPos|] eqn:Ev.
  2:{ apply obj_get_None in Ev. done. }
  revert u Hcu.
  eapply (forEach_post (λ c ps0, ∀ u, rtc (isChild bs) c u → u ∈ Object_keys ps0));
    [| |exact Hrun|exact Hc].
  - intros c0 i ps0 ps0' _ Hbody u Hu. eapply IH; [exact Hbody| |exact Hu].
    apply obj_get_is_Some. rewrite obj_get_set_eq. done.
  - intros c0 c' i ps0 ps0' Hpost Hbody u Hu.
    eapply positionBranch_keys_mono; [exact Hbody|].
    apply obj_set_keys_mono. by apply Hpost.
Qed.

Hypothesis ids_distinct : NoDup (branch_id <$> bs).
Variable rootBranch : Branch.
Hypothesis root_in : rootBranch ∈ bs.
Hypothesis root_isRoot : isRoot rootBranch = true.

(** The walk comes back: a call at depth [d] needs at most
    [length bs - d] levels of recursion. *)
Lemma positionBranch_total (fuel : nat) :
  ∀ v d ps,
    depthOf bs rootBranch v d → (length bs ≤ fuel + d)%nat →
    is_Some (positionBranch fuel (buildChildrenMap bs) v ps).
Proof.
  induction fuel as [|fuel IH]; intros v d ps Hd Hfuel.
  - pose proof (depthOf_bound bs ids_distinct rootBranch root_in root_isRoot _ _ Hd). lia.
  - rewrite positionBranch_S. cbv zeta. rewrite buildChildrenMap_lookup.
    destruct (Nat.eqb _ _); [done|].
    destruct (obj_get ps v) as [parentPos|]; [|done].
    apply forEach_is_Some. intros c i ps0 Hc.
    apply (IH c (S d)); [|lia]. by econstructor.
Qed.

(** Only branches below the root are ever positioned. *)
Lemma positionBranch_sound (fuel : nat) (v : string) (ps ps' : JsObject Point) :
  positionBranch fuel (buildChildrenMap bs) v ps = Some ps' →
  (∀ k, k ∈ Object_keys ps → descendsFrom bs (branch_id rootBranch) k) →
  ∀ k, k ∈ Object_keys ps' → descendsFrom bs (branch_id rootBranch) k.
Proof.
  intros H Hps.
  eapply (positionBranch_inv fuel
            (λ ps0, ∀ k, k ∈ Object_keys ps0 → descendsFrom bs (branch_id rootBranch) k));
    [|exact Hps|exact H].
  intros ps0 p c pt Hps0 Hc Hp k Hk.
  apply obj_set_keys_elem in Hk as [->|Hk]; [|by auto].
  eapply rtc_r; [|exact Hc]. by apply Hps0.
Qed.

Hypothesis ids_named : Forall (λ b, arrayIndex (branch_id b) = None) bs.

Lemma isChild_named (p c : string) : isChild bs p c → arrayIndex c = None.
Proof.
  intros Hc. apply isChild_spec in Hc as (b & Hb & <- & _).
  rewrite Forall_forall in ids_named. by apply ids_named.
Qed.

(** When no branch id is an array index, the root stays the first
    property of [positions], with its value. *)
Lemma positionBranch_head (fuel : nat) (v : string) (pt : Point) (ps ps' : JsObject Point) :
  positionBranch fuel (buildChildrenMap bs) v ((branch_id rootBranch, pt) :: ps) = Some ps' →
  ∃ rest, ps' = (branch_id rootBranch, pt) :: rest.
Proof.
  intros H.
  eapply (positionBranch_inv fuel (λ ps0, ∃ rest, ps0 = (branch_id rootBranch, pt) :: rest));
    [|by eexists|exact H].
  intros ps0 p c pt' [rest ->] Hc _. eexists. apply obj_set_head.
  - by eapply isChild_named.
  - intros ->. by eapply isChild_not_root.
Qed.
End Positioning.

(** ** The overlap-resolution pass *)

Lemma resolvedAt_snoc (earlier : list Point) (pos1 pos2 : Point) :
  resolvedAt (earlier ++ [pos1]) pos2 =
  if overlapping pos1 pos2 then moved pos1 pos2 else resolvedAt earlier pos2.
Proof. unfold resolvedAt. by rewrite fold_left_app. Qed.

Lemma moved_x (pos1 pos2 : Point) : x (moved pos1 pos2) = x pos2.
Proof. unfold moved. by destruct (y pos1 <=? y pos2). Qed.

Lemma resolvedAt_x (earlier : list Point) (pos2 : Point) :
  x (resolvedAt earlier pos2) = x pos2.
Proof.
  induction earlier as [|pos1 earlier IH] using rev_ind; [done|].
  rewrite resolvedAt_snoc. destruct (overlapping pos1 pos2); [apply moved_x|done].
Qed.

Lemma resolvedAt_none (earlier : list Point) (pos2 : Point) :
  (∀ pos1, pos1 ∈ earlier → overlapping pos1 pos2 = false) →
  resolvedAt earlier pos2 = pos2.
Proof.
  induction earlier as [|pos1 earlier IH] using rev_ind; intros H; [done|].
  rewrite resolvedAt_snoc, H.
  - apply IH. intros p Hp. apply H, elem_of_app. by left.
  - apply elem_of_app. right. by apply list_elem_of_singleton.
Qed.

Lemma resolvedAt_last (before after : list Point) (pos1 pos2 : Point) :
  overlapping pos1 pos2 = true →
  (∀ p, p ∈ after → overlapping p pos2 = false) →
  resolvedAt (before ++ pos1 :: after) pos2 = moved pos1 pos2.
Proof.
  induction after as [|p after IH] using rev_ind; intros Hov Hafter.
  - by rewrite resolvedAt_snoc, Hov.
  - change (before ++ pos1 :: after ++ [p]) with (before ++ (pos1 :: after) ++ [p]).
    rewrite app_assoc, resolvedAt_snoc, Hafter.
    + apply IH; [done|]. intros p' Hp'. apply Hafter, elem_of_app. by left.
    + apply elem_of_app. right. by apply list_elem_of_singleton.
Qed.

Section ResolveOverlaps.
Variable positionArray : list (string * Point).
Hypothesis keys_distinct : NoDup (Object_keys positionArray).

Lemma resolvePair_spec (i j : nat) (resolved : JsObject Point) :
  resolved.*1 = positionArray.*1 →
  (resolvePair positionArray i j resolved).*1 = positionArray.*1 ∧
  ∀ j', resolvePair positionArray i j resolved !! j' =
        if decide (j' = j) then pairResult positionArray i j (resolved !! j) else resolved !! j'.
Proof.
  intros Hkeys. unfold resolvePair, pairResult.
  destruct (positionArray !! i) as [[id1 pos1]|] eqn:Ei;
    [destruct (positionArray !! j) as [[id2 pos2]|] eqn:Ej;
     [destruct (overlapping pos1 pos2) eqn:Eo|]|];
    try (split; [done|]; intros j'; case_decide; by subst).
  assert (∃ old, resolved !! j = Some (id2, old)) as [old Hold].
  { assert (resolved.*1 !! j = Some id2) as H.
    { rewrite Hkeys, list_lookup_fmap, Ej. done. }
    apply list_lookup_fmap_Some in H as ([k old] & Hk & Hold).
    simpl in Hk. subst k. by eexists. }
  rewrite (obj_set_insert _ _ _ old j); [|unfold Object_keys; by rewrite Hkeys|done].
  split.
  - rewrite list_fmap_insert. simpl. rewrite Hkeys. apply list_insert_id.
    rewrite list_lookup_fmap, Ej. done.
  - intros j'. case_decide as Hj.
    + subst j'. apply list_lookup_insert_eq. by eapply lookup_lt_Some.
    + by apply list_lookup_insert_ne.
Qed.

Lemma resolveRow_from (i len : nat) :
  ∀ (a : nat) (resolved : JsObject Point),
    resolved.*1 = positionArray.*1 →
    let resolved' :=
      fold_left (fun resolved j => resolvePair positionArray i j resolved)
        (seq a len) resolved in
    resolved'.*1 = positionArray.*1 ∧
    ∀ j', resolved' !! j' =
          if decide (a ≤ j' < a + len)%nat then pairResult positionArray i j' (resolved !! j')
          else resolved !! j'.
Proof.
  induction len as [|len IH]; intros a resolved Hkeys; simpl.
  - split; [done|]. intros j'. case_decide; [lia|done].
  - destruct (resolvePair_spec i a resolved Hkeys) as [Hkeys1 Hget1].
    destruct (IH (S a) _ Hkeys1) as [Hkeys2 Hget2]. split; [done|].
    intros j'. rewrite Hget2, !Hget1.
    repeat case_decide; try lia; by subst.
Qed.

Lemma resolveRows_spec (m : nat) :
  (m ≤ length positionArray)%nat →
  let resolved :=
    fold_left (fun resolved i => resolveRow positionArray i resolved)
      (seq 0 m) positionArray in
  resolved.*1 = positionArray.*1 ∧
  ∀ j, resolved !! j =
       (λ kp, (kp.1, resolvedAt (take (m `min` j) positionArray.*2) kp.2))
         <$> positionArray !! j.
Proof.
  induction m as [|m IH]; intros Hm.
  - simpl. split; [done|]. intros j. destruct (positionArray !! j) as [[k p]|]; done.
  - rewrite seq_S, fold_left_app, Nat.add_0_l. cbn [fold_left].
    destruct IH as [Hkeys Hget]; [lia|].
    destruct (resolveRow_from m (length positionArray - S m) (S m) _ Hkeys) as [Hkeys' Hget'].
    unfold resolveRow at 1 3. split; [done|].
    intros j. rewrite Hget', Hget. unfold pairResult.
    destruct (lookup_lt_is_Some_2 positionArray m) as [[id1 pos1] Ei]; [lia|].
    rewrite Ei.
    destruct (positionArray !! j) as [[id2 pos2]|] eqn:Ej; [|by case_decide].
    case_decide as Hj.
    + replace (S m `min` j)%nat with (S m) by lia.
      replace (m `min` j)%nat with m by lia.
      rewrite (take_S_r _ _ pos1); [|by rewrite list_lookup_fmap, Ei].
      cbn [fmap option_fmap option_map fst snd].
      rewrite resolvedAt_snoc. by destruct (overlapping pos1 pos2).
    + apply lookup_lt_Some in Ej.
      replace (S m `min` j)%nat with (m `min` j)%nat by lia. done.
Qed.

(** The pass, block by block. *)
Lemma resolveOverlaps_lookup (j : nat) :
  resolveOverlaps positionArray !! j =
  (λ kp, (kp.1, resolvedAt (take j positionArray.*2) kp.2)) <$> positionArray !! j.
Proof.
  unfold resolveOverlaps, Object_entries.
  destruct (resolveRows_spec (length positionArray)) as [_ Hget]; [done|].
  rewrite Hget. destruct (positionArray !! j) as [[k p]|] eqn:Ej; [|done].
  apply lookup_lt_Some in Ej.
  replace (length positionArray `min` j)%nat with j by lia. done.
Qed.

Lemma resolveOverlaps_imap :
  resolveOverlaps positionArray =
  imap (λ j kp, (kp.1, resolvedAt (take j positionArray.*2) kp.2)) positionArray.
Proof.
  apply list_eq. intros j. by rewrite resolveOverlaps_lookup, list_lookup_imap.
Qed.

Lemma resolveOverlaps_keys :
  Object_keys (resolveOverlaps positionArray) = Object_keys positionArray.
Proof.
  unfold resolveOverlaps, Object_entries, Object_keys.
  by destruct (resolveRows_spec (length positionArray)) as [? _].
Qed.

Lemma resolveOverlaps_head (k : string) (pt : Point) (rest : list (string * Point)) :
  positionArray = (k, pt) :: rest →
  ∃ rest', resolveOverlaps positionArray = (k, pt) :: rest'.
Proof.
  intros Heq. pose proof (resolveOverlaps_lookup 0) as H0.
  destruct (resolveOverlaps positionArray) as [|kp rest'];
    rewrite Heq in H0; simpl in H0; [done|].
  injection H0 as ->. by eexists.
Qed.
End ResolveOverlaps.

(** ** The layout as a whole *)

Lemma wfBranches_keys (bs : JsObject Branch) :
  wfBranches bs → branch_id <$> Object_values bs = Object_keys bs.
Proof.
  intros (_ & Hid & _). unfold Object_keys, Object_values.
  induction Hid as [|[k b] l Hkb _ IH]; [done|]. simpl in *. by f_equal.
Qed.

Lemma wfBranches_ids (bs : JsObject Branch) :
  wfBranches bs → NoDup (branch_id <$> Object_values bs).
Proof. intros Hwf. rewrite wfBranches_keys by done. apply Hwf. Qed.

Lemma wfBranches_lookup (bs : JsObject Branch) (b : Branch) :
  wfBranches bs → b ∈ Object_values bs → obj_get bs (branch_id b) = Some b.
Proof.
  intros (Hnd & Hid & _) Hb. unfold Object_values in Hb.
  apply list_elem_of_fmap in Hb as ([k b'] & -> & Hin).
  apply list_elem_of_lookup in Hin as [j Hj].
  rewrite Forall_forall in Hid. pose proof (Hid (k, b')) as Hk.
  simpl in *. rewrite Hk; [|by eapply list_elem_of_lookup_2].
  by eapply obj_get_lookup.
Qed.

Section Layout.
Variable conversation : Conversation.
Let bs := Object_values (branches conversation).
Hypothesis ids_distinct : NoDup (branch_id <$> bs).
Variable rootBranch : Branch.
Hypothesis root_found : find isRoot bs = Some rootBranch.

Let root_facts := find_isRoot_Some _ _ root_found.

Lemma depthOf_of_descendant (d e : string) (n : nat) :
  descendsFrom bs d e → depthOf bs rootBranch e n → ∃ m, depthOf bs rootBranch d m.
Proof.
  destruct root_facts as [Hin Hroot].
  intros Hde. revert n. revert e Hde. apply (rtc_ind_r (λ e, ∀ n, _ → _)).
  - intros n Hn. by exists n.
  - intros v w Hdv Hvw IH n Hn. destruct Hn as [|p c n Hp Hc].
    + exfalso. by eapply (isChild_not_root bs ids_distinct rootBranch v).
    + rewrite <- (isChild_parent_unique bs ids_distinct _ _ _ Hvw Hc) in Hp.
      by eapply IH.
Qed.

(** The walk from the root as [calculateOptimalBranchPositions] starts
    it: it comes back, with exactly the branches below the root
    positioned. *)
Lemma layout_walk_keys :
  ∃ placed,
    positionBranch (length bs) (buildChildrenMap bs) (branch_id rootBranch)
      [(branch_id rootBranch, canvasCenter conversation)] = Some placed ∧
    NoDup (Object_keys placed) ∧
    ∀ u, u ∈ Object_keys placed ↔ descendsFrom bs (branch_id rootBranch) u.
Proof.
  destruct root_facts as [Hin Hroot].
  destruct (positionBranch_total bs ids_distinct rootBranch Hin Hroot (length bs)
              (branch_id rootBranch) 0 [(branch_id rootBranch, canvasCenter conversation)])
    as [ps Hps]; [constructor|lia|].
  exists ps. split; [done|]. split.
  - eapply positionBranch_NoDup; [exact Hps|]. apply NoDup_singleton.
  - intros u. split.
    + eapply positionBranch_sound; [exact Hps|].
      intros k Hk. apply list_elem_of_singleton in Hk as ->. apply rtc_refl.
    + eapply positionBranch_complete; [exact Hps|]. apply list_elem_of_singleton. done.
Qed.

(** The layout returns, with exactly the branches below the root
    positioned. *)
Lemma calculateOptimalBranchPositions_keys :
  ∃ positions,
    calculateOptimalBranchPositions conversation = Some positions ∧
    NoDup (Object_keys positions) ∧
    ∀ u, is_Some (obj_get positions u) ↔ descendsFrom bs (branch_id rootBranch) u.
Proof.
  destruct layout_walk_keys as (placed & Hwalk & Hnd & Hkeys).
  exists (resolveOverlaps placed). split; [|split].
  - unfold calculateOptimalBranchPositions. fold bs. rewrite root_found. cbv zeta.
    rewrite obj_set_nil. by rewrite Hwalk.
  - by rewrite resolveOverlaps_keys.
  - intros u. rewrite obj_get_is_Some, resolveOverlaps_keys by done. apply Hkeys.
Qed.

Hypothesis ids_named : Forall (λ b, arrayIndex (branch_id b) = None) bs.

(** When no branch id is an array index, the root is the first property
    of the positions the walk returns. *)
Lemma layout_walk :
  ∃ rest,
    positionBranch (length bs) (buildChildrenMap bs) (branch_id rootBranch)
      [(branch_id rootBranch, canvasCenter conversation)]
    = Some ((branch_id rootBranch, canvasCenter conversation) :: rest) ∧
    NoDup (Object_keys ((branch_id rootBranch, canvasCenter conversation) :: rest)) ∧
    ∀ u, u ∈ Object_keys ((branch_id rootBranch, canvasCenter conversation) :: rest)
         ↔ descendsFrom bs (branch_id rootBranch) u.
Proof.
  destruct root_facts as [Hin Hroot].
  destruct layout_walk_keys as (placed & Hwalk & Hnd & Hkeys).
  destruct (positionBranch_head bs ids_distinct rootBranch Hin Hroot ids_named
              _ _ _ _ _ Hwalk) as [rest ->].
  by exists rest.
Qed.

Lemma calculateOptimalBranchPositions_root :
  ∃ rest,
    positionBranch (length bs) (buildChildrenMap bs) (branch_id rootBranch)
      [(branch_id rootBranch, canvasCenter conversation)]
    = Some ((branch_id rootBranch, canvasCenter conversation) :: rest) ∧
    ∃ rest',
      calculateOptimalBranchPositions conversation
      = Some ((branch_id rootBranch, canvasCenter conversation) :: rest') ∧
      ∀ u, is_Some (obj_get ((branch_id rootBranch, canvasCenter conversation) :: rest') u)
           ↔ descendsFrom bs (branch_id rootBranch) u.
Proof.
  destruct layout_walk as (rest & Hwalk & Hnd & Hkeys).
  exists rest. split; [done|].
  destruct (resolveOverlaps_head _ Hnd _ _ _ eq_refl) as [rest' Hres].
  exists rest'. split.
  - unfold calculateOptimalBranchPositions. fold bs. rewrite root_found. cbv zeta.
    rewrite obj_set_nil, Hwalk. by rewrite Hres.
  - intros u. rewrite <- Hres, obj_get_is_Some, resolveOverlaps_keys by done. apply Hkeys.
Qed.

(** A parentless branch other than the first is below no root. *)
Lemma other_root_not_below (b : Branch) :
  b ∈ bs → isRoot b = true → b ≠ rootBranch →
  ¬ descendsFrom bs (branch_id rootBranch) (branch_id b).
Proof.
  destruct root_facts as [Hin Hroot].
  intros Hb Hbroot Hne Hdesc.
  apply (descendsFrom_depthOf bs rootBranch) in Hdesc as [n Hn].
  inversion Hn as [Heq|p c n' Hp Hc].
  - apply Hne. by apply (branch_of_id bs ids_distinct).
  - by eapply (isChild_not_root bs ids_distinct b).
Qed.

(** Nothing at or below a branch whose parent id names no branch is below
    the root. *)
Lemma dangling_not_below (d : Branch) (q e : string) :
  d ∈ bs → truthy (parentBranchId d) = Some q → q ∉ branch_id <$> bs →
  descendsFrom bs (branch_id d) e →
  ¬ descendsFrom bs (branch_id rootBranch) e.
Proof.
  destruct root_facts as [Hin Hroot].
  intros Hd Hq Hmissing Hde Hre.
  apply (descendsFrom_depthOf bs rootBranch) in Hre as [n Hn].
  destruct (depthOf_of_descendant _ _ _ Hde Hn) as [m Hm].
  assert (isChild bs q (branch_id d)) as Hqd.
  { apply isChild_spec. eauto. }
  inversion Hm as [Heq|p c m' Hp Hc].
  - eapply (isChild_not_root bs ids_distinct rootBranch q); [done..|].
    by rewrite Heq.
  - subst. rewrite <- (isChild_parent_unique bs ids_distinct _ _ _ Hqd Hc) in Hp.
    apply Hmissing. eapply depthOf_id; [exact Hin|exact Hp].
Qed.
End Layout.

Lemma wfBranches_decide (bs : JsObject Branch) :
  bool_decide (NoDup (Object_keys bs)) = true →
  forallb (fun kb => bool_decide (branch_id kb.2 = kb.1)) bs = true →
  jsOrdered (Object_keys bs) = true →
  wfBranches bs.
Proof.
  intros Hnd Hid Hord. split; [by apply bool_decide_eq_true in Hnd|]. split; [|done].
  apply Forall_forall. intros kb Hkb.
  rewrite forallb_forall in Hid. apply list_elem_of_In, Hid in Hkb.
  by apply bool_decide_eq_true in Hkb.
Defined.

Lemma plainIds_named (bs : list Branch) :
  plainIds bs → Forall (λ b, arrayIndex (branch_id b) = None) bs.
Proof.
  unfold plainIds. intros H. apply Forall_forall. intros b Hb.
  rewrite forallb_forall in H. apply list_elem_of_In, H in Hb.
  unfold plainBranch in Hb. apply andb_true_iff in Hb as [Hb _].
  apply andb_true_iff in Hb as [Hb _]. by apply bool_decide_eq_true in Hb.
Qed.

(** ** Determinism of the layout *)

Lemma addChild_shape (cm : gmap string (list string)) (b1 b2 : Branch) :
  shape b1 = shape b2 → addChild cm b1 = addChild cm b2.
Proof. unfold shape, addChild. by intros [= -> ->]. Qed.

Lemma buildChildrenMap_shape (bs1 bs2 : list Branch) :
  shape <$> bs1 = shape <$> bs2 → buildChildrenMap bs1 = buildChildrenMap bs2.
Proof.
  unfold buildChildrenMap. generalize (∅ : gmap string (list string)).
  revert bs2. induction bs1 as [|b1 bs1 IH]; intros [|b2 bs2] cm H; try done.
  simpl in *. injection H as Hid Hp Hbs.
  rewrite (addChild_shape cm b1 b2) by (unfold shape; congruence). by apply IH.
Qed.

Lemma find_isRoot_shape (bs1 bs2 : list Branch) :
  shape <$> bs1 = shape <$> bs2 →
  branch_id <$> find isRoot bs1 = branch_id <$> find isRoot bs2.
Proof.
  revert bs2. induction bs1 as [|b1 bs1 IH]; intros [|b2 bs2] H; try done.
  simpl in *. injection H as Hid Hp Hbs. unfold isRoot at 1 3. rewrite Hp.
  destruct (truthy (parentBranchId b2)); [by apply IH|]. simpl. by rewrite Hid.
Qed.

(** C1, as amended: two branch mappings that enumerate the same ids with
    the same parent links in the same order, laid out around the same
    [canvasCenter], get identical positions, whatever their other fields
    hold. *)
Theorem layout_determined_by_enumerated_shape (c1 c2 : Conversation) :
  shape <$> Object_values (branches c1) = shape <$> Object_values (branches c2) →
  canvasCenter c1 = canvasCenter c2 →
  calculateOptimalBranchPositions c1 = calculateOptimalBranchPositions c2.
Proof.
  intros Hshape Hcenter. unfold calculateOptimalBranchPositions.
  pose proof (find_isRoot_shape _ _ Hshape) as Hroot.
  pose proof (buildChildrenMap_shape _ _ Hshape) as Hcm.
  assert (length (Object_values (branches c1)) = length (Object_values (branches c2))) as Hlen.
  { by rewrite <- (length_fmap shape), Hshape, length_fmap. }
  rewrite Hcm, Hlen, Hcenter.
  destruct (find isRoot (Object_values (branches c1))) as [r1|],
           (find isRoot (Object_values (branches c2))) as [r2|]; try done.
  simpl in Hroot. injection Hroot as ->. done.
Qed.

Lemma layout_determined_by_enumerated_shape_witness :
  calculateOptimalBranchPositions siblingsAB =
  calculateOptimalBranchPositions
    (exampleConversation
       [("main", {| branch_id := "main"; name := "trunk"; parentBranchId := None;
                    parentMessageId := None; messages := []; summary := "s";
                    position := {| x := 3; y := 4 |}; level := 0 |});
        ("a", {| branch_id := "a"; name := "first"; parentBranchId := Some "main";
                 parentMessageId := Some "7"; messages := []; summary := "t";
                 position := {| x := 5; y := 6 |}; level := 1 |});
        ("b", {| branch_id := "b"; name := "second"; parentBranchId := Some "main";
                 parentMessageId := Some "8"; messages := []; summary := "u";
                 position := {| x := 7; y := 8 |}; level := 1 |})]).
Proof. apply layout_determined_by_enumerated_shape; reflexivity. Defined.

(** C1 as stated fails: the same tree enumerated in two orders puts branch
    a on opposite sides of the root. *)
Lemma layout_iteration_order_counterexample :
  branches siblingsAB ≡ₚ branches siblingsBA ∧
  canvasCenter siblingsAB = canvasCenter siblingsBA ∧
  (calculateOptimalBranchPositions siblingsAB ≫= λ ps, obj_get ps "a")
    = Some {| x := 1250; y := 285 |} ∧
  (calculateOptimalBranchPositions siblingsBA ≫= λ ps, obj_get ps "a")
    = Some {| x := 350; y := 435 |}.
Proof.
  split; [|by vm_compute]. unfold siblingsAB, siblingsBA, exampleConversation. simpl.
  apply perm_skip, perm_swap.
Qed.

(** ** Missing or repeated roots *)

Lemma rootCount_zero (conversation : Conversation) :
  rootCount conversation = 0%nat →
  find isRoot (Object_values (branches conversation)) = None.
Proof.
  unfold rootCount. intros H. apply nil_length_inv in H.
  apply find_isRoot_None. intros b Hb.
  destruct (isRoot b) eqn:E; [|done].
  assert (b ∈ filter (λ b, isRoot b = true) (Object_values (branches conversation))) as Hin.
  { by apply list_elem_of_filter. }
  rewrite H in Hin. by apply elem_of_nil in Hin.
Qed.

Lemma rootCount_pos (conversation : Conversation) :
  rootCount conversation ≠ 0%nat →
  ∃ rootBranch, find isRoot (Object_values (branches conversation)) = Some rootBranch.
Proof.
  unfold rootCount. intros H.
  destruct (find isRoot (Object_values (branches conversation))) as [r|] eqn:E; [by eexists|].
  exfalso. apply H. rewrite find_isRoot_None in E.
  destruct (filter _ _) as [|b l] eqn:Ef; [done|].
  assert (b ∈ filter (λ b, isRoot b = true) (Object_values (branches conversation))) as Hin.
  { rewrite Ef. left. }
  apply list_elem_of_filter in Hin as [Hb Hin]. rewrite (E b Hin) in Hb. done.
Qed.

(** C2, as amended: for plain ids (no branch id an array index, no id or
    parent id the name of an inherited member), when the number of
    parentless branches is not one the call still returns normally, never
    with a [NoRoot] failure.  With no parentless branch it returns the
    empty mapping.  With several, the first one in enumeration order is
    taken as the root and put at [canvasCenter], and the other parentless
    branches get no position. *)
Theorem layout_without_unique_root (conversation : Conversation) :
  wfBranches (branches conversation) →
  plainIds (Object_values (branches conversation)) →
  rootCount conversation ≠ 1%nat →
  ∃ positions,
    layout conversation = Some (Positions positions) ∧
    match find isRoot (Object_values (branches conversation)) with
    | None => positions = []
    | Some rootBranch =>
        obj_get positions (branch_id rootBranch) = Some (canvasCenter conversation) ∧
        ∀ b, b ∈ Object_values (branches conversation) → isRoot b = true →
             b ≠ rootBranch → obj_get positions (branch_id b) = None
    end.
Proof.
  intros Hwf Hplain _. unfold layout.
  destruct (find isRoot (Object_values (branches conversation))) as [r|] eqn:Er.
  - destruct (calculateOptimalBranchPositions_root conversation
                (wfBranches_ids _ Hwf) r Er (plainIds_named _ Hplain))
      as (rest & _ & rest' & -> & Hkeys).
    eexists. split; [done|]. split.
    + simpl. by rewrite String.eqb_refl.
    + intros b Hb Hroot Hne. apply eq_None_not_Some. rewrite Hkeys.
      by apply (other_root_not_below conversation (wfBranches_ids _ Hwf)).
  - exists []. split; [|done].
    unfold calculateOptimalBranchPositions. by rewrite Er.
Qed.

Lemma layout_without_unique_root_witness :
  ∃ positions,
    layout twoRootsConversation = Some (Positions positions) ∧
    obj_get positions "main" = Some {| x := 800; y := 400 |} ∧
    ∀ b, b ∈ Object_values (branches twoRootsConversation) → isRoot b = true →
         b ≠ (exampleBranch "main" None).2 → obj_get positions (branch_id b) = None.
Proof.
  apply (layout_without_unique_root twoRootsConversation).
  - apply wfBranches_decide; reflexivity.
  - reflexivity.
  - vm_compute. lia.
Defined.

(** C2 as stated fails: with no parentless branch the call returns the
    empty mapping, and with two it returns a layout of the first; neither
    call fails. *)
Lemma layout_no_root_counterexample :
  rootCount noRootConversation = 0%nat ∧
  layout noRootConversation = Some (Positions []) ∧
  layout noRootConversation ≠ Some (Failure NoRoot) ∧
  rootCount twoRootsConversation = 2%nat ∧
  layout twoRootsConversation = Some (Positions [("main", {| x := 800; y := 400 |})]) ∧
  layout twoRootsConversation ≠ Some (Failure NoRoot).
Proof. by vm_compute. Qed.

(** ** Root placement *)

(** C6, as amended: for plain ids (no branch id an array index, no id or
    parent id the name of an inherited member) and a unique parentless
    branch, the walk puts the root at [canvasCenter] and the overlap pass
    leaves it there: the full layout returns, and maps the root to
    [canvasCenter]. *)
Theorem root_position_is_canvasCenter (conversation : Conversation) (rootBranch : Branch) :
  wfBranches (branches conversation) →
  plainIds (Object_values (branches conversation)) →
  rootBranch ∈ Object_values (branches conversation) →
  isRoot rootBranch = true →
  (∀ b, b ∈ Object_values (branches conversation) → isRoot b = true → b = rootBranch) →
  ∃ placed positions,
    positionBranch (length (Object_values (branches conversation)))
      (buildChildrenMap (Object_values (branches conversation)))
      (branch_id rootBranch)
      (obj_set [] (branch_id rootBranch) (canvasCenter conversation)) = Some placed ∧
    obj_get placed (branch_id rootBranch) = Some (canvasCenter conversation) ∧
    positions = resolveOverlaps placed ∧
    calculateOptimalBranchPositions conversation = Some positions ∧
    obj_get positions (branch_id rootBranch) = Some (canvasCenter conversation).
Proof.
  intros Hwf Hplain Hin Hroot Hunique.
  assert (find isRoot (Object_values (branches conversation)) = Some rootBranch) as Hfind.
  { destruct (find isRoot (Object_values (branches conversation))) as [r|] eqn:Er.
    - apply find_isRoot_Some in Er as [Hr Hrr]. f_equal. by apply Hunique.
    - rewrite find_isRoot_None in Er. rewrite (Er _ Hin) in Hroot. done. }
  destruct (calculateOptimalBranchPositions_root conversation
              (wfBranches_ids _ Hwf) rootBranch Hfind (plainIds_named _ Hplain))
    as (rest & Hwalk & rest' & Hcalc & _).
  exists ((branch_id rootBranch, canvasCenter conversation) :: rest),
         ((branch_id rootBranch, canvasCenter conversation) :: rest').
  rewrite obj_set_nil.
  split; [exact Hwalk|]. split; [simpl; by rewrite String.eqb_refl|].
  split.
  - unfold calculateOptimalBranchPositions in Hcalc. rewrite Hfind in Hcalc.
    cbv zeta in Hcalc. rewrite obj_set_nil, Hwalk in Hcalc. by injection Hcalc.
  - split; [exact Hcalc|]. simpl. by rewrite String.eqb_refl.
Qed.

Lemma root_position_is_canvasCenter_witness :
  ∃ placed positions,
    positionBranch 6 (buildChildrenMap (Object_values (branches fiveChildren)))
      "main" (obj_set [] "main" {| x := 800; y := 400 |}) = Some placed ∧
    obj_get placed "main" = Some {| x := 800; y := 400 |} ∧
    positions = resolveOverlaps placed ∧
    calculateOptimalBranchPositions fiveChildren = Some positions ∧
    obj_get positions "main" = Some {| x := 800; y := 400 |}.
Proof.
  apply (root_position_is_canvasCenter fiveChildren (exampleBranch "main" None).2).
  - apply wfBranches_decide; reflexivity.
  - reflexivity.
  - left.
  - reflexivity.
  - intros b Hb Hroot. unfold fiveChildren, exampleConversation, Object_values in Hb.
    simpl in Hb. repeat (apply elem_of_cons in Hb as [->|Hb]; [done|]).
    by apply elem_of_nil in Hb.
Defined.

(** C6 as stated fails: branch ids that are array indices are enumerated
    in numeric order, not in the order in which the walk positions them.
    With the root 9, its child 5 and the children 1 and 2 of 5, the walk
    puts 9 at [canvasCenter] and 2 at (800, 320); the overlap pass meets 2
    before 9 and moves the root down to (800, 750). *)
Lemma root_displaced_counterexample :
  wfBranches (branches numericConversation) ∧
  rootCount numericConversation = 1%nat ∧
  find isRoot (Object_values (branches numericConversation))
    = Some (exampleBranch "9" None).2 ∧
  canvasCenter numericConversation = {| x := 800; y := 400 |} ∧
  calculateOptimalBranchPositions numericConversation
    = Some [("1", {| x := 1700; y := 170 |}); ("2", {| x := 800; y := 320 |});
            ("5", {| x := 1250; y := 285 |}); ("9", {| x := 800; y := 750 |})].
Proof. split; [apply wfBranches_decide; reflexivity|by vm_compute]. Qed.

(** ** Dangling parents *)

(** C5, as amended: for plain ids (no branch id an array index, no id or
    parent id the name of an inherited member), with a branch whose
    [parentBranchId] names no branch, the call still returns normally and
    reports nothing: its whole result is the positions mapping.  That
    mapping has a position for every branch reachable from the root
    through parent links, and none for the dangling branch or for any
    branch below it. *)
Theorem layout_with_dangling_parent
    (conversation : Conversation) (rootBranch dangling : Branch) (q : string) :
  wfBranches (branches conversation) →
  plainIds (Object_values (branches conversation)) →
  find isRoot (Object_values (branches conversation)) = Some rootBranch →
  dangling ∈ Object_values (branches conversation) →
  truthy (parentBranchId dangling) = Some q →
  q ∉ Object_keys (branches conversation) →
  ∃ positions,
    layout conversation = Some (Positions positions) ∧
    (∀ u, descendsFrom (Object_values (branches conversation)) (branch_id rootBranch) u →
          is_Some (obj_get positions u)) ∧
    (∀ e, descendsFrom (Object_values (branches conversation)) (branch_id dangling) e →
          obj_get positions e = None).
Proof.
  intros Hwf Hplain Hfind Hd Hq Hmissing. unfold layout.
  destruct (calculateOptimalBranchPositions_root conversation
              (wfBranches_ids _ Hwf) rootBranch Hfind (plainIds_named _ Hplain))
    as (rest & _ & rest' & -> & Hkeys).
  eexists. split; [done|]. split.
  - intros u Hu. by apply Hkeys.
  - intros e He. apply eq_None_not_Some. rewrite Hkeys.
    eapply (dangling_not_below conversation (wfBranches_ids _ Hwf)); [done..| |done].
    by rewrite wfBranches_keys.
Qed.

Lemma layout_with_dangling_parent_witness :
  ∃ positions,
    layout danglingConversation = Some (Positions positions) ∧
    (∀ u, descendsFrom (Object_values (branches danglingConversation)) "main" u →
          is_Some (obj_get positions u)) ∧
    (∀ e, descendsFrom (Object_values (branches danglingConversation)) "d" e →
          obj_get positions e = None).
Proof.
  apply (layout_with_dangling_parent danglingConversation
           (exampleBranch "main" None).2 (exampleBranch "d" (Some "gone")).2 "gone").
  - apply wfBranches_decide; reflexivity.
  - reflexivity.
  - reflexivity.
  - unfold danglingConversation, exampleConversation, Object_values. simpl.
    do 2 right. left.
  - reflexivity.
  - apply (bool_decide_eq_false_1 _). reflexivity.
Defined.

(** C5 as stated fails: branch d has a dangling parent, every other branch
    names an existing parent or none, and yet branch e, whose parent d
    exists, gets no position; the result is the bare positions mapping,
    with no condition reported. *)
Lemma layout_dangling_counterexample :
  layout danglingConversation
    = Some (Positions [("main", {| x := 800; y := 400 |}); ("a", {| x := 1250; y := 285 |})]) ∧
  (parentBranchId <$> obj_get (branches danglingConversation) "d") = Some (Some "gone") ∧
  obj_get (branches danglingConversation) "gone" = None ∧
  (parentBranchId <$> obj_get (branches danglingConversation) "e") = Some (Some "d") ∧
  (layout danglingConversation ≫= λ r,
     match r with Positions ps => obj_get ps "e" | Failure _ => None end) = None.
Proof. by vm_compute. Qed.

(** ** What the overlap pass guarantees *)

Lemma moved_distance (pos1 pos2 : Point) :
  Z.abs (y (moved pos1 pos2) - y pos1) = BLOCK_HEIGHT + MIN_SPACING.
Proof.
  unfold moved, BLOCK_HEIGHT, MIN_SPACING. destruct (y pos1 <=? y pos2); simpl; lia.
Qed.

Lemma moved_direction (pos1 pos2 : Point) :
  overlapping pos1 pos2 = true →
  if y pos1 <=? y pos2
  then y (moved pos1 pos2) = y pos1 + 430 ∧ y pos2 < y (moved pos1 pos2)
  else y (moved pos1 pos2) = y pos1 - 430 ∧ y (moved pos1 pos2) < y pos2.
Proof.
  unfold overlapping, moved, BLOCK_HEIGHT, BLOCK_WIDTH, MIN_SPACING.
  intros H. apply andb_true_iff in H as [_ H]. apply Z.ltb_lt in H.
  destruct (y pos1 <=? y pos2) eqn:E; simpl.
  - apply Z.leb_le in E. lia.
  - apply Z.leb_gt in E. lia.
Qed.

Lemma earlier_positions (positions : JsObject Point) (j : nat) (pos : Point) :
  pos ∈ take j positions.*2 ↔
  ∃ i id, (i < j)%nat ∧ positions !! i = Some (id, pos).
Proof.
  rewrite list_elem_of_lookup. split.
  - intros [i Hi]. apply lookup_take_Some in Hi as [Hi Hlt].
    apply list_lookup_fmap_Some in Hi as ([id p] & Hp & Hi). simpl in Hp. subst p.
    by exists i, id.
  - intros (i & id & Hlt & Hi). exists i.
    rewrite lookup_take_lt, list_lookup_fmap, Hi by done. done.
Qed.

(** C4, as amended.  The pass compares pre-pass positions only.  Every
    block keeps its key, its place and its x; a block that overlaps no
    earlier block is not moved.  For blocks [i < j] that overlap before the
    pass, with no block between them overlapping [j], block [j] ends at the
    x it had and at the pre-pass y of block [i] plus 430 if its own y was
    at least that of block [i] (a move downward), minus 430 otherwise (a
    move upward); when block [i] is itself not moved (no earlier block
    overlaps it) the two end exactly 430 apart vertically. *)
Theorem resolveOverlaps_single_pass
    (positions : JsObject Point) (i j : nat) (id1 id2 : string) (pos1 pos2 : Point) :
  NoDup (Object_keys positions) →
  (i < j)%nat →
  positions !! i = Some (id1, pos1) →
  positions !! j = Some (id2, pos2) →
  overlapping pos1 pos2 = true →
  (∀ i' id' pos', (i < i' < j)%nat → positions !! i' = Some (id', pos') →
                  overlapping pos' pos2 = false) →
  (∀ k id pos, positions !! k = Some (id, pos) →
     ∃ pos', resolveOverlaps positions !! k = Some (id, pos') ∧ x pos' = x pos ∧
             ((∀ k' id' pos0, (k' < k)%nat → positions !! k' = Some (id', pos0) →
                              overlapping pos0 pos = false) → pos' = pos)) ∧
  resolveOverlaps positions !! j = Some (id2, moved pos1 pos2) ∧
  x (moved pos1 pos2) = x pos2 ∧
  (if y pos1 <=? y pos2
   then y (moved pos1 pos2) = y pos1 + 430 ∧ y pos2 < y (moved pos1 pos2)
   else y (moved pos1 pos2) = y pos1 - 430 ∧ y (moved pos1 pos2) < y pos2) ∧
  ((∀ i' id' pos', (i' < i)%nat → positions !! i' = Some (id', pos') →
                   overlapping pos' pos1 = false) →
   resolveOverlaps positions !! i = Some (id1, pos1) ∧
   Z.abs (y (moved pos1 pos2) - y pos1) = 430).
Proof.
  intros Hnd Hij Hi Hj Hov Hbetween.
  assert (∀ k id pos, positions !! k = Some (id, pos) →
            (∀ k' id' pos0, (k' < k)%nat → positions !! k' = Some (id', pos0) →
                            overlapping pos0 pos = false) →
            resolveOverlaps positions !! k = Some (id, pos)) as Hunmoved.
  { intros k id pos Hk Hnone. rewrite resolveOverlaps_lookup, Hk by done. simpl.
    rewrite resolvedAt_none; [done|].
    intros p Hp. apply earlier_positions in Hp as (k' & id' & Hlt & Hk'). eauto. }
  split; [|split; [|split; [|split]]].
  - intros k id pos Hk. eexists. split; [|split].
    + rewrite resolveOverlaps_lookup, Hk by done. done.
    + apply resolvedAt_x.
    + intros Hnone. apply resolvedAt_none.
      intros p Hp. apply earlier_positions in Hp as (k' & id' & Hlt & Hk'). eauto.
  - rewrite resolveOverlaps_lookup, Hj by done. simpl. do 2 f_equal.
    assert (take j positions.*2 = take i positions.*2 ++ pos1 :: drop (S i) (take j positions.*2))
      as ->.
    { rewrite <- (take_drop_middle (take j positions.*2) i pos1) at 1.
      - by rewrite take_take, Nat.min_l by lia.
      - rewrite lookup_take_lt, list_lookup_fmap, Hi by done. done. }
    apply resolvedAt_last; [done|].
    intros p Hp. apply list_elem_of_lookup in Hp as [n Hn].
    rewrite lookup_drop in Hn. apply lookup_take_Some in Hn as [Hn Hlt].
    apply list_lookup_fmap_Some in Hn as ([id' p'] & Hp' & Hn). simpl in Hp'. subst p'.
    eapply (Hbetween (S i + n)%nat); [lia|exact Hn].
  - apply moved_x.
  - by apply moved_direction.
  - intros Hnone. split; [by apply Hunmoved|]. apply moved_distance.
Qed.

Lemma resolveOverlaps_single_pass_witness :
  (∀ k id pos, fiveChildrenPlaced !! k = Some (id, pos) →
     ∃ pos', resolveOverlaps fiveChildrenPlaced !! k = Some (id, pos') ∧ x pos' = x pos ∧
             ((∀ k' id' pos0, (k' < k)%nat → fiveChildrenPlaced !! k' = Some (id', pos0) →
                              overlapping pos0 pos = false) → pos' = pos)) ∧
  resolveOverlaps fiveChildrenPlaced !! 3%nat = Some ("c", {| x := 1250; y := 530 |}) ∧
  1250 = 1250 ∧
  (100 + 430 = 100 + 430 ∧ 400 < 100 + 430) ∧
  ((∀ i' id' pos', (i' < 1)%nat → fiveChildrenPlaced !! i' = Some (id', pos') →
                   overlapping pos' {| x := 1250; y := 100 |} = false) →
   resolveOverlaps fiveChildrenPlaced !! 1%nat = Some ("a", {| x := 1250; y := 100 |}) ∧
   430 = 430).
Proof.
  apply (resolveOverlaps_single_pass fiveChildrenPlaced 1 3 "a" "c"
           {| x := 1250; y := 100 |} {| x := 1250; y := 400 |}).
  - apply (bool_decide_eq_true_1 _). reflexivity.
  - lia.
  - reflexivity.
  - reflexivity.
  - reflexivity.
  - intros i' id' pos' Hi' Hlook. assert (i' = 2%nat) as -> by lia.
    injection Hlook as <- <-. reflexivity.
Defined.

(** C4 as stated fails on the layout of a root with five children: c and e
    overlap before the pass (both at x = 1250, 300 apart), the pass moves
    both by the pre-pass positions of a and c, and they end 300 apart. *)
Lemma resolveOverlaps_residual_counterexample :
  positionBranch 6 (buildChildrenMap (Object_values (branches fiveChildren))) "main"
    [("main", {| x := 800; y := 400 |})] = Some fiveChildrenPlaced ∧
  (∃ c e, fiveChildrenPlaced !! 3%nat = Some ("c", c) ∧
          fiveChildrenPlaced !! 5%nat = Some ("e", e) ∧
          overlapping c e = true) ∧
  (∃ c' e', resolveOverlaps fiveChildrenPlaced !! 3%nat = Some ("c", c') ∧
            resolveOverlaps fiveChildrenPlaced !! 5%nat = Some ("e", e') ∧
            Z.abs (y e' - y c') = 300 ∧
            ¬ (BLOCK_HEIGHT + MIN_SPACING <= Z.abs (y e' - y c'))).
Proof.
  split; [by vm_compute|]. split.
  - eexists _, _. by vm_compute.
  - eexists _, _. split; [by vm_compute|]. split; [by vm_compute|].
    split; [by vm_compute|]. vm_compute. by intros H.
Qed.

(** ** Edge geometry *)

Lemma controlOffset_range (parentBranch branch : Branch) :
  (inject_Z 80 <= controlOffset (connectionFor parentBranch branch) <= inject_Z 150)%Q.
Proof.
  unfold connectionFor. cbn [controlOffset]. split.
  - apply Q.min_glb; [apply Q.le_max_r|done].
  - apply Q.le_min_r.
Qed.

(** C9, as amended.  When the child lies further right than one block width
    (child.x > parent.x + 320, as for every edge between blocks the layout
    has placed, which are 450 apart), the edge runs from the parent's right
    edge to the child's left edge, the control offset is
    [min(max(deltaX * 0.3, 80), 150)] for the anchor-to-anchor distance
    [deltaX = child.x - parent.x - 320], and it is applied outward: added
    at the start anchor, subtracted at the end anchor.  For the child
    mirrored to the other side of the parent at the same y, the control
    offset is the same and the two displacements change sign. *)
Theorem connection_control_points_mirror (parentBranch childBranch mirrored : Branch) :
  x (position parentBranch) + 320 < x (position childBranch) →
  x (position mirrored) = 2 * x (position parentBranch) - x (position childBranch) →
  y (position mirrored) = y (position childBranch) →
  let c := connectionFor parentBranch childBranch in
  let m := connectionFor parentBranch mirrored in
  startX (points c) = x (position parentBranch) + BLOCK_HALF_WIDTH ∧
  endX (points c) = x (position childBranch) - BLOCK_HALF_WIDTH ∧
  controlOffset c =
    Qmin (Qmax (inject_Z (x (position childBranch) - x (position parentBranch) - 320)
                * (3 # 10)) (inject_Z 80)) (inject_Z 150) ∧
  (inject_Z 80 <= controlOffset c <= inject_Z 150)%Q ∧
  (controlX1 c == inject_Z (startX (points c)) + controlOffset c)%Q ∧
  (controlX2 c == inject_Z (endX (points c)) - controlOffset c)%Q ∧
  startX (points m) = x (position parentBranch) - BLOCK_HALF_WIDTH ∧
  endX (points m) = x (position mirrored) + BLOCK_HALF_WIDTH ∧
  controlOffset m = controlOffset c ∧
  (controlX1 m - inject_Z (startX (points m))
     == - (controlX1 c - inject_Z (startX (points c))))%Q ∧
  (controlX2 m - inject_Z (endX (points m))
     == - (controlX2 c - inject_Z (endX (points c))))%Q.
Proof.
  intros Hfar Hmx Hmy c m.
  pose proof (controlOffset_range parentBranch childBranch) as Hrange.
  subst c m. revert Hrange.
  unfold connectionFor, calculateConnectionPoints, BLOCK_HALF_WIDTH.
  rewrite Hmx.
  assert ((x (position parentBranch) <? x (position childBranch)) = true) as ->
    by (apply Z.ltb_lt; lia).
  assert ((x (position parentBranch)
           <? 2 * x (position parentBranch) - x (position childBranch)) = false) as ->
    by (apply Z.ltb_ge; lia).
  assert ((2 * x (position parentBranch) - x (position childBranch)
           <? x (position parentBranch)) = true) as ->
    by (apply Z.ltb_lt; lia).
  cbn [points startX endX controlX1 controlX2 controlOffset].
  assert ((x (position parentBranch) + 160 <? x (position childBranch) - 160) = true) as ->
    by (apply Z.ltb_lt; lia).
  assert ((x (position parentBranch) - 160
           <? 2 * x (position parentBranch) - x (position childBranch) + 160) = false) as ->
    by (apply Z.ltb_ge; lia).
  replace (Z.abs (x (position childBranch) - 160 - (x (position parentBranch) + 160)))
    with (x (position childBranch) - x (position parentBranch) - 320) by lia.
  replace (Z.abs (2 * x (position parentBranch) - x (position childBranch) + 160
                  - (x (position parentBranch) - 160)))
    with (x (position childBranch) - x (position parentBranch) - 320) by lia.
  intros Hrange. repeat split; try done; try apply Hrange; ring.
Qed.

Lemma connection_control_points_mirror_witness :
  let c := connectionFor (edgeBlock 800 400) (edgeBlock 1250 285) in
  let m := connectionFor (edgeBlock 800 400) (edgeBlock 350 285) in
  startX (points c) = 960 ∧ endX (points c) = 1090 ∧
  controlOffset c = Qmin (Qmax (inject_Z 130 * (3 # 10)) (inject_Z 80)) (inject_Z 150) ∧
  (inject_Z 80 <= controlOffset c <= inject_Z 150)%Q ∧
  (controlX1 c == inject_Z (startX (points c)) + controlOffset c)%Q ∧
  (controlX2 c == inject_Z (endX (points c)) - controlOffset c)%Q ∧
  startX (points m) = 640 ∧ endX (points m) = 510 ∧
  controlOffset m = controlOffset c ∧
  (controlX1 m - inject_Z (startX (points m))
     == - (controlX1 c - inject_Z (startX (points c))))%Q ∧
  (controlX2 m - inject_Z (endX (points m))
     == - (controlX2 c - inject_Z (endX (points c))))%Q.
Proof.
  apply (connection_control_points_mirror
           (edgeBlock 800 400) (edgeBlock 1250 285) (edgeBlock 350 285)).
  - simpl. lia.
  - reflexivity.
  - reflexivity.
Defined.

(** C9 as stated fails for a child at most one block width to the right.
    At child.x = parent.x + 320 the two anchors coincide and both the pair
    and its mirror image take the leftward branch: the displacements of the
    control points have the same sign, not opposite ones.  At
    child.x = parent.x + 100 the first control point lies to the left of
    the parent's right edge, inside the parent block. *)
Lemma connection_mirror_counterexample :
  let c := connectionFor (edgeBlock 0 0) (edgeBlock 320 0) in
  let m := connectionFor (edgeBlock 0 0) (edgeBlock (-320) 0) in
  let n := connectionFor (edgeBlock 0 0) (edgeBlock 100 0) in
  (controlX1 c - inject_Z (startX (points c)) == - inject_Z 80)%Q ∧
  (controlX1 m - inject_Z (startX (points m)) == - inject_Z 80)%Q ∧
  ¬ (controlX1 m - inject_Z (startX (points m))
       == - (controlX1 c - inject_Z (startX (points c))))%Q ∧
  startX (points n) = 160 ∧
  (controlX1 n == inject_Z 80)%Q ∧
  (controlX1 n < inject_Z (startX (points n)))%Q.
Proof. vm_compute. repeat split; try done; by intros H. Qed.

(** ** Recentering the viewport *)

(** C7: a render in which the conversation id differs from that of the
    previous render sets [canvasOffset] to
    [(clientWidth / 2 - root.x, clientHeight / 2 - root.y)], for the root
    stored under the key main as in every conversation the application
    builds; the root then lands at the centre of the viewport.  The new
    offset does not depend on the old one, and a render with an unchanged
    conversation id leaves the offset alone. *)
Theorem recenter_on_conversation_change
    (previous : option Conversation) (conversation : Conversation)
    (container : Container) (canvasOffset : Offset) (rootBranch : Branch) :
  effectDependency previous ≠ Some (conversation_id conversation) →
  find isRoot (Object_values (branches conversation)) = Some rootBranch →
  obj_get (branches conversation) "main" = Some rootBranch →
  let offset' := afterRender previous (Some conversation) (Some container) canvasOffset in
  offset' = {| offsetX := (inject_Z (clientWidth container) / 2
                           - inject_Z (x (position rootBranch)))%Q;
               offsetY := (inject_Z (clientHeight container) / 2
                           - inject_Z (y (position rootBranch)))%Q |} ∧
  (inject_Z (x (position rootBranch)) + offsetX offset'
     == inject_Z (clientWidth container) / 2)%Q ∧
  (inject_Z (y (position rootBranch)) + offsetY offset'
     == inject_Z (clientHeight container) / 2)%Q ∧
  (∀ other, afterRender previous (Some conversation) (Some container) other = offset') ∧
  (∀ other, afterRender (Some conversation) (Some conversation) (Some container) other
            = other).
Proof.
  intros Hchange _ Hmain offset'.
  assert (∀ other, afterRender previous (Some conversation) (Some container) other =
            {| offsetX := (inject_Z (clientWidth container) / 2
                           - inject_Z (x (position rootBranch)))%Q;
               offsetY := (inject_Z (clientHeight container) / 2
                           - inject_Z (y (position rootBranch)))%Q |}) as Hset.
  { intros other. unfold afterRender. rewrite decide_False by done.
    unfold recenter. by rewrite Hmain. }
  subst offset'. rewrite !Hset. cbn [offsetX offsetY].
  split; [done|]. split; [ring|]. split; [ring|]. split; [done|].
  intros other. unfold afterRender. by rewrite decide_True by done.
Qed.

(** ** Creating branches *)

Lemma updateBranches_spec (newPositions : JsObject Point) (bs : JsObject Branch) :
  NoDup (Object_keys bs) → jsOrdered (Object_keys bs) = true →
  updateBranches newPositions bs =
  (λ kb, (kb.1, withPosition newPositions kb.1 kb.2)) <$> bs.
Proof.
  unfold updateBranches, Object_entries.
  change ((λ kb, (kb.1, withPosition newPositions kb.1 kb.2)) <$> bs)
    with ([] ++ ((λ kb : string * Branch, (kb.1, withPosition newPositions kb.1 kb.2)) <$> bs)).
  change (Object_keys bs) with (Object_keys ([] : JsObject Branch) ++ Object_keys bs)
    at 2.
  assert (∀ k, k ∈ Object_keys bs → k ∉ Object_keys ([] : JsObject Branch)) as Hfresh.
  { intros k _. apply not_elem_of_nil. }
  revert Hfresh. generalize ([] : JsObject Branch).
  induction bs as [|[k b] bs IH]; intros acc Hfresh Hnd Hord; simpl.
  - by rewrite app_nil_r.
  - change (Object_keys ((k, b) :: bs)) with (k :: Object_keys bs) in *.
    apply NoDup_cons in Hnd as [Hk Hnd].
    rewrite obj_set_last.
    + rewrite IH; [rewrite <- app_assoc; reflexivity| |exact Hnd|].
      * intros k' Hk'. unfold Object_keys. rewrite fmap_app. simpl.
        intros Hin. apply elem_of_app in Hin as [Hin|Hin].
        -- eapply Hfresh; [right; exact Hk'|exact Hin].
        -- apply list_elem_of_singleton in Hin as ->. done.
      * unfold Object_keys in *. rewrite fmap_app. simpl.
        by rewrite <- app_assoc.
    + apply Hfresh. left.
    + apply jsOrdered_last. eapply jsOrdered_app_l.
      rewrite <- app_assoc. exact Hord.
Qed.

Lemma obj_get_fmap {A B} (f : string → A → B) (o : JsObject A) (k : string) :
  obj_get ((λ kb, (kb.1, f kb.1 kb.2)) <$> o) k = f k <$> obj_get o k.
Proof.
  induction o as [|[k' a] o IH]; [done|]. simpl.
  destruct (String.eqb k' k) eqn:E; [|done].
  apply String.eqb_eq in E. by subst.
Qed.

Lemma Forall_obj_set {V} (P : string * V → Prop) (o : JsObject V) (k : string) (v : V) :
  Forall P o → P (k, v) → Forall P (obj_set o k v).
Proof.
  intros Ho Hkv. destruct (obj_set_cases o k v) as [->|[_ ->]].
  - induction Ho as [|[k' v'] o Hk' Ho IH]; simpl.
    + by repeat constructor.
    + destruct (String.eqb k' k) eqn:E.
      * apply String.eqb_eq in E. subst. by constructor.
      * by constructor.
  - induction Ho as [|[k' v'] o Hk' Ho IH]; simpl.
    + by repeat constructor.
    + destruct (enumeratedBefore k' k); by repeat constructor.
Qed.

Lemma wfBranches_set (bs : JsObject Branch) (k : string) (b : Branch) :
  wfBranches bs → branch_id b = k → wfBranches (obj_set bs k b).
Proof.
  intros (Hnd & Hid & Hord) Hb. split; [by apply obj_set_NoDup|]. split.
  - by apply Forall_obj_set.
  - by apply obj_set_jsOrdered.
Qed.

Lemma last_nonempty {A} (l : list A) : l ≠ [] → ∃ a, last l = Some a.
Proof.
  destruct l as [|a l] using rev_ind; [done|]. intros _. exists a. apply last_snoc.
Qed.

Lemma calculateOptimalBranchPositions_total (conversation : Conversation) :
  wfBranches (branches conversation) →
  is_Some (calculateOptimalBranchPositions conversation).
Proof.
  intros Hwf.
  destruct (find isRoot (Object_values (branches conversation))) as [r|] eqn:Er.
  - destruct (calculateOptimalBranchPositions_keys conversation
                (wfBranches_ids _ Hwf) r Er) as (positions & -> & _). done.
  - unfold calculateOptimalBranchPositions. by rewrite Er.
Qed.

(** A create-branch from an existing active branch with a message goes
    through: the layout of the extended conversation returns, and its
    positions are written back. *)
Lemma handleCreateBranch_runs
    (now : N) (activeConversation : Conversation) (activeBranch : Branch) (lastMsg : Message) :
  wfBranches (branches activeConversation) →
  obj_get (branches activeConversation) (activeBranchId activeConversation)
    = Some activeBranch →
  last (messages activeBranch) = Some lastMsg →
  ∃ newPositions,
    calculateOptimalBranchPositions
      (updatedConversationOf now activeConversation activeBranch lastMsg)
      = Some newPositions ∧
    handleCreateBranch now activeConversation =
    Some (repositioned newPositions
            (updatedConversationOf now activeConversation activeBranch lastMsg)).
Proof.
  intros Hwf Hactive Hlast.
  assert (wfBranches (branches (updatedConversationOf now activeConversation
                                  activeBranch lastMsg))) as Hwf'.
  { by apply wfBranches_set. }
  destruct (calculateOptimalBranchPositions_total _ Hwf') as [newPositions Hcalc].
  exists newPositions. split; [done|].
  unfold handleCreateBranch. rewrite Hactive, Hlast. cbv zeta.
  change (calculateOptimalBranchPositions _) with
    (calculateOptimalBranchPositions
       (updatedConversationOf now activeConversation activeBranch lastMsg)).
  rewrite Hcalc. unfold repositioned. f_equal.
  rewrite <- updateBranches_spec by apply Hwf'. done.
Qed.

Lemma repositioned_wf (newPositions : JsObject Point) (c : Conversation) :
  wfBranches (branches c) → wfBranches (branches (repositioned newPositions c)).
Proof.
  intros (Hnd & Hid & Hord). unfold repositioned. cbn [branches].
  assert (Object_keys ((λ kb : string * Branch,
                          (kb.1, withPosition newPositions kb.1 kb.2)) <$> branches c)
          = Object_keys (branches c)) as Hkeys.
  { unfold Object_keys. rewrite <- list_fmap_compose.
    apply list_fmap_ext. by intros i [k b] _. }
  unfold wfBranches. rewrite Hkeys. split; [done|]. split; [|done].
  apply Forall_fmap. eapply Forall_impl; [exact Hid|]. by intros [k b].
Qed.

Lemma repositioned_get (newPositions : JsObject Point) (c : Conversation) (k : string) :
  obj_get (branches (repositioned newPositions c)) k =
  withPosition newPositions k <$> obj_get (branches c) k.
Proof. unfold repositioned. cbn [branches]. apply obj_get_fmap. Qed.

(** ** The conversations the application builds *)

Lemma mainIsRoot_find (bs : JsObject Branch) :
  Forall (λ kb, kb.1 ≠ "" ∧ (isRoot kb.2 = true ↔ kb.1 = "main")) bs →
  find isRoot (Object_values bs) = obj_get bs "main".
Proof.
  unfold Object_values. induction 1 as [|[k b] bs [_ Hkb] _ IH]; [done|]. simpl in *.
  destruct (isRoot b) eqn:Eb.
  - assert (k = "main") as -> by (by apply Hkb). done.
  - destruct (String.eqb k "main") eqn:E; [|done].
    apply String.eqb_eq in E. apply Hkb in E. congruence.
Qed.

Lemma mainIsRoot_set (bs : JsObject Branch) (k : string) (b : Branch) :
  mainIsRoot bs → k ≠ "" → (isRoot b = true ↔ k = "main") → mainIsRoot (obj_set bs k b).
Proof.
  intros [Hall Hmain] Hk Hb. split; [by apply Forall_obj_set|].
  destruct (decide (k = "main")) as [->|Hne].
  - by rewrite obj_get_set_eq.
  - by rewrite obj_get_set_ne.
Qed.

Lemma newBranchId_named (now : N) : arrayIndex (newBranchId now) = None.
Proof. reflexivity. Qed.

Lemma newBranchId_nonempty (now : N) : newBranchId now ≠ "".
Proof. done. Qed.

(** Every conversation the application builds is well formed, and its
    root is the branch stored under main. *)
Lemma built_invariant (c : Conversation) :
  built c → wfBranches (branches c) ∧ mainIsRoot (branches c).
Proof.
  induction 1 as [newId lm| |c content' now Hc [Hwf Hmain]|c branchId Hc IH
                  |c now c' Hc [Hwf Hmain] Hrun].
  - split; [by apply wfBranches_decide|]. split; [|done].
    repeat constructor; done.
  - split; [by apply wfBranches_decide|]. split; [|done].
    repeat constructor; done.
  - unfold handleSendMessage.
    destruct (obj_get (branches c) (activeBranchId c)) as [ab|] eqn:Eab; [|done].
    cbn [branches]. 
    assert ((branch_id ab, ab) ∈ branches c) as Hin.
    { pose proof (obj_get_Some _ _ _ Eab) as Hin. destruct Hwf as (_ & Hid & _).
      rewrite Forall_forall in Hid. pose proof (Hid _ Hin) as E. simpl in E.
      by rewrite E. }
    destruct Hmain as [Hall Hm]. pose proof Hall as Hall'.
    rewrite Forall_forall in Hall'. destruct (Hall' _ Hin) as [Hne Hroot].
    split; [by apply wfBranches_set|]. by apply mainIsRoot_set.
  - done.
  - destruct (obj_get (branches c) (activeBranchId c)) as [ab|] eqn:Eab.
    2:{ unfold handleCreateBranch in Hrun. rewrite Eab in Hrun. by injection Hrun as <-. }
    destruct (last (messages ab)) as [lastMsg|] eqn:El.
    2:{ unfold handleCreateBranch in Hrun. rewrite Eab, El in Hrun. by injection Hrun as <-. }
    destruct (handleCreateBranch_runs now c ab lastMsg Hwf Eab El) as (np & _ & Hrun').
    rewrite Hrun' in Hrun. injection Hrun as <-.
    assert ((branch_id ab, ab) ∈ branches c) as Hin.
    { pose proof (obj_get_Some _ _ _ Eab) as Hin. destruct Hwf as (_ & Hid & _).
      rewrite Forall_forall in Hid. pose proof (Hid _ Hin) as E. simpl in E.
      by rewrite E. }
    destruct Hmain as [Hall Hm]. pose proof Hall as Hall'.
    rewrite Forall_forall in Hall'. destruct (Hall' _ Hin) as [Hne _].
    assert (mainIsRoot (branches (updatedConversationOf now c ab lastMsg))) as [Hall2 Hm2].
    { unfold updatedConversationOf. cbn [branches]. apply mainIsRoot_set; [done|done|].
      unfold isRoot, newBranchOf. cbn [parentBranchId truthy].
      simpl in Hne. apply String.eqb_neq in Hne. rewrite Hne. done. }
    split; [apply repositioned_wf; by apply wfBranches_set|]. split.
    + unfold repositioned. cbn [branches]. apply Forall_fmap.
      eapply Forall_impl; [exact Hall2|]. by intros [k b].
    + rewrite repositioned_get. destruct Hm2 as [b ->]. done.
Qed.

(** No branch id of a conversation the application builds is an array
    index: the ids are main and the ids [newBranchId] makes. *)
Lemma built_named (c : Conversation) :
  built c → Forall (λ b, arrayIndex (branch_id b) = None) (Object_values (branches c)).
Proof.
  intros Hc.
  assert (Forall (λ kb : string * Branch, arrayIndex kb.1 = None) (branches c)) as Hkeys.
  { induction Hc as [newId lm| |c content' now Hc IH|c branchId Hc IH|c now c' Hc IH Hrun].
    - by repeat constructor.
    - by repeat constructor.
    - unfold handleSendMessage.
      destruct (obj_get (branches c) (activeBranchId c)) as [ab|] eqn:Eab; [|done].
      cbn [branches]. apply Forall_obj_set; [done|].
      destruct (built_invariant c Hc) as [(_ & Hid & _) _].
      pose proof (obj_get_Some _ _ _ Eab) as Hin. rewrite Forall_forall in IH, Hid.
      pose proof (Hid _ Hin) as E. cbn in E. rewrite E. apply (IH _ Hin).
    - done.
    - destruct (built_invariant c Hc) as [Hwf _].
      destruct (obj_get (branches c) (activeBranchId c)) as [ab|] eqn:Eab.
      2:{ unfold handleCreateBranch in Hrun. rewrite Eab in Hrun. by injection Hrun as <-. }
      destruct (last (messages ab)) as [lastMsg|] eqn:El.
      2:{ unfold handleCreateBranch in Hrun. rewrite Eab, El in Hrun.
          by injection Hrun as <-. }
      destruct (handleCreateBranch_runs now c ab lastMsg Hwf Eab El) as (np & _ & Hrun').
      rewrite Hrun' in Hrun. injection Hrun as <-.
      unfold repositioned, updatedConversationOf. cbn [branches]. apply Forall_fmap.
      apply Forall_obj_set.
      + eapply Forall_impl; [exact IH|]. by intros [k b].
      + apply newBranchId_named. }
  destruct (built_invariant c Hc) as [(_ & Hid & _) _].
  unfold Object_values. apply Forall_fmap. rewrite Forall_forall in Hkeys, Hid.
  apply Forall_forall. intros kb Hkb. cbn. rewrite (Hid _ Hkb). by apply Hkeys.
Qed.

Lemma built_root_is_main (c : Conversation) :
  built c →
  ∃ rootBranch,
    find isRoot (Object_values (branches c)) = Some rootBranch ∧
    obj_get (branches c) "main" = Some rootBranch.
Proof.
  intros Hc. destruct (built_invariant c Hc) as [_ [Hall [b Hb]]].
  exists b. by rewrite mainIsRoot_find.
Qed.

Lemma seedFirst_send (ms : list Message) (m1 m2 : Message) :
  seedFirst ms → isInherited m1 = None → isInherited m2 = None →
  seedFirst (ms ++ [m1; m2]).
Proof.
  intros (seed & sent & -> & Hseed & Hsent) H1 H2.
  exists seed, (sent ++ [m1; m2]). split; [by rewrite app_assoc|]. split; [done|].
  apply Forall_app. split; [done|]. repeat constructor; by rewrite ?H1, ?H2.
Qed.

(** In every branch the application builds the inherited seed comes first
    and the messages sent in the branch follow. *)
Lemma built_seedFirst (c : Conversation) :
  built c → Forall (λ kb, seedFirst (messages kb.2)) (branches c).
Proof.
  induction 1 as [newId lm| |c content' now Hc IH|c branchId Hc IH|c now c' Hc IH Hrun].
  - repeat constructor. by exists [], [].
  - repeat constructor. exists [], (messages projectIdeasMain).
    split; [done|]. split; [done|]. repeat constructor.
  - unfold handleSendMessage.
    destruct (obj_get (branches c) (activeBranchId c)) as [ab|] eqn:Eab; [|done].
    cbn [branches]. apply Forall_obj_set; [done|]. cbn [snd messages].
    apply seedFirst_send; [|done..].
    rewrite Forall_forall in IH. apply (IH (activeBranchId c, ab)).
    by apply obj_get_Some.
  - done.
  - destruct (obj_get (branches c) (activeBranchId c)) as [ab|] eqn:Eab.
    2:{ unfold handleCreateBranch in Hrun. rewrite Eab in Hrun. by injection Hrun as <-. }
    destruct (last (messages ab)) as [lastMsg|] eqn:El.
    2:{ unfold handleCreateBranch in Hrun. rewrite Eab, El in Hrun. by injection Hrun as <-. }
    destruct (built_invariant c Hc) as [Hwf _].
    destruct (handleCreateBranch_runs now c ab lastMsg Hwf Eab El) as (np & _ & Hrun').
    rewrite Hrun' in Hrun. injection Hrun as <-.
    unfold repositioned. cbn [branches]. apply Forall_fmap.
    eapply Forall_impl.
    + unfold updatedConversationOf. cbn [branches].
      apply (Forall_obj_set (λ kb, seedFirst (messages kb.2))); [exact IH|].
      cbn [snd newBranchOf messages]. exists [inheritedCopy lastMsg], [].
      split; [done|]. split; repeat constructor.
    + by intros [k b].
Qed.

(** With the inherited seed first, an enabled New Branch button means that
    the last message of the branch is not inherited. *)
Lemma seedFirst_last (activeBranch : Branch) :
  seedFirst (messages activeBranch) →
  canCreateBranch (Some activeBranch) = true →
  ∃ lastMsg,
    last (messages activeBranch) = Some lastMsg ∧
    truthy_flag (isInherited lastMsg) = false.
Proof.
  unfold canCreateBranch. intros (seed & sent & -> & Hseed & Hsent) Hbutton.
  destruct sent as [|m sent _] using rev_ind.
  - exfalso. rewrite app_nil_r in Hbutton.
    apply existsb_exists in Hbutton as (m & Hm & Hflag).
    rewrite Forall_forall in Hseed. apply list_elem_of_In, Hseed in Hm.
    by rewrite Hm in Hflag.
  - exists m. split; [rewrite (assoc_L (++)); apply last_snoc|].
    apply Forall_app in Hsent as [_ Hm]. rewrite Forall_singleton in Hm. exact Hm.
Qed.

Lemma built_last_not_inherited (c : Conversation) (activeBranch : Branch) :
  built c →
  obj_get (branches c) (activeBranchId c) = Some activeBranch →
  canCreateBranch (Some activeBranch) = true →
  ∃ lastMsg,
    last (messages activeBranch) = Some lastMsg ∧
    truthy_flag (isInherited lastMsg) = false.
Proof.
  intros Hc Hactive Hbutton. apply seedFirst_last; [|done].
  pose proof (built_seedFirst c Hc) as Hall. rewrite Forall_forall in Hall.
  apply (Hall (activeBranchId c, activeBranch)). by apply obj_get_Some.
Qed.

(** ** Two children of the root, created one after the other *)

Lemma toString_inj (n m : N) : toString n = toString m → n = m.
Proof.
  unfold toString. intros H. apply Unsigned.to_uint_inj.
  assert (Some (N.to_uint n) = Some (N.to_uint m)) as Heq.
  { by rewrite <- !NilEmpty.usu, H. }
  by injection Heq.
Qed.

Lemma newBranchId_inj (n m : N) : newBranchId n = newBranchId m → n = m.
Proof. unfold newBranchId. simpl. intros [= H]. by apply toString_inj. Qed.

Lemma newBranchId_not_main (now : N) : String.eqb "main" (newBranchId now) = false.
Proof. reflexivity. Qed.

Lemma newBranchId_distinct (n m : N) :
  n ≠ m → String.eqb (newBranchId n) (newBranchId m) = false.
Proof. intros H. apply String.eqb_neq. intros E. by apply H, newBranchId_inj. Qed.

(** The layout of a root main at (800,400) with one or two children that
    have no children of their own. *)
Lemma layout_one_child (conversation : Conversation) (rootBranch first : Branch) :
  Object_values (branches conversation) = [rootBranch; first] →
  canvasCenter conversation = {| x := 800; y := 400 |} →
  branch_id rootBranch = "main" → parentBranchId rootBranch = None →
  parentBranchId first = Some "main" →
  String.eqb "main" (branch_id first) = false →
  arrayIndex (branch_id first) = None →
  calculateOptimalBranchPositions conversation =
  Some [("main", {| x := 800; y := 400 |});
        (branch_id first, {| x := 1250; y := 285 |})].
Proof.
  intros Hvals Hcenter Hr Hrp Hfp Hmf Hnf.
  unfold calculateOptimalBranchPositions. rewrite Hvals, Hcenter.
  assert (isRoot rootBranch = true) as Hroot by (unfold isRoot; by rewrite Hrp).
  cbn [find]. rewrite Hroot, Hr.
  assert (∀ p, childrenOf [rootBranch; first] p =
               if decide (p = "main") then [branch_id first] else []) as Hch.
  { intros p. unfold childrenOf. rewrite !filter_cons, Hrp, Hfp.
    change (truthy None) with (@None string).
    change (truthy (Some "main")) with (Some "main").
    rewrite filter_nil. repeat case_decide; try done; congruence. }
  cbv zeta. rewrite obj_set_nil.
  cbn [length]. rewrite positionBranch_S. cbv zeta. rewrite buildChildrenMap_lookup, Hch.
  rewrite decide_True by done.
  cbn [length Nat.eqb obj_get forEach]. rewrite String.eqb_refl.
  cbn [forEach]. rewrite (obj_set_named _ (branch_id first)) by done.
  cbn [obj_put]. rewrite !Hmf.
  rewrite positionBranch_S. cbv zeta. rewrite buildChildrenMap_lookup, Hch.
  rewrite decide_False by (intros E; rewrite E in Hmf; discriminate Hmf).
  cbn [length Nat.eqb]. reflexivity.
Qed.

Lemma layout_two_children (conversation : Conversation) (rootBranch first second : Branch) :
  Object_values (branches conversation) = [rootBranch; first; second] →
  canvasCenter conversation = {| x := 800; y := 400 |} →
  branch_id rootBranch = "main" → parentBranchId rootBranch = None →
  parentBranchId first = Some "main" → parentBranchId second = Some "main" →
  String.eqb "main" (branch_id first) = false →
  String.eqb "main" (branch_id second) = false →
  String.eqb (branch_id first) (branch_id second) = false →
  arrayIndex (branch_id first) = None →
  arrayIndex (branch_id second) = None →
  calculateOptimalBranchPositions conversation =
  Some [("main", {| x := 800; y := 400 |});
        (branch_id first, {| x := 1250; y := 285 |});
        (branch_id second, {| x := 350; y := 435 |})].
Proof.
  intros Hvals Hcenter Hr Hrp Hfp Hsp Hmf Hms Hfs Hnf Hns.
  unfold calculateOptimalBranchPositions. rewrite Hvals, Hcenter.
  assert (isRoot rootBranch = true) as Hroot by (unfold isRoot; by rewrite Hrp).
  cbn [find]. rewrite Hroot, Hr.
  assert (∀ p, childrenOf [rootBranch; first; second] p =
               if decide (p = "main") then [branch_id first; branch_id second] else []) as Hch.
  { intros p. unfold childrenOf. rewrite !filter_cons, Hrp, Hfp, Hsp.
    change (truthy None) with (@None string).
    change (truthy (Some "main")) with (Some "main").
    rewrite filter_nil. repeat case_decide; try done; congruence. }
  cbv zeta. rewrite obj_set_nil.
  cbn [length]. rewrite positionBranch_S. cbv zeta. rewrite buildChildrenMap_lookup, Hch.
  rewrite decide_True by done.
  cbn [length Nat.eqb obj_get forEach]. rewrite String.eqb_refl.
  cbn [forEach]. rewrite (obj_set_named _ (branch_id first)) by done.
  cbn [obj_put]. rewrite !Hmf.
  rewrite positionBranch_S. cbv zeta. rewrite buildChildrenMap_lookup, Hch.
  rewrite decide_False by (intros E; rewrite E in Hmf; discriminate Hmf).
  cbn [length Nat.eqb]. rewrite (obj_set_named _ (branch_id second)) by done.
  cbn [obj_put]. rewrite !Hms, !Hfs.
  rewrite positionBranch_S. cbv zeta. rewrite buildChildrenMap_lookup, Hch.
  rewrite decide_False by (intros E; rewrite E in Hms; discriminate Hms).
  cbn [length Nat.eqb]. reflexivity.
Qed.

(** C3, as amended.  From a conversation whose only branch is the root
    main, positioned at (800,400) with [canvasCenter] (800,400) and at least
    one message, a first create-branch puts the new branch to the right, at
    (1250,285); after switching back to main, a second create-branch puts
    the second child on the other side of the root, at (350,435), 150 below
    the first child, which stays at (1250,285); the root stays at
    (800,400). *)
Theorem two_children_created_sequentially
    (conversation : Conversation) (rootBranch : Branch) (t1 t2 : N) :
  branches conversation = [("main", rootBranch)] →
  activeBranchId conversation = "main" →
  canvasCenter conversation = {| x := 800; y := 400 |} →
  branch_id rootBranch = "main" →
  parentBranchId rootBranch = None →
  position rootBranch = {| x := 800; y := 400 |} →
  messages rootBranch ≠ [] →
  t1 ≠ t2 →
  ∃ afterFirst afterSecond,
    handleCreateBranch t1 conversation = Some afterFirst ∧
    position <$> obj_get (branches afterFirst) (newBranchId t1)
      = Some {| x := 1250; y := 285 |} ∧
    handleCreateBranch t2 (handleSwitchBranch "main" afterFirst) = Some afterSecond ∧
    Object_keys (branches afterSecond) = ["main"; newBranchId t1; newBranchId t2] ∧
    position <$> obj_get (branches afterSecond) "main" = Some {| x := 800; y := 400 |} ∧
    position <$> obj_get (branches afterSecond) (newBranchId t1)
      = Some {| x := 1250; y := 285 |} ∧
    position <$> obj_get (branches afterSecond) (newBranchId t2)
      = Some {| x := 350; y := 435 |}.
Proof.
  intros Hbs Hact Hcenter Hid Hparent Hpos Hmsgs Hne.
  destruct (last_nonempty _ Hmsgs) as [lastMsg Hlast].
  pose proof (newBranchId_distinct _ _ Hne) as H12.
  assert (wfBranches (branches conversation)) as Hwf.
  { rewrite Hbs. split; [apply NoDup_singleton|]. split; [|done]. by repeat constructor. }
  assert (obj_get (branches conversation) (activeBranchId conversation) = Some rootBranch)
    as Hactive.
  { by rewrite Hbs, Hact. }
  destruct (handleCreateBranch_runs t1 conversation rootBranch lastMsg Hwf Hactive Hlast)
    as (np1 & Hnp1 & Hrun1).
  assert (branches (updatedConversationOf t1 conversation rootBranch lastMsg) =
          [("main", rootBranch); (newBranchId t1, newBranchOf t1 rootBranch lastMsg)]) as Hbs1.
  { unfold updatedConversationOf. cbn [branches]. rewrite Hbs.
    rewrite obj_set_named by apply newBranchId_named. cbn [obj_put].
    by rewrite newBranchId_not_main. }
  rewrite (layout_one_child _ rootBranch (newBranchOf t1 rootBranch lastMsg)) in Hnp1.
  2:{ by rewrite Hbs1. }
  2:{ done. }
  2:{ done. }
  2:{ done. }
  2:{ cbn [newBranchOf parentBranchId]. by rewrite Hid. }
  2:{ apply newBranchId_not_main. }
  2:{ apply newBranchId_named. }
  injection Hnp1 as <-.
  set (afterFirst := repositioned _ _) in Hrun1.
  assert (branches afterFirst =
          [("main", rootBranch);
           (newBranchId t1,
            withPosition [("main", {| x := 800; y := 400 |});
                          (newBranchId t1, {| x := 1250; y := 285 |})]
              (newBranchId t1) (newBranchOf t1 rootBranch lastMsg))]) as Hbs1'.
  { unfold afterFirst, repositioned. cbn [branches]. rewrite Hbs1.
    cbn [fmap list_fmap fst snd]. do 2 f_equal.
    destruct rootBranch. cbn in *. unfold withPosition. cbn. by subst. }
  set (first := withPosition _ (newBranchId t1) (newBranchOf t1 rootBranch lastMsg)) in Hbs1'.
  set (switched := handleSwitchBranch "main" afterFirst).
  assert (wfBranches (branches switched)) as Hwf2.
  { unfold switched, handleSwitchBranch. cbn [branches].
    apply repositioned_wf. by apply wfBranches_set. }
  assert (obj_get (branches switched) (activeBranchId switched) = Some rootBranch) as Hactive2.
  { unfold switched, handleSwitchBranch. cbn [branches activeBranchId]. by rewrite Hbs1'. }
  destruct (handleCreateBranch_runs t2 switched rootBranch lastMsg Hwf2 Hactive2 Hlast)
    as (np2 & Hnp2 & Hrun2).
  assert (branches (updatedConversationOf t2 switched rootBranch lastMsg) =
          [("main", rootBranch); (newBranchId t1, first);
           (newBranchId t2, newBranchOf t2 rootBranch lastMsg)]) as Hbs2.
  { unfold updatedConversationOf, switched, handleSwitchBranch. cbn [branches].
    rewrite Hbs1'. rewrite obj_set_named by apply newBranchId_named. cbn [obj_put].
    by rewrite newBranchId_not_main, H12. }
  rewrite (layout_two_children _ rootBranch first (newBranchOf t2 rootBranch lastMsg)) in Hnp2.
  2:{ by rewrite Hbs2. }
  2:{ done. }
  2:{ done. }
  2:{ done. }
  2:{ cbn [first withPosition newBranchOf parentBranchId]. by rewrite Hid. }
  2:{ cbn [newBranchOf parentBranchId]. by rewrite Hid. }
  2:{ apply newBranchId_not_main. }
  2:{ apply newBranchId_not_main. }
  2:{ exact H12. }
  2:{ apply newBranchId_named. }
  2:{ apply newBranchId_named. }
  injection Hnp2 as <-.
  cbn [first withPosition newBranchOf branch_id] in Hrun2.
  exists afterFirst. eexists. split; [exact Hrun1|]. split.
  { rewrite Hbs1'. cbn [obj_get]. rewrite newBranchId_not_main, String.eqb_refl.
    cbn [fmap option_fmap option_map first withPosition position obj_get].
    by rewrite newBranchId_not_main, String.eqb_refl. }
  split; [exact Hrun2|].
  unfold repositioned. cbn [branches]. rewrite Hbs2.
  cbn [fmap list_fmap fst snd Object_keys obj_get].
  rewrite !newBranchId_not_main, !H12, !String.eqb_refl.
  cbn [fmap option_fmap option_map withPosition position obj_get].
  rewrite !newBranchId_not_main, !H12, !String.eqb_refl.
  done.
Qed.

Lemma two_children_created_sequentially_witness :
  ∃ afterFirst afterSecond,
    handleCreateBranch 17 projectIdeas = Some afterFirst ∧
    position <$> obj_get (branches afterFirst) "branch-17"
      = Some {| x := 1250; y := 285 |} ∧
    handleCreateBranch 18 (handleSwitchBranch "main" afterFirst) = Some afterSecond ∧
    Object_keys (branches afterSecond) = ["main"; "branch-17"; "branch-18"] ∧
    position <$> obj_get (branches afterSecond) "main" = Some {| x := 800; y := 400 |} ∧
    position <$> obj_get (branches afterSecond) "branch-17"
      = Some {| x := 1250; y := 285 |} ∧
    position <$> obj_get (branches afterSecond) "branch-18"
      = Some {| x := 350; y := 435 |}.
Proof.
  apply (two_children_created_sequentially projectIdeas
           projectIdeasMain 17%N 18%N);
    try reflexivity; discriminate.
Defined.

(** C3 as stated fails on the second sample conversation of the
    application: the first child lands at (1250,285), which is neither
    (1250,400) nor (350,400), and the second child, at (350,435), is on the
    other side of the root but not at the y of the first. *)
Lemma two_children_counterexample :
  ∃ afterFirst afterSecond first second,
    handleCreateBranch 17 projectIdeas = Some afterFirst ∧
    position <$> obj_get (branches afterFirst) "branch-17" = Some first ∧
    first ≠ {| x := 1250; y := 400 |} ∧ first ≠ {| x := 350; y := 400 |} ∧
    handleCreateBranch 18 (handleSwitchBranch "main" afterFirst) = Some afterSecond ∧
    position <$> obj_get (branches afterSecond) "branch-17" = Some first ∧
    position <$> obj_get (branches afterSecond) "branch-18" = Some second ∧
    y second ≠ y first.
Proof.
  eexists _, _, _, _. split; [by vm_compute|]. split; [by vm_compute|].
  split; [done|]. split; [done|]. split; [by vm_compute|].
  split; [by vm_compute|]. split; [by vm_compute|]. done.
Qed.

(** ** Focus and inherited seed of a new branch *)

(** C10: a create-branch from an existing active branch with at least one
    message goes through, makes the new branch the active one, and stores
    it in the branches mapping, so that [activeBranchId] resolves. *)
Theorem create_branch_activates_new_branch
    (now : N) (activeConversation : Conversation) (activeBranch : Branch) :
  wfBranches (branches activeConversation) →
  obj_get (branches activeConversation) (activeBranchId activeConversation)
    = Some activeBranch →
  messages activeBranch ≠ [] →
  ∃ updated,
    handleCreateBranch now activeConversation = Some updated ∧
    activeBranchId updated = newBranchId now ∧
    activeBranchId updated ∈ Object_keys (branches updated) ∧
    is_Some (obj_get (branches updated) (activeBranchId updated)).
Proof.
  intros Hwf Hactive Hmsgs. destruct (last_nonempty _ Hmsgs) as [lastMsg Hlast].
  destruct (handleCreateBranch_runs now _ _ _ Hwf Hactive Hlast) as (np & _ & ->).
  eexists. split; [done|]. split; [done|].
  assert (is_Some (obj_get (branches (repositioned np
            (updatedConversationOf now activeConversation activeBranch lastMsg)))
            (newBranchId now))) as Hsome.
  { rewrite repositioned_get. unfold updatedConversationOf. cbn [branches].
    by rewrite obj_get_set_eq. }
  split; [|exact Hsome]. by apply obj_get_is_Some.
Qed.

Lemma create_branch_activates_new_branch_witness :
  ∃ updated,
    handleCreateBranch 17 projectIdeas = Some updated ∧
    activeBranchId updated = "branch-17" ∧
    activeBranchId updated ∈ Object_keys (branches updated) ∧
    is_Some (obj_get (branches updated) (activeBranchId updated)).
Proof.
  eapply (create_branch_activates_new_branch 17 projectIdeas).
  - apply wfBranches_decide; reflexivity.
  - reflexivity.
  - discriminate.
Defined.

(** Whatever the last message of the active branch, the new branch holds
    exactly its inherited copy. *)
Lemma handleCreateBranch_copies_last
    (now : N) (activeConversation : Conversation) (activeBranch : Branch)
    (earlier : list Message) (lastMsg : Message) :
  wfBranches (branches activeConversation) →
  obj_get (branches activeConversation) (activeBranchId activeConversation)
    = Some activeBranch →
  messages activeBranch = earlier ++ [lastMsg] →
  ∃ updated newBranch,
    handleCreateBranch now activeConversation = Some updated ∧
    obj_get (branches updated) (newBranchId now) = Some newBranch ∧
    parentBranchId newBranch = Some (branch_id activeBranch) ∧
    messages newBranch =
      [{| message_id := "inherited-" +:+ message_id lastMsg;
          content := content lastMsg;
          role := role lastMsg;
          timestamp := timestamp lastMsg;
          isInherited := Some true |}] ∧
    (truthy_flag (isInherited lastMsg) = false →
     last (filter (λ m, truthy_flag (isInherited m) = false) (messages activeBranch))
       = Some lastMsg).
Proof.
  intros Hwf Hactive Hmsgs.
  assert (last (messages activeBranch) = Some lastMsg) as Hlast.
  { rewrite Hmsgs. apply last_snoc. }
  destruct (handleCreateBranch_runs now _ _ _ Hwf Hactive Hlast) as (np & _ & ->).
  eexists _, (withPosition np (newBranchId now) (newBranchOf now activeBranch lastMsg)).
  split; [done|]. split.
  { rewrite repositioned_get. unfold updatedConversationOf. cbn [branches].
    by rewrite obj_get_set_eq. }
  split; [done|]. split; [done|].
  intros Hflag. rewrite Hmsgs, filter_app, filter_cons, decide_True by done.
  rewrite filter_nil. apply last_snoc.
Qed.

(** C8: in every conversation the application builds, a create-branch
    from the active branch, which the New Branch button allows only when
    that branch has a message that is not inherited, goes through, and
    the message list of the new branch is exactly one message: the
    inherited copy (same content, role and timestamp, [isInherited] true,
    id prefixed with inherited-) of the most recent non-inherited message
    of the active branch, which is also its last message. *)
Theorem new_branch_inherits_last_message
    (now : N) (activeConversation : Conversation) (activeBranch : Branch) :
  built activeConversation →
  obj_get (branches activeConversation) (activeBranchId activeConversation)
    = Some activeBranch →
  canCreateBranch (Some activeBranch) = true →
  ∃ updated newBranch lastMsg,
    handleCreateBranch now activeConversation = Some updated ∧
    obj_get (branches updated) (newBranchId now) = Some newBranch ∧
    parentBranchId newBranch = Some (branch_id activeBranch) ∧
    last (filter (λ m, truthy_flag (isInherited m) = false) (messages activeBranch))
      = Some lastMsg ∧
    last (messages activeBranch) = Some lastMsg ∧
    truthy_flag (isInherited lastMsg) = false ∧
    messages newBranch =
      [{| message_id := "inherited-" +:+ message_id lastMsg;
          content := content lastMsg;
          role := role lastMsg;
          timestamp := timestamp lastMsg;
          isInherited := Some true |}].
Proof.
  intros Hbuilt Hactive Hbutton.
  destruct (built_last_not_inherited _ _ Hbuilt Hactive Hbutton) as (lastMsg & Hlast & Hflag).
  destruct (built_invariant _ Hbuilt) as [Hwf _].
  pose proof Hlast as Hmsgs. apply last_Some in Hmsgs as [earlier Hmsgs].
  destruct (handleCreateBranch_copies_last now _ _ earlier lastMsg Hwf Hactive Hmsgs)
    as (updated & newBranch & Hrun & Hnew & Hparent & Hcopy & Hrecent).
  exists updated, newBranch, lastMsg. auto 10.
Qed.

Lemma new_branch_inherits_last_message_witness :
  ∃ updated newBranch lastMsg,
    handleCreateBranch 17 projectIdeas = Some updated ∧
    obj_get (branches updated) (newBranchId 17) = Some newBranch ∧
    parentBranchId newBranch = Some (branch_id projectIdeasMain) ∧
    last (filter (λ m, truthy_flag (isInherited m) = false) (messages projectIdeasMain))
      = Some lastMsg ∧
    last (messages projectIdeasMain) = Some lastMsg ∧
    truthy_flag (isInherited lastMsg) = false ∧
    messages newBranch =
      [{| message_id := "inherited-" +:+ message_id lastMsg;
          content := content lastMsg;
          role := role lastMsg;
          timestamp := timestamp lastMsg;
          isInherited := Some true |}].
Proof.
  apply (new_branch_inherits_last_message 17 projectIdeas projectIdeasMain).
  - apply built_sample.
  - reflexivity.
  - reflexivity.
Defined.

(** The handler itself does not test what the button tests: called on a
    branch that holds only its inherited seed, it copies that inherited
    message.  ChatBar disables the button in that state, so the
    application never makes this call. *)
Lemma handleCreateBranch_from_seed_only :
  ∃ afterFirst afterSecond parent child,
    handleCreateBranch 17 projectIdeas = Some afterFirst ∧
    obj_get (branches afterFirst) (activeBranchId afterFirst) = Some parent ∧
    messages parent ≠ [] ∧
    filter (λ m, truthy_flag (isInherited m) = false) (messages parent) = [] ∧
    canCreateBranch (Some parent) = false ∧
    handleCreateBranch 18 afterFirst = Some afterSecond ∧
    obj_get (branches afterSecond) "branch-18" = Some child ∧
    parentBranchId child = Some "branch-17" ∧
    message_id <$> messages child = ["inherited-inherited-2"] ∧
    isInherited <$> messages parent = [Some true].
Proof.
  eexists _, _, _, _. split; [by vm_compute|]. split; [by vm_compute|].
  split; [done|]. split; [by vm_compute|]. split; [by vm_compute|].
  split; [by vm_compute|]. split; [by vm_compute|]. done.
Qed.

Lemma recenter_on_conversation_change_witness :
  let offset' :=
    afterRender (Some (exampleConversation [exampleBranch "main" None]))
      (Some projectIdeas) (Some {| clientWidth := 1281; clientHeight := 720 |})
      {| offsetX := 17; offsetY := -3 |} in
  offset' = {| offsetX := (inject_Z 1281 / 2 - inject_Z 800)%Q;
               offsetY := (inject_Z 720 / 2 - inject_Z 400)%Q |} ∧
  (inject_Z 800 + offsetX offset' == inject_Z 1281 / 2)%Q ∧
  (inject_Z 400 + offsetY offset' == inject_Z 720 / 2)%Q ∧
  (∀ other, afterRender (Some (exampleConversation [exampleBranch "main" None]))
              (Some projectIdeas) (Some {| clientWidth := 1281; clientHeight := 720 |})
              other = offset') ∧
  (∀ other, afterRender (Some projectIdeas) (Some projectIdeas)
              (Some {| clientWidth := 1281; clientHeight := 720 |}) other = other).
Proof.
  apply (recenter_on_conversation_change
           (Some (exampleConversation [exampleBranch "main" None])) projectIdeas
           {| clientWidth := 1281; clientHeight := 720 |}
           {| offsetX := 17; offsetY := -3 |}
           projectIdeasMain).
  - discriminate.
  - reflexivity.
  - reflexivity.
Defined.

(** * Further properties of the code

    ** The walk in full *)

Lemma obj_get_app {V} (o1 o2 : JsObject V) (k : string) :
  obj_get (o1 ++ o2) k =
  match obj_get o1 k with Some v => Some v | None => obj_get o2 k end.
Proof.
  induction o1 as [|[k' v'] o1 IH]; [done|]. simpl.
  by destruct (String.eqb k' k).
Qed.

Lemma obj_get_app_l {V} (o1 o2 : JsObject V) (k : string) (v : V) :
  obj_get o1 k = Some v → obj_get (o1 ++ o2) k = Some v.
Proof. intros H. by rewrite obj_get_app, H. Qed.

Lemma obj_get_snoc_fresh {V} (o : JsObject V) (k : string) (v : V) :
  k ∉ Object_keys o → obj_get (o ++ [(k, v)]) k = Some v.
Proof.
  intros H. apply obj_get_None in H. rewrite obj_get_app, H. simpl.
  by rewrite String.eqb_refl.
Qed.

Lemma childrenOf_NoDup (bs : list Branch) (p : string) :
  NoDup (branch_id <$> bs) → NoDup (childrenOf bs p).
Proof.
  intros Hnd. unfold childrenOf. eapply sublist_NoDup; [exact Hnd|].
  apply fmap_sublist, sublist_filter.
Qed.

Section Descent.
Variable bs : list Branch.
Hypothesis ids_distinct : NoDup (branch_id <$> bs).
Variable rootBranch : Branch.
Hypothesis root_in : rootBranch ∈ bs.
Hypothesis root_isRoot : isRoot rootBranch = true.

(** Going down from a branch at depth [d] only reaches greater depths. *)
Lemma depthOf_descend (v u : string) (d : nat) :
  depthOf bs rootBranch v d → descendsFrom bs v u →
  ∃ e, depthOf bs rootBranch u (d + e) ∧ (e = 0%nat → u = v).
Proof.
  intros Hd Hvu. revert u Hvu. apply rtc_ind_r.
  - exists 0%nat. by rewrite Nat.add_0_r.
  - intros u w Hvu Huw (e & He & _). exists (S e). split; [|done].
    rewrite Nat.add_succ_r. by econstructor.
Qed.

Lemma strictlyBelow_depth (v k : string) (d : nat) :
  depthOf bs rootBranch v d → strictlyBelow bs v k →
  ∃ e, depthOf bs rootBranch k (S d + e).
Proof.
  intros Hd (c & Hc & Hck).
  destruct (depthOf_descend c k (S d)) as (e & He & _); [by econstructor|done|].
  by exists e.
Qed.

Lemma strictlyBelow_irrefl (v : string) (d : nat) :
  depthOf bs rootBranch v d → ¬ strictlyBelow bs v v.
Proof.
  intros Hd Hvv. destruct (strictlyBelow_depth _ _ _ Hd Hvv) as [e He].
  pose proof (depthOf_fun bs ids_distinct rootBranch root_in root_isRoot _ _ _ Hd He). lia.
Qed.

(** A branch has one ancestor at each depth. *)
Lemma ancestor_unique (a b k : string) (n : nat) :
  depthOf bs rootBranch a n → depthOf bs rootBranch b n →
  descendsFrom bs a k → descendsFrom bs b k → a = b.
Proof.
  intros Ha Hb Hak. revert k Hak. apply (rtc_ind_r (λ k, descendsFrom bs b k → a = b)).
  - intros Hba. destruct (depthOf_descend _ _ _ Hb Hba) as (e & He & Heq).
    pose proof (depthOf_fun bs ids_distinct rootBranch root_in root_isRoot _ _ _ Ha He).
    apply Heq. lia.
  - intros k' k Hak' Hk'k IH Hbk. apply rtc_inv_r in Hbk as [<-|(k'' & Hbk'' & Hk''k)].
    + exfalso. destruct (depthOf_descend _ _ _ Ha Hak') as (e & He & _).
      assert (depthOf bs rootBranch b (S (n + e))) as Hb' by (by econstructor).
      pose proof (depthOf_fun bs ids_distinct rootBranch root_in root_isRoot _ _ _ Hb Hb').
      lia.
    + apply IH. by rewrite (isChild_parent_unique bs ids_distinct _ _ _ Hk'k Hk''k).
Qed.
End Descent.

Lemma expandedAt_extend (bs : list Branch) (ps more : JsObject Point) (q : string) :
  expandedAt bs ps q → expandedAt bs (ps ++ more) q.
Proof.
  intros (pre & pp & rest & -> & Hkids). exists pre, pp, (rest ++ more). split.
  - by rewrite <- app_assoc.
  - intros i c Hc. apply obj_get_app_l. by apply Hkids.
Qed.

Section Walk.
Variable bs : list Branch.
Hypothesis ids_distinct : NoDup (branch_id <$> bs).
Variable rootBranch : Branch.
Hypothesis root_in : rootBranch ∈ bs.
Hypothesis root_isRoot : isRoot rootBranch = true.
Hypothesis ids_named : Forall (λ b, arrayIndex (branch_id b) = None) bs.

Lemma forEach_children (fuel : nat) (v : string) (d : nat) (pre : JsObject Point)
    (pv : Point) (startY R L : Z) :
  (∀ c pre' pt ps',
     depthOf bs rootBranch c (S d) →
     NoDup (Object_keys (pre' ++ [(c, pt)])) →
     (∀ k, k ∈ Object_keys (pre' ++ [(c, pt)]) → ¬ strictlyBelow bs c k) →
     positionBranch fuel (buildChildrenMap bs) c (pre' ++ [(c, pt)]) = Some ps' →
     walkPost bs pre' c pt ps') →
  depthOf bs rootBranch v d →
  (∀ k, k ∈ Object_keys (pre ++ [(v, pv)]) → ¬ strictlyBelow bs v k) →
  ∀ todo done ext ps',
    childrenOf bs v = done ++ todo →
    walkInv bs pre v pv startY R L done ext →
    forEach
      (fun childId index positions =>
         positionBranch fuel (buildChildrenMap bs) childId
           (obj_set positions childId (childPosition pv startY R L index)))
      todo (length done) (pre ++ (v, pv) :: ext) = Some ps' →
    ∃ ext', ps' = pre ++ (v, pv) :: ext' ∧
            walkInv bs pre v pv startY R L (childrenOf bs v) ext'.
Proof.
  intros IHf Hd Hfresh0. induction todo as [|c todo IH]; intros done ext ps' Hsplit Hinv.
  - simpl. intros [= <-]. exists ext. rewrite app_nil_r in Hsplit. by rewrite Hsplit.
  - destruct Hinv as (Hnd & Hbelow & Hplaced & Hexp).
    pose proof (childrenOf_NoDup bs v ids_distinct) as Hkids_nd. rewrite Hsplit in Hkids_nd.
    assert (isChild bs v c) as Hvc.
    { unfold isChild. rewrite Hsplit. apply elem_of_app. right. left. }
    assert (∀ c', c' ∈ done → isChild bs v c') as Hdone.
    { intros c' Hc'. unfold isChild. rewrite Hsplit. apply elem_of_app. by left. }
    assert (c ∉ done) as Hc_done.
    { apply NoDup_app in Hkids_nd as (_ & Hdisj & _). intros Hin.
      apply (Hdisj c Hin). left. }
    assert (depthOf bs rootBranch c (S d)) as Hdc by (by econstructor).
    assert (∀ k, k ∈ Object_keys ext → ¬ descendsFrom bs c k) as Hnot_below.
    { intros k Hk Hck. destruct (Hbelow k Hk) as (c' & Hc' & Hc'k).
      assert (c' = c) as ->; [|done].
      eapply (ancestor_unique bs ids_distinct rootBranch root_in root_isRoot c' c k (S d));
        [econstructor; [exact Hd|by apply Hdone]|done..]. }
    assert (Object_keys (pre ++ (v, pv) :: ext)
            = Object_keys (pre ++ [(v, pv)]) ++ Object_keys ext) as Hkeys.
    { unfold Object_keys. rewrite !fmap_app. simpl. by rewrite <- app_assoc. }
    assert (c ∉ Object_keys (pre ++ (v, pv) :: ext)) as Hc_fresh.
    { rewrite Hkeys. intros Hin. apply elem_of_app in Hin as [Hin|Hin].
      - apply (Hfresh0 c Hin). exists c. split; [done|apply rtc_refl].
      - apply (Hnot_below c Hin). apply rtc_refl. }
    assert (arrayIndex c = None) as Hc_named by (by eapply isChild_named).
    cbn [forEach]. rewrite (obj_set_fresh _ _ _ Hc_named Hc_fresh).
    set (pt := childPosition pv startY R L (length done)).
    destruct (positionBranch fuel (buildChildrenMap bs) c
                ((pre ++ (v, pv) :: ext) ++ [(c, pt)])) as [ps1|] eqn:Erun; [|done].
    intros Hrest.
    assert (NoDup (Object_keys ((pre ++ (v, pv) :: ext) ++ [(c, pt)]))) as Hnd1.
    { unfold Object_keys in *. rewrite fmap_app. apply NoDup_app. split; [done|].
      split; [|apply NoDup_singleton]. intros k Hk Hin.
      apply list_elem_of_singleton in Hin. simpl in Hin. by subst. }
    destruct (IHf c _ pt ps1 Hdc Hnd1) as (ext_c & -> & Hnd2 & Hbelow_c & Hexp_c);
      [|exact Erun|].
    { intros k Hk Hbelow_k. unfold Object_keys in Hk. rewrite fmap_app in Hk.
      apply elem_of_app in Hk as [Hk|Hk].
      - fold (Object_keys (pre ++ (v, pv) :: ext)) in Hk. rewrite Hkeys in Hk.
        apply elem_of_app in Hk as [Hk|Hk].
        + apply (Hfresh0 k Hk). exists c. split; [done|].
          destruct Hbelow_k as (c'' & Hcc'' & Hc''k). by eapply rtc_l.
        + apply (Hnot_below k Hk).
          destruct Hbelow_k as (c'' & Hcc'' & Hc''k). by eapply rtc_l.
      - apply list_elem_of_singleton in Hk. simpl in Hk. subst k.
        by eapply (strictlyBelow_irrefl bs ids_distinct rootBranch root_in root_isRoot c). }
    assert ((pre ++ (v, pv) :: ext) ++ (c, pt) :: ext_c
            = pre ++ (v, pv) :: (ext ++ (c, pt) :: ext_c)) as Hshape.
    { by rewrite <- app_assoc. }
    rewrite Hshape in Hrest, Hnd2, Hexp_c.
    apply (IH (done ++ [c]) (ext ++ (c, pt) :: ext_c) ps').
    + by rewrite <- app_assoc.
    + split; [done|]. split; [|split].
      * intros k Hk. unfold Object_keys in Hk. rewrite fmap_app in Hk.
        apply elem_of_app in Hk as [Hk|Hk].
        -- destruct (Hbelow k Hk) as (c' & Hc' & Hc'k). exists c'.
           split; [apply elem_of_app; by left|done].
        -- exists c. split; [apply elem_of_app; right; left|].
           simpl in Hk. apply elem_of_cons in Hk as [->|Hk]; [apply rtc_refl|].
           destruct (Hbelow_c k Hk) as (c'' & Hcc'' & Hc''k). by eapply rtc_l.
      * intros i c0 Hi. rewrite <- Hshape.
        apply lookup_app_Some in Hi as [Hi|[Hlen Hi]].
        -- apply obj_get_app_l. by apply Hplaced.
        -- destruct (i - length done)%nat as [|n] eqn:En; simpl in Hi; [|done].
           injection Hi as <-. assert (i = length done) as -> by lia.
           rewrite obj_get_app. apply obj_get_None in Hc_fresh. rewrite Hc_fresh.
           simpl. by rewrite String.eqb_refl.
      * intros q Hq. unfold Object_keys in Hq. rewrite fmap_app in Hq.
        apply elem_of_app in Hq as [Hq|Hq].
        -- rewrite <- Hshape. apply expandedAt_extend. by apply Hexp.
        -- simpl in Hq. apply Hexp_c. apply elem_of_cons in Hq as [->|Hq]; auto.
    + by rewrite length_app, Nat.add_1_r.
Qed.

(** The walk only adds properties, each once: from a branch [v] that is
    the last property, with no property yet below [v], it appends the
    branches below [v] and places the children of every branch it touches
    by the formula of [positionBranch]. *)
Lemma positionBranch_walk (fuel : nat) :
  ∀ v d pre pv ps',
    depthOf bs rootBranch v d →
    NoDup (Object_keys (pre ++ [(v, pv)])) →
    (∀ k, k ∈ Object_keys (pre ++ [(v, pv)]) → ¬ strictlyBelow bs v k) →
    positionBranch fuel (buildChildrenMap bs) v (pre ++ [(v, pv)]) = Some ps' →
    walkPost bs pre v pv ps'.
Proof.
  induction fuel as [|fuel IHf]; intros v d pre pv ps' Hd Hnd Hfresh; [done|].
  rewrite positionBranch_S. cbv zeta. rewrite buildChildrenMap_lookup.
  assert (obj_get (pre ++ [(v, pv)]) v = Some pv) as Hget.
  { apply obj_get_snoc_fresh. unfold Object_keys in *. rewrite fmap_app in Hnd.
    apply NoDup_app in Hnd as (_ & Hdisj & _). intros Hin.
    apply (Hdisj v Hin). by apply list_elem_of_singleton. }
  rewrite Hget.
  destruct (Nat.eqb (length (childrenOf bs v)) 0) eqn:El.
  - intros [= <-]. apply Nat.eqb_eq, nil_length_inv in El.
    exists []. split; [done|]. split; [done|]. split.
    + intros k Hk. by apply elem_of_nil in Hk.
    + intros q [->|Hq]; [|by apply elem_of_nil in Hq].
      exists pre, pv, []. split; [done|]. intros i c. by rewrite El.
  - intros Hrun.
    destruct (forEach_children fuel v d pre pv
                (startYOf pv (length (childrenOf bs v)))
                (countWhere (λ pos, x pv <? x pos) (pre ++ [(v, pv)]))
                (countWhere (λ pos, x pos <? x pv) (pre ++ [(v, pv)]))
                (λ c pre' pt ps1, IHf c (S d) pre' pt ps1)
                Hd Hfresh (childrenOf bs v) [] [] ps' eq_refl)
      as (ext & -> & Hnd' & Hbelow & Hplaced & Hexp); [|exact Hrun|].
    { split; [done|]. split; [|split].
      - intros k Hk. by apply elem_of_nil in Hk.
      - intros i c Hc. done.
      - intros q Hq. by apply elem_of_nil in Hq. }
    exists ext. split; [done|]. split; [done|]. split.
    + intros k Hk. destruct (Hbelow k Hk) as (c & Hc & Hck). by exists c.
    + intros q [->|Hq]; [|by apply Hexp].
      exists pre, pv, ext. split; [done|]. intros i c Hc. by apply Hplaced.
Qed.
End Walk.

Lemma obj_get_middle {V} (pre rest : JsObject V) (k : string) (v : V) :
  NoDup (Object_keys (pre ++ (k, v) :: rest)) → obj_get (pre ++ (k, v) :: rest) k = Some v.
Proof.
  intros Hnd. apply (obj_get_lookup _ _ _ (length pre)); [done|].
  by rewrite list_lookup_middle.
Qed.

Lemma resolveOverlaps_get (positions : JsObject Point) (k : string) :
  NoDup (Object_keys positions) →
  (∀ p, obj_get positions k = Some p →
        ∃ p', obj_get (resolveOverlaps positions) k = Some p' ∧ x p' = x p) ∧
  (∀ p', obj_get (resolveOverlaps positions) k = Some p' →
         ∃ p, obj_get positions k = Some p ∧ x p' = x p).
Proof.
  intros Hnd.
  assert (NoDup (Object_keys (resolveOverlaps positions))) as Hnd'.
  { by rewrite resolveOverlaps_keys. }
  split.
  - intros p Hp. apply obj_get_Some, list_elem_of_lookup in Hp as [j Hj].
    pose proof (resolveOverlaps_lookup positions Hnd j) as Hres. rewrite Hj in Hres.
    simpl in Hres. eexists. split; [by eapply obj_get_lookup|]. apply resolvedAt_x.
  - intros p' Hp'. apply obj_get_Some, list_elem_of_lookup in Hp' as [j Hj].
    rewrite resolveOverlaps_lookup in Hj by done.
    destruct (positions !! j) as [[k0 p]|] eqn:Ej; [|done]. simpl in Hj.
    injection Hj as -> <-. exists p. split; [by eapply obj_get_lookup|]. apply resolvedAt_x.
Qed.

Lemma childPosition_x (parentPos : Point) (startY R L : Z) (index : nat) :
  x (childPosition parentPos startY R L index) =
  if goRight index R L then x parentPos + 450 else x parentPos - 450.
Proof. unfold childPosition, HORIZONTAL_SPACING. by destruct (goRight index R L). Qed.

Lemma childPosition_y (parentPos : Point) (startY R L : Z) (index : nat) :
  y (childPosition parentPos startY R L index) = startY + 150 * Z.of_nat index.
Proof. unfold childPosition, VERTICAL_SPACING. simpl. lia. Qed.

Lemma goRight_succ (index : nat) (R L : Z) :
  goRight (S index) R L = negb (goRight index R L).
Proof.
  unfold goRight.
  replace (S index mod 2)%nat with ((1 + index mod 2) mod 2)%nat
    by (rewrite Nat.Div0.add_mod_idemp_r; done).
  pose proof (Nat.mod_upper_bound index 2) as Hlt.
  destruct (index mod 2)%nat as [|[|n]]; simpl; [apply Z.ltb_antisym|apply Z.leb_antisym|lia].
Qed.

Section LayoutSpec.
Variable conversation : Conversation.
Let bs := Object_values (branches conversation).
Hypothesis ids_distinct : NoDup (branch_id <$> bs).
Variable rootBranch : Branch.
Hypothesis root_found : find isRoot bs = Some rootBranch.
Hypothesis ids_named : Forall (λ b, arrayIndex (branch_id b) = None) bs.

(** The positions before the overlap pass: the root first, every property
    once, and every positioned branch expanded by the rule of
    [positionBranch]. *)
Lemma layout_placed :
  ∃ placed,
    positionBranch (length bs) (buildChildrenMap bs) (branch_id rootBranch)
      (obj_set [] (branch_id rootBranch) (canvasCenter conversation)) = Some placed ∧
    calculateOptimalBranchPositions conversation = Some (resolveOverlaps placed) ∧
    NoDup (Object_keys placed) ∧
    (∀ q, q ∈ Object_keys placed → expandedAt bs placed q).
Proof.
  destruct (find_isRoot_Some _ _ root_found) as [Hin Hroot].
  destruct (layout_walk conversation ids_distinct rootBranch root_found ids_named)
    as (rest & Hwalk & Hnd & _).
  fold bs in Hwalk.
  exists ((branch_id rootBranch, canvasCenter conversation) :: rest).
  split; [by rewrite obj_set_nil|]. split.
  { unfold calculateOptimalBranchPositions. fold bs. rewrite root_found. cbv zeta.
    by rewrite obj_set_nil, Hwalk. }
  split; [exact Hnd|].
  destruct (positionBranch_walk bs ids_distinct rootBranch Hin Hroot ids_named (length bs)
              (branch_id rootBranch) 0 [] (canvasCenter conversation)
              ((branch_id rootBranch, canvasCenter conversation) :: rest)
              (depthOf_root _ _)) as (ext & Heq & _ & _ & Hexp); [..|exact Hwalk|].
  - apply NoDup_singleton.
  - intros k Hk. apply list_elem_of_singleton in Hk as ->.
    apply (strictlyBelow_irrefl bs ids_distinct rootBranch Hin Hroot _ 0). constructor.
  - intros q Hq. apply Hexp. simpl in Heq. injection Heq as ->.
    unfold Object_keys in Hq. simpl in Hq. apply elem_of_cons in Hq as [->|Hq]; auto.
Qed.
End LayoutSpec.

Lemma expandedAt_lookup (bs : list Branch) (placed : JsObject Point) (j : nat)
    (p : string) (pp : Point) :
  NoDup (Object_keys placed) → expandedAt bs placed p → placed !! j = Some (p, pp) →
  ∀ i c, childrenOf bs p !! i = Some c →
    obj_get placed c =
    Some (childPosition pp (startYOf pp (length (childrenOf bs p)))
            (countWhere (λ pos, x pp <? x pos) (take (S j) placed))
            (countWhere (λ pos, x pos <? x pp) (take (S j) placed)) i).
Proof.
  intros Hnd (pre & pp0 & rest & Heq & Hkids) Hj.
  assert (placed !! length pre = Some (p, pp0)) as Hpre.
  { rewrite Heq. apply list_lookup_middle. done. }
  assert (j = length pre) as ->.
  { eapply NoDup_lookup; [exact Hnd| |]; unfold Object_keys; rewrite list_lookup_fmap.
    - by rewrite Hj.
    - by rewrite Hpre. }
  rewrite Hpre in Hj. injection Hj as ->.
  assert (take (S (length pre)) placed = pre ++ [(p, pp)]) as ->; [|done].
  rewrite Heq. rewrite take_app_ge by lia.
  replace (S (length pre) - length pre)%nat with 1%nat by lia. done.
Qed.

(** X1: for every branch mapping that stores each branch once, under its
    own id, with plain ids (no branch id an array index, no id or parent id
    the name of an inherited member), whatever its parent links (cycles
    and dangling parents included), the layout returns; its result has
    each key once, and every key is the id of a branch of the mapping. *)
Theorem layout_returns_for_any_parent_links (conversation : Conversation) :
  wfBranches (branches conversation) →
  plainIds (Object_values (branches conversation)) →
  ∃ positions,
    calculateOptimalBranchPositions conversation = Some positions ∧
    NoDup (Object_keys positions) ∧
    ∀ k, k ∈ Object_keys positions → k ∈ Object_keys (branches conversation).
Proof.
  intros Hwf Hplain. pose proof (wfBranches_ids _ Hwf) as Hids.
  pose proof (plainIds_named _ Hplain) as Hnamed.
  destruct (find isRoot (Object_values (branches conversation))) as [r|] eqn:Er.
  - destruct (layout_placed conversation Hids r Er Hnamed)
      as (placed & Hwalk & Hcalc & Hnd & _).
    destruct (calculateOptimalBranchPositions_root conversation Hids r Er Hnamed)
      as (_ & _ & rest' & Hcalc' & Hkeys).
    exists (resolveOverlaps placed). split; [done|]. split.
    + by rewrite resolveOverlaps_keys.
    + intros k Hk. rewrite Hcalc in Hcalc'. injection Hcalc' as Heq.
      apply obj_get_is_Some in Hk. rewrite Heq in Hk. apply Hkeys in Hk.
      destruct (find_isRoot_Some _ _ Er) as [Hin Hroot].
      apply (descendsFrom_depthOf _ r) in Hk as [n Hn].
      rewrite <- wfBranches_keys by done. eapply depthOf_id; [exact Hin|exact Hn].
  - exists []. split; [|split].
    + unfold calculateOptimalBranchPositions. by rewrite Er.
    + apply NoDup_nil_2.
    + intros k Hk. by apply elem_of_nil in Hk.
Qed.

(** X2: for plain ids, the branches that get a position are exactly those
    reachable from the first parentless branch through parent links. *)
Theorem positioned_iff_below_root (conversation : Conversation) (rootBranch : Branch) :
  wfBranches (branches conversation) →
  plainIds (Object_values (branches conversation)) →
  find isRoot (Object_values (branches conversation)) = Some rootBranch →
  ∃ positions,
    calculateOptimalBranchPositions conversation = Some positions ∧
    ∀ u, is_Some (obj_get positions u)
         ↔ descendsFrom (Object_values (branches conversation)) (branch_id rootBranch) u.
Proof.
  intros Hwf Hplain Hfind.
  destruct (calculateOptimalBranchPositions_root conversation (wfBranches_ids _ Hwf)
              rootBranch Hfind (plainIds_named _ Hplain))
    as (_ & _ & rest' & Hcalc & Hkeys).
  eexists. split; [exact Hcalc|exact Hkeys].
Qed.

(** X3: for plain ids, before the overlap pass every child sits where
    the formula of [positionBranch] puts it: for a positioned branch [p],
    enumerated
    [j]-th, with [k] children, its [i]-th child is at
    [y = p.y - max(150 k, 380) / 2 + 75 + 150 i] and at [x = p.x ± 450],
    the side being chosen from [i] and from the numbers of blocks to the
    right and to the left of [p] among the blocks enumerated up to [p]. *)
Theorem children_placed_by_formula (conversation : Conversation) (rootBranch : Branch) :
  wfBranches (branches conversation) →
  plainIds (Object_values (branches conversation)) →
  find isRoot (Object_values (branches conversation)) = Some rootBranch →
  ∃ placed,
    positionBranch (length (Object_values (branches conversation)))
      (buildChildrenMap (Object_values (branches conversation)))
      (branch_id rootBranch)
      (obj_set [] (branch_id rootBranch) (canvasCenter conversation)) = Some placed ∧
    calculateOptimalBranchPositions conversation = Some (resolveOverlaps placed) ∧
    ∀ j p pp i c,
      placed !! j = Some (p, pp) →
      childrenOf (Object_values (branches conversation)) p !! i = Some c →
      ∃ pc,
        obj_get placed c = Some pc ∧
        pc = childPosition pp
               (startYOf pp (length (childrenOf (Object_values (branches conversation)) p)))
               (countWhere (λ pos, x pp <? x pos) (take (S j) placed))
               (countWhere (λ pos, x pos <? x pp) (take (S j) placed)) i ∧
        (x pc = x pp + 450 ∨ x pc = x pp - 450) ∧
        y pc = y pp
               - Z.max (150 * Z.of_nat
                          (length (childrenOf (Object_values (branches conversation)) p)))
                   380 / 2
               + 75 + 150 * Z.of_nat i.
Proof.
  intros Hwf Hplain Hfind.
  destruct (layout_placed conversation (wfBranches_ids _ Hwf) rootBranch Hfind
              (plainIds_named _ Hplain))
    as (placed & Hwalk & Hcalc & Hnd & Hexp).
  exists placed. split; [done|]. split; [done|].
  intros j p pp i c Hj Hc. eexists. split.
  - eapply expandedAt_lookup; [done| |exact Hj|exact Hc].
    apply Hexp. unfold Object_keys. apply list_elem_of_fmap. exists (p, pp).
    split; [done|]. by eapply list_elem_of_lookup_2.
  - split; [done|]. split.
    + rewrite childPosition_x. destruct (goRight _ _ _); auto.
    + rewrite childPosition_y. unfold startYOf, VERTICAL_SPACING, BLOCK_HEIGHT.
      change (150 / 2) with 75. rewrite (Z.mul_comm (Z.of_nat (length _)) 150). lia.
Qed.

Lemma goRight_same_parity (i j : nat) (R L : Z) :
  (i mod 2 = j mod 2)%nat → goRight i R L = goRight j R L.
Proof. unfold goRight. by intros ->. Qed.

Lemma goRight_other_parity (i j : nat) (R L : Z) :
  (i mod 2 ≠ j mod 2)%nat → goRight i R L = negb (goRight j R L).
Proof.
  unfold goRight. intros Hne.
  pose proof (Nat.mod_upper_bound i 2). pose proof (Nat.mod_upper_bound j 2).
  destruct (i mod 2)%nat as [|[|?]], (j mod 2)%nat as [|[|?]]; simpl; lia.
Qed.

(** In the returned layout the children of a positioned branch are all
    positioned, on the side [goRight] gives them for one pair of side
    counts. *)
Lemma layout_children_sides (conversation : Conversation) (rootBranch : Branch) :
  wfBranches (branches conversation) →
  Forall (λ b, arrayIndex (branch_id b) = None) (Object_values (branches conversation)) →
  find isRoot (Object_values (branches conversation)) = Some rootBranch →
  ∃ positions,
    calculateOptimalBranchPositions conversation = Some positions ∧
    ∀ p pp, obj_get positions p = Some pp →
      ∃ R L, ∀ i c,
        childrenOf (Object_values (branches conversation)) p !! i = Some c →
        ∃ pc, obj_get positions c = Some pc ∧
              x pc = if goRight i R L then x pp + 450 else x pp - 450.
Proof.
  intros Hwf Hnamed Hfind.
  destruct (layout_placed conversation (wfBranches_ids _ Hwf) rootBranch Hfind Hnamed)
    as (placed & _ & Hcalc & Hnd & Hexp).
  exists (resolveOverlaps placed). split; [done|].
  intros p pp Hp.
  destruct (resolveOverlaps_get placed p Hnd) as [_ Hback].
  destruct (Hback pp Hp) as (pp0 & Hpp0 & Hx).
  pose proof (obj_get_Some _ _ _ Hpp0) as Hin.
  apply list_elem_of_lookup in Hin as [j Hj].
  eexists _, _. intros i c Hc.
  assert (expandedAt (Object_values (branches conversation)) placed p) as Hp_exp.
  { apply Hexp. unfold Object_keys. apply list_elem_of_fmap. exists (p, pp0).
    split; [done|]. by eapply list_elem_of_lookup_2. }
  pose proof (expandedAt_lookup _ placed j p pp0 Hnd Hp_exp Hj i c Hc) as Hc_placed.
  destruct (resolveOverlaps_get placed c Hnd) as [Hfwd _].
  destruct (Hfwd _ Hc_placed) as (pc & Hpc & Hxc).
  exists pc. split; [done|]. by rewrite Hxc, childPosition_x, Hx.
Qed.

(** X4: for plain ids, in the returned layout every child of a positioned
    branch is positioned, exactly 450 to the right or to the left of its
    parent. *)
Theorem child_is_one_column_from_parent
    (conversation : Conversation) (rootBranch : Branch) (p c : string) :
  wfBranches (branches conversation) →
  plainIds (Object_values (branches conversation)) →
  find isRoot (Object_values (branches conversation)) = Some rootBranch →
  isChild (Object_values (branches conversation)) p c →
  ∃ positions,
    calculateOptimalBranchPositions conversation = Some positions ∧
    ∀ pp, obj_get positions p = Some pp →
      ∃ pc, obj_get positions c = Some pc ∧ (x pc = x pp + 450 ∨ x pc = x pp - 450).
Proof.
  intros Hwf Hplain Hfind Hc.
  destruct (layout_children_sides conversation rootBranch Hwf (plainIds_named _ Hplain) Hfind)
    as (positions & Hcalc & Hsides).
  exists positions. split; [done|]. intros pp Hp.
  destruct (Hsides p pp Hp) as (R & L & Hkids).
  apply list_elem_of_lookup in Hc as [i Hi].
  destruct (Hkids i c Hi) as (pc & Hpc & Hx). exists pc. split; [done|].
  rewrite Hx. destruct (goRight i R L); auto.
Qed.

(** X5: siblings alternate sides: for plain ids, in the returned layout
    two children of the same branch whose indices in enumeration order
    have the same parity are in the same column, and two whose indices
    differ in parity are in the two columns on either side of the
    parent. *)
Theorem siblings_alternate_sides
    (conversation : Conversation) (rootBranch : Branch) (p : string)
    (i j : nat) (ci cj : string) :
  wfBranches (branches conversation) →
  plainIds (Object_values (branches conversation)) →
  find isRoot (Object_values (branches conversation)) = Some rootBranch →
  childrenOf (Object_values (branches conversation)) p !! i = Some ci →
  childrenOf (Object_values (branches conversation)) p !! j = Some cj →
  ∃ positions,
    calculateOptimalBranchPositions conversation = Some positions ∧
    ∀ pp, obj_get positions p = Some pp →
      ∃ pi pj,
        obj_get positions ci = Some pi ∧ obj_get positions cj = Some pj ∧
        if decide (i mod 2 = j mod 2)%nat then x pi = x pj
        else x pi + x pj = 2 * x pp ∧ x pi ≠ x pj.
Proof.
  intros Hwf Hplain Hfind Hi Hj.
  destruct (layout_children_sides conversation rootBranch Hwf (plainIds_named _ Hplain) Hfind)
    as (positions & Hcalc & Hsides).
  exists positions. split; [done|]. intros pp Hp.
  destruct (Hsides p pp Hp) as (R & L & Hkids).
  destruct (Hkids i ci Hi) as (pi & Hpi & Hxi).
  destruct (Hkids j cj Hj) as (pj & Hpj & Hxj).
  exists pi, pj. split; [done|]. split; [done|].
  case_decide as Hpar.
  - by rewrite Hxi, Hxj, (goRight_same_parity i j).
  - rewrite Hxi, Hxj, (goRight_other_parity i j) by done.
    destruct (goRight j R L); simpl; lia.
Qed.

Lemma layout_returns_for_any_parent_links_witness :
  ∃ positions,
    calculateOptimalBranchPositions cyclicConversation = Some positions ∧
    NoDup (Object_keys positions) ∧
    ∀ k, k ∈ Object_keys positions → k ∈ Object_keys (branches cyclicConversation).
Proof.
  apply (layout_returns_for_any_parent_links cyclicConversation).
  - apply wfBranches_decide; reflexivity.
  - reflexivity.
Defined.

Lemma positioned_iff_below_root_witness :
  ∃ positions,
    calculateOptimalBranchPositions cyclicConversation = Some positions ∧
    ∀ u, is_Some (obj_get positions u)
         ↔ descendsFrom (Object_values (branches cyclicConversation)) "main" u.
Proof.
  apply (positioned_iff_below_root cyclicConversation (exampleBranch "main" None).2).
  - apply wfBranches_decide; reflexivity.
  - reflexivity.
  - reflexivity.
Defined.

Lemma children_placed_by_formula_witness :
  ∃ placed,
    positionBranch 6 (buildChildrenMap (Object_values (branches nestedConversation)))
      "main" (obj_set [] "main" {| x := 800; y := 400 |}) = Some placed ∧
    calculateOptimalBranchPositions nestedConversation = Some (resolveOverlaps placed) ∧
    ∀ j p pp i c,
      placed !! j = Some (p, pp) →
      childrenOf (Object_values (branches nestedConversation)) p !! i = Some c →
      ∃ pc,
        obj_get placed c = Some pc ∧
        pc = childPosition pp
               (startYOf pp (length (childrenOf (Object_values (branches nestedConversation)) p)))
               (countWhere (λ pos, x pp <? x pos) (take (S j) placed))
               (countWhere (λ pos, x pos <? x pp) (take (S j) placed)) i ∧
        (x pc = x pp + 450 ∨ x pc = x pp - 450) ∧
        y pc = y pp
               - Z.max (150 * Z.of_nat
                          (length (childrenOf (Object_values (branches nestedConversation)) p)))
                   380 / 2
               + 75 + 150 * Z.of_nat i.
Proof.
  apply (children_placed_by_formula nestedConversation (exampleBranch "main" None).2).
  - apply wfBranches_decide; reflexivity.
  - reflexivity.
  - reflexivity.
Defined.

Lemma child_is_one_column_from_parent_witness :
  ∃ positions,
    calculateOptimalBranchPositions nestedConversation = Some positions ∧
    ∀ pp, obj_get positions "a" = Some pp →
      ∃ pc, obj_get positions "a2" = Some pc ∧ (x pc = x pp + 450 ∨ x pc = x pp - 450).
Proof.
  apply (child_is_one_column_from_parent nestedConversation
           (exampleBranch "main" None).2 "a" "a2").
  - apply wfBranches_decide; reflexivity.
  - reflexivity.
  - reflexivity.
  - unfold isChild. vm_compute. right. left.
Defined.

Lemma siblings_alternate_sides_witness :
  ∃ positions,
    calculateOptimalBranchPositions nestedConversation = Some positions ∧
    ∀ pp, obj_get positions "main" = Some pp →
      ∃ pi pj,
        obj_get positions "a" = Some pi ∧ obj_get positions "b" = Some pj ∧
        x pi + x pj = 2 * x pp ∧ x pi ≠ x pj.
Proof.
  apply (siblings_alternate_sides nestedConversation
           (exampleBranch "main" None).2 "main" 0 1 "a" "b").
  - apply wfBranches_decide; reflexivity.
  - reflexivity.
  - reflexivity.
  - reflexivity.
  - reflexivity.
Defined.

(** ** More on the overlap pass *)

(** X6: a layout in which no two blocks overlap is returned as it is. *)
Theorem resolveOverlaps_without_overlap (positions : JsObject Point) :
  NoDup (Object_keys positions) →
  (∀ i j id1 pos1 id2 pos2,
     (i < j)%nat → positions !! i = Some (id1, pos1) → positions !! j = Some (id2, pos2) →
     overlapping pos1 pos2 = false) →
  resolveOverlaps positions = positions.
Proof.
  intros Hnd Hnone. apply list_eq. intros j. rewrite resolveOverlaps_lookup by done.
  destruct (positions !! j) as [[id2 pos2]|] eqn:Ej; [|done]. simpl.
  rewrite resolvedAt_none; [done|].
  intros pos1 Hin. apply earlier_positions in Hin as (i & id1 & Hlt & Hi). eauto.
Qed.

Lemma resolveOverlaps_without_overlap_witness :
  resolveOverlaps [("main", {| x := 800; y := 400 |}); ("a", {| x := 1250; y := 285 |})]
  = [("main", {| x := 800; y := 400 |}); ("a", {| x := 1250; y := 285 |})].
Proof.
  apply resolveOverlaps_without_overlap.
  - apply (bool_decide_eq_true_1 _). reflexivity.
  - intros i j id1 pos1 id2 pos2 Hlt Hi Hj.
    destruct i as [|[|i]]; [|destruct j as [|[|j]]; try lia; done|done].
    destruct j as [|[|j]]; [lia| |done]. simpl in Hi, Hj.
    injection Hi as <- <-. injection Hj as <- <-. reflexivity.
Defined.

(** X7: the pass keeps the keys and their enumeration order, keeps every
    block's x, and never moves the block enumerated first. *)
Theorem resolveOverlaps_keeps_keys_and_first (positions : JsObject Point) :
  NoDup (Object_keys positions) →
  Object_keys (resolveOverlaps positions) = Object_keys positions ∧
  (∀ k p, obj_get positions k = Some p →
     ∃ p', obj_get (resolveOverlaps positions) k = Some p' ∧ x p' = x p) ∧
  (∀ k p rest, positions = (k, p) :: rest →
     ∃ rest', resolveOverlaps positions = (k, p) :: rest').
Proof.
  intros Hnd. split; [by apply resolveOverlaps_keys|]. split.
  - intros k p. by apply resolveOverlaps_get.
  - intros k p rest. by apply resolveOverlaps_head.
Qed.

Lemma resolveOverlaps_keeps_keys_and_first_witness :
  Object_keys (resolveOverlaps fiveChildrenPlaced) = Object_keys fiveChildrenPlaced ∧
  (∀ k p, obj_get fiveChildrenPlaced k = Some p →
     ∃ p', obj_get (resolveOverlaps fiveChildrenPlaced) k = Some p' ∧ x p' = x p) ∧
  (∀ k p rest, fiveChildrenPlaced = (k, p) :: rest →
     ∃ rest', resolveOverlaps fiveChildrenPlaced = (k, p) :: rest').
Proof.
  apply resolveOverlaps_keeps_keys_and_first.
  apply (bool_decide_eq_true_1 _). reflexivity.
Defined.

Lemma moved_clears (pos1 pos2 : Point) : overlapping pos1 (moved pos1 pos2) = false.
Proof.
  unfold overlapping, moved, BLOCK_HEIGHT, BLOCK_WIDTH, MIN_SPACING.
  apply andb_false_iff. right. apply Z.ltb_ge.
  destruct (y pos1 <=? y pos2); simpl; lia.
Qed.

(** X8: with two blocks the pass does its job: the first block stays, the
    second is moved exactly when the two overlap, and the two blocks of the
    result do not overlap. *)
Theorem resolveOverlaps_two_blocks (a b : string) (p q : Point) :
  a ≠ b →
  ∃ q',
    resolveOverlaps [(a, p); (b, q)] = [(a, p); (b, q')] ∧
    q' = (if overlapping p q then moved p q else q) ∧
    overlapping p q' = false.
Proof.
  intros Hne.
  assert (NoDup (Object_keys [(a, p); (b, q)])) as Hnd.
  { unfold Object_keys. simpl. apply NoDup_cons. split; [|apply NoDup_singleton].
    intros Hin. by apply list_elem_of_singleton in Hin. }
  rewrite resolveOverlaps_imap by done.
  exists (if overlapping p q then moved p q else q). split; [done|]. split; [done|].
  destruct (overlapping p q) eqn:E; [apply moved_clears|done].
Qed.

Lemma resolveOverlaps_two_blocks_witness :
  ∃ q',
    resolveOverlaps twoBlocks = [("a", {| x := 0; y := 0 |}); ("b", q')] ∧
    q' = {| x := 0; y := 430 |} ∧
    overlapping {| x := 0; y := 0 |} q' = false.
Proof. apply (resolveOverlaps_two_blocks "a" "b"). discriminate. Defined.

(** ** More on the edge geometry *)

(** X9: the box of a connection line contains both anchors with a margin
    of 50 on every side: it starts 50 before the smaller and ends 50 after
    the larger coordinate of the two anchors, so it is at least 100 wide
    and 100 high, and the anchors are at the vertical centres of the two
    blocks. *)
Theorem connection_box_contains_anchors (parentBranch branch : Branch) :
  let c := connectionFor parentBranch branch in
  startY (points c) = y (position parentBranch) ∧
  endY (points c) = y (position branch) ∧
  minX c + 50 <= startX (points c) <= maxX c - 50 ∧
  minX c + 50 <= endX (points c) <= maxX c - 50 ∧
  minY c + 50 <= startY (points c) <= maxY c - 50 ∧
  minY c + 50 <= endY (points c) <= maxY c - 50 ∧
  maxX c - minX c = Z.abs (endX (points c) - startX (points c)) + 100 ∧
  maxY c - minY c = Z.abs (y (position branch) - y (position parentBranch)) + 100.
Proof.
  assert (startY (calculateConnectionPoints parentBranch branch) = y (position parentBranch)
          ∧ endY (calculateConnectionPoints parentBranch branch) = y (position branch))
    as [Hs He].
  { unfold calculateConnectionPoints.
    destruct (x (position parentBranch) <? x (position branch)); [done|].
    by destruct (x (position branch) <? x (position parentBranch)). }
  unfold connectionFor. cbn [points minX maxX minY maxY].
  set (cp := calculateConnectionPoints parentBranch branch) in *.
  rewrite <- Hs, <- He. repeat split; lia.
Qed.

(** X10: blocks in the same column are joined centre to centre: both
    anchors are at the blocks' own x, the control offset is 80, and the
    control points lie 80 to the left of the start and 80 to the right of
    the end. *)
Theorem connection_same_column (parentBranch branch : Branch) :
  x (position branch) = x (position parentBranch) →
  let c := connectionFor parentBranch branch in
  startX (points c) = x (position parentBranch) ∧
  endX (points c) = x (position branch) ∧
  (controlOffset c == inject_Z 80)%Q ∧
  (controlX1 c == inject_Z (x (position parentBranch)) - inject_Z 80)%Q ∧
  (controlX2 c == inject_Z (x (position branch)) + inject_Z 80)%Q.
Proof.
  intros Hx. unfold connectionFor, calculateConnectionPoints. rewrite Hx.
  rewrite Z.ltb_irrefl. cbn [points startX endX controlOffset controlX1 controlX2].
  rewrite Z.ltb_irrefl, Z.sub_diag. simpl Z.abs.
  assert (Qmin (Qmax (inject_Z 0 * (3 # 10)) (inject_Z 80)) (inject_Z 150) == inject_Z 80)%Q
    as Hoff by reflexivity.
  repeat split; try done; rewrite Hoff; ring.
Qed.

Lemma connection_same_column_witness :
  let c := connectionFor (edgeBlock 0 0) (edgeBlock 0 430) in
  startX (points c) = 0 ∧ endX (points c) = 0 ∧
  (controlOffset c == inject_Z 80)%Q ∧
  (controlX1 c == inject_Z 0 - inject_Z 80)%Q ∧
  (controlX2 c == inject_Z 0 + inject_Z 80)%Q.
Proof. apply (connection_same_column (edgeBlock 0 0) (edgeBlock 0 430)). reflexivity. Defined.

Lemma clamp_low (d : Z) :
  d <= 266 →
  (Qmin (Qmax (inject_Z d * (3 # 10)) (inject_Z 80)) (inject_Z 150) == inject_Z 80)%Q.
Proof.
  intros Hd.
  assert (inject_Z d * (3 # 10) <= inject_Z 80)%Q as H1.
  { unfold Qle, Qmult, inject_Z. simpl. lia. }
  rewrite Q.max_r by done. by rewrite Q.min_l.
Qed.

(** X11: the control offset as a function of the horizontal distance [d]
    between the two anchors: 80 up to [d = 266], [0.3 d] from 267 to 500,
    and 150 from 500 on. *)
Theorem controlOffset_by_distance (parentBranch branch : Branch) :
  let c := connectionFor parentBranch branch in
  let d := Z.abs (endX (points c) - startX (points c)) in
  (d <= 266 → (controlOffset c == inject_Z 80)%Q) ∧
  (267 <= d <= 500 → (controlOffset c == inject_Z d * (3 # 10))%Q) ∧
  (500 <= d → (controlOffset c == inject_Z 150)%Q).
Proof.
  unfold connectionFor. cbn [points controlOffset].
  set (d := Z.abs (endX _ - startX _)). split; [|split].
  - apply clamp_low.
  - intros [Hlo Hhi].
    assert (inject_Z 80 <= inject_Z d * (3 # 10))%Q as H1.
    { unfold Qle, Qmult, inject_Z. simpl. lia. }
    assert (inject_Z d * (3 # 10) <= inject_Z 150)%Q as H2.
    { unfold Qle, Qmult, inject_Z. simpl. lia. }
    rewrite Q.max_l by done. by rewrite Q.min_l.
  - intros Hd.
    assert (inject_Z 150 <= inject_Z d * (3 # 10))%Q as H1.
    { unfold Qle, Qmult, inject_Z. simpl. lia. }
    assert (inject_Z 80 <= inject_Z d * (3 # 10))%Q as H2.
    { unfold Qle, Qmult, inject_Z. simpl. lia. }
    rewrite Q.max_l by done. by rewrite Q.min_r.
Qed.

(** X12: for plain ids, every line between a positioned branch and its
    child in the returned layout has its anchors 130 apart horizontally,
    the parent's right edge to the child's left edge or the mirror image,
    and so gets the control offset 80. *)
Theorem layout_edges_have_offset_80
    (conversation : Conversation) (rootBranch : Branch) (p c : string) :
  wfBranches (branches conversation) →
  plainIds (Object_values (branches conversation)) →
  find isRoot (Object_values (branches conversation)) = Some rootBranch →
  isChild (Object_values (branches conversation)) p c →
  ∃ positions,
    calculateOptimalBranchPositions conversation = Some positions ∧
    ∀ parentBranch, obj_get positions p = Some (position parentBranch) →
      ∃ pc, obj_get positions c = Some pc ∧
        ∀ branch, position branch = pc →
          let e := connectionFor parentBranch branch in
          Z.abs (endX (points e) - startX (points e)) = 130 ∧
          Z.abs (startX (points e) - x (position parentBranch)) = 160 ∧
          Z.abs (endX (points e) - x (position branch)) = 160 ∧
          (controlOffset e == inject_Z 80)%Q.
Proof.
  intros Hwf Hplain Hfind Hc.
  destruct (layout_children_sides conversation rootBranch Hwf (plainIds_named _ Hplain) Hfind)
    as (positions & Hcalc & Hsides).
  exists positions. split; [done|]. intros parentBranch Hp.
  destruct (Hsides p _ Hp) as (R & L & Hkids).
  apply list_elem_of_lookup in Hc as [i Hi].
  destruct (Hkids i c Hi) as (pc & Hpc & Hx). exists pc. split; [done|].
  intros branch Hpos e.
  assert (Z.abs (endX (points e) - startX (points e)) = 130 ∧
          Z.abs (startX (points e) - x (position parentBranch)) = 160 ∧
          Z.abs (endX (points e) - x (position branch)) = 160) as (H1 & H2 & H3).
  { subst e. unfold connectionFor, calculateConnectionPoints, BLOCK_HALF_WIDTH.
    cbn [points]. rewrite Hpos, Hx.
    destruct (goRight i R L).
    - assert ((x (position parentBranch) <? x (position parentBranch) + 450) = true) as ->
        by (apply Z.ltb_lt; lia).
      cbn [startX endX]. lia.
    - assert ((x (position parentBranch) <? x (position parentBranch) - 450) = false) as ->
        by (apply Z.ltb_ge; lia).
      assert ((x (position parentBranch) - 450 <? x (position parentBranch)) = true) as ->
        by (apply Z.ltb_lt; lia).
      cbn [startX endX]. lia. }
  split; [done|]. split; [done|]. split; [done|].
  subst e. unfold connectionFor in *. cbn [points controlOffset] in *.
  apply clamp_low. lia.
Qed.

Lemma layout_edges_have_offset_80_witness :
  ∃ positions,
    calculateOptimalBranchPositions nestedConversation = Some positions ∧
    ∀ parentBranch, obj_get positions "a" = Some (position parentBranch) →
      ∃ pc, obj_get positions "a2" = Some pc ∧
        ∀ branch, position branch = pc →
          let e := connectionFor parentBranch branch in
          Z.abs (endX (points e) - startX (points e)) = 130 ∧
          Z.abs (startX (points e) - x (position parentBranch)) = 160 ∧
          Z.abs (endX (points e) - x (position branch)) = 160 ∧
          (controlOffset e == inject_Z 80)%Q.
Proof.
  apply (layout_edges_have_offset_80 nestedConversation
           (exampleBranch "main" None).2 "a" "a2").
  - apply wfBranches_decide; reflexivity.
  - reflexivity.
  - reflexivity.
  - unfold isChild. vm_compute. right. left.
Defined.

(** ** Handlers and the tree they maintain *)

Lemma handleSendMessage_eq (content' : string) (now : N) (c : Conversation) (ab : Branch) :
  obj_get (branches c) (activeBranchId c) = Some ab →
  handleSendMessage content' now c =
  {| conversation_id := conversation_id c;
     title := title c;
     lastMessage := content';
     branches := obj_set (branches c) (branch_id ab) (sentBranch content' now ab);
     activeBranchId := activeBranchId c;
     canvasCenter := canvasCenter c |}.
Proof. intros H. unfold handleSendMessage. by rewrite H. Qed.

Lemma wfBranches_get_id (bs : JsObject Branch) (k : string) (b : Branch) :
  wfBranches bs → obj_get bs k = Some b → branch_id b = k.
Proof.
  intros (_ & Hid & _) Hk. apply obj_get_Some in Hk.
  rewrite Forall_forall in Hid. by apply (Hid (k, b)).
Qed.

Lemma childrenOf_shape (bs1 bs2 : list Branch) (p : string) :
  shape <$> bs1 = shape <$> bs2 → childrenOf bs1 p = childrenOf bs2 p.
Proof.
  unfold childrenOf. revert bs2.
  induction bs1 as [|b1 bs1 IH]; intros [|b2 bs2] H; try done.
  simpl in H. injection H as Hid Hp Hbs. specialize (IH _ Hbs).
  rewrite !filter_cons, Hp. case_decide; rewrite ?fmap_cons, ?Hid. all: by rewrite IH.
Qed.

Lemma descendsFrom_shape (bs1 bs2 : list Branch) (a u : string) :
  shape <$> bs1 = shape <$> bs2 → descendsFrom bs1 a u → descendsFrom bs2 a u.
Proof.
  intros Hshape. apply rtc_subrel. intros p c. unfold isChild.
  by rewrite (childrenOf_shape bs1 bs2).
Qed.

Lemma layout_of_shape (c1 c2 : Conversation) :
  shape <$> Object_values (branches c1) = shape <$> Object_values (branches c2) →
  canvasCenter c1 = canvasCenter c2 →
  calculateOptimalBranchPositions c1 = calculateOptimalBranchPositions c2.
Proof.
  intros Hshape Hcenter. unfold calculateOptimalBranchPositions.
  rewrite (buildChildrenMap_shape _ _ Hshape), Hcenter.
  replace (length (Object_values (branches c1)))
    with (length (Object_values (branches c2)))
    by (by rewrite <- (length_fmap shape), <- Hshape, length_fmap).
  pose proof (find_isRoot_shape _ _ Hshape) as Hroot.
  destruct (find isRoot (Object_values (branches c1))) as [r1|],
           (find isRoot (Object_values (branches c2))) as [r2|]; try done.
  simpl in Hroot. injection Hroot as ->. done.
Qed.

Lemma obj_set_shape (bs : JsObject Branch) (k : string) (b b' : Branch) :
  obj_get bs k = Some b → shape b' = shape b →
  shape <$> Object_values (obj_set bs k b') = shape <$> Object_values bs.
Proof.
  unfold Object_values. intros Hk Hshape. rewrite obj_set_present by done.
  induction bs as [|[k0 b0] bs IH]; [done|]. cbn [obj_get obj_put] in *.
  destruct (String.eqb k0 k) eqn:E.
  - injection Hk as ->. rewrite !fmap_cons. cbn [snd]. by rewrite Hshape.
  - rewrite !fmap_cons. cbn [snd]. f_equal. by apply IH.
Qed.

Lemma repositioned_shape (newPositions : JsObject Point) (c : Conversation) :
  shape <$> Object_values (branches (repositioned newPositions c))
  = shape <$> Object_values (branches c).
Proof.
  unfold repositioned, Object_values. cbn [branches].
  rewrite <- !list_fmap_compose. apply list_fmap_ext. by intros i [k b] _.
Qed.

Lemma repositioned_keys (newPositions : JsObject Point) (c : Conversation) :
  Object_keys (branches (repositioned newPositions c)) = Object_keys (branches c).
Proof.
  unfold repositioned, Object_keys. cbn [branches].
  rewrite <- !list_fmap_compose. apply list_fmap_ext. by intros i [k b] _.
Qed.

Lemma childrenOf_app (bs1 bs2 : list Branch) (p : string) :
  childrenOf (bs1 ++ bs2) p = childrenOf bs1 p ++ childrenOf bs2 p.
Proof. unfold childrenOf. by rewrite filter_app, fmap_app. Qed.

Lemma descendsFrom_app (bs1 bs2 : list Branch) (a u : string) :
  descendsFrom bs1 a u → descendsFrom (bs1 ++ bs2) a u.
Proof.
  apply rtc_subrel. intros p c. unfold isChild. rewrite childrenOf_app.
  intros H. apply elem_of_app. by left.
Qed.

Lemma builtFresh_built (c : Conversation) : builtFresh c → built c.
Proof.
  induction 1; [apply built_empty|apply built_sample|by apply built_send
               |by apply built_switch|by eapply built_create].
Qed.

Lemma mainIsRoot_nonempty (bs : JsObject Branch) (k : string) (b : Branch) :
  mainIsRoot bs → obj_get bs k = Some b → k ≠ "".
Proof.
  intros [Hall _] Hk. apply obj_get_Some in Hk. rewrite Forall_forall in Hall.
  by destruct (Hall _ Hk).
Qed.

Lemma mainIsRoot_first (bs : JsObject Branch) :
  wfBranches bs → mainIsRoot bs →
  ∃ rootBranch,
    find isRoot (Object_values bs) = Some rootBranch ∧ branch_id rootBranch = "main".
Proof.
  intros Hwf [Hall [b Hb]]. exists b. rewrite mainIsRoot_find by done.
  split; [done|]. by eapply wfBranches_get_id.
Qed.

(** With main the first parentless branch, the layout positions every
    branch reachable from main. *)
Lemma layout_below_main (c : Conversation) :
  wfBranches (branches c) → mainIsRoot (branches c) →
  ∃ positions,
    calculateOptimalBranchPositions c = Some positions ∧
    ∀ u, is_Some (obj_get positions u)
         ↔ descendsFrom (Object_values (branches c)) "main" u.
Proof.
  intros Hwf Hmain. destruct (mainIsRoot_first _ Hwf Hmain) as (r & Hfind & Hid).
  destruct (calculateOptimalBranchPositions_keys c (wfBranches_ids _ Hwf) r Hfind)
    as (positions & Hcalc & _ & Hkeys).
  rewrite Hid in *. by exists positions.
Qed.

(** When moreover no branch id is an array index, main is at the canvas
    centre. *)
Lemma layout_main_at_center (c : Conversation) :
  wfBranches (branches c) → mainIsRoot (branches c) →
  Forall (λ b, arrayIndex (branch_id b) = None) (Object_values (branches c)) →
  ∃ positions,
    calculateOptimalBranchPositions c = Some positions ∧
    obj_get positions "main" = Some (canvasCenter c).
Proof.
  intros Hwf Hmain Hnamed. destruct (mainIsRoot_first _ Hwf Hmain) as (r & Hfind & Hid).
  destruct (calculateOptimalBranchPositions_root c (wfBranches_ids _ Hwf) r Hfind Hnamed)
    as (_ & _ & rest' & Hcalc & Hkeys).
  rewrite Hid in *. eexists. split; [exact Hcalc|]. simpl. done.
Qed.

Lemma treeShaped_initial (c : Conversation) :
  (∃ b, branches c = [("main", b)] ∧ branch_id b = "main" ∧
        parentBranchId b = None ∧ level b = 0 ∧
        position b = {| x := 800; y := 400 |}) →
  activeBranchId c = "main" → canvasCenter c = {| x := 800; y := 400 |} →
  treeShaped c.
Proof.
  intros (b & Hbs & Hid & Hp & Hl & Hpos) Ha Hc. unfold treeShaped. rewrite Hbs, Ha.
  split; [by eexists|]. split; [done|]. split; [|split].
  - intros k Hk. apply list_elem_of_singleton in Hk as ->. apply rtc_refl.
  - intros k b' Hk. rewrite ?Hbs in Hk. cbn [obj_get] in Hk. destruct (String.eqb "main" k); [|done].
    injection Hk as <-. by rewrite Hp.
  - exists [("main", canvasCenter c)]. split.
    + unfold calculateOptimalBranchPositions. rewrite Hbs. cbn. unfold isRoot.
      rewrite Hp. cbn. unfold buildChildrenMap. cbn. unfold addChild. rewrite Hp, Hid. cbn.
      rewrite lookup_empty. cbn. reflexivity.
    + intros k b' Hk. rewrite Hbs in Hk. cbn [obj_get] in Hk |- *.
      destruct (String.eqb "main" k); [|done].
      injection Hk as <-. by rewrite Hc, Hpos.
Qed.

Lemma truthy_Some (k : string) : k ≠ "" → truthy (Some k) = Some k.
Proof. intros H. unfold truthy. apply String.eqb_neq in H. by rewrite H. Qed.

Lemma treeShaped_send (content' : string) (now : N) (c : Conversation) :
  wfBranches (branches c) → treeShaped c →
  treeShaped (handleSendMessage content' now c).
Proof.
  intros Hwf ([ab Hab] & Hcenter & Hbelow & Hlevels & (ps & Hcalc & Hstored)).
  rewrite (handleSendMessage_eq _ _ _ ab Hab).
  pose proof (wfBranches_get_id _ _ _ Hwf Hab) as Hid.
  assert (shape <$> Object_values
            (obj_set (branches c) (branch_id ab) (sentBranch content' now ab))
          = shape <$> Object_values (branches c)) as Hshape.
  { apply (obj_set_shape _ _ ab); [by rewrite Hid|done]. }
  assert (∀ k, obj_get (obj_set (branches c) (branch_id ab) (sentBranch content' now ab)) k
               = if decide (k = activeBranchId c)
                 then Some (sentBranch content' now ab)
                 else obj_get (branches c) k) as Hget.
  { intros k. rewrite Hid. case_decide as E.
    - subst. apply obj_get_set_eq.
    - apply obj_get_set_ne. congruence. }
  unfold treeShaped. cbn [branches activeBranchId canvasCenter].
  split. { rewrite Hget, decide_True by done. by eexists. }
  split; [done|]. split; [|split].
  - intros k Hk. eapply descendsFrom_shape; [symmetry; exact Hshape|]. apply Hbelow.
    rewrite obj_set_keys_present in Hk; [done|].
    apply obj_get_is_Some. rewrite Hid. by eexists.
  - intros k b Hk. rewrite Hget in Hk.
    assert (∃ b0, obj_get (branches c) k = Some b0 ∧
                  parentBranchId b = parentBranchId b0 ∧ level b = level b0)
      as (b0 & Hb0 & -> & ->).
    { case_decide.
      - injection Hk as <-. subst k. by exists ab.
      - by exists b. }
    clear Hk. specialize (Hlevels k b0 Hb0).
    destruct (truthy (parentBranchId b0)) as [p|]; [|done].
    destruct Hlevels as (pb & Hpb & Hl). rewrite Hget. case_decide.
    + subst p. rewrite Hab in Hpb. injection Hpb as <-. eexists. split; [done|]. done.
    + by exists pb.
  - exists ps. split.
    + rewrite <- Hcalc. apply layout_of_shape; [exact Hshape|done].
    + intros k b Hk. rewrite Hget in Hk. case_decide.
      * injection Hk as <-. subst k. cbn [sentBranch position]. by apply Hstored.
      * by apply Hstored.
Qed.

Lemma treeShaped_create (now : N) (c c' : Conversation) :
  wfBranches (branches c) → mainIsRoot (branches c) → treeShaped c →
  newBranchId now ∉ Object_keys (branches c) →
  handleCreateBranch now c = Some c' → treeShaped c'.
Proof.
  intros Hwf Hmain Htree Hfresh Hrun.
  pose proof Htree as ([ab Hab] & Hcenter & Hbelow & Hlevels & _).
  destruct (last (messages ab)) as [lastMsg|] eqn:El.
  2:{ unfold handleCreateBranch in Hrun. rewrite Hab, El in Hrun. by injection Hrun as <-. }
  destruct (handleCreateBranch_runs now c ab lastMsg Hwf Hab El) as (np & Hcalc & Hrun').
  rewrite Hrun' in Hrun. injection Hrun as <-.
  pose proof (wfBranches_get_id _ _ _ Hwf Hab) as Hid.
  pose proof (mainIsRoot_nonempty _ _ _ Hmain Hab) as Hne.
  set (u := updatedConversationOf now c ab lastMsg) in *.
  assert (branches u = branches c ++ [(newBranchId now, newBranchOf now ab lastMsg)]) as Hbs.
  { unfold u, updatedConversationOf. cbn [branches].
    by apply obj_set_fresh; [apply newBranchId_named|]. }
  assert (Object_values (branches u)
          = Object_values (branches c) ++ [newBranchOf now ab lastMsg]) as Hvals.
  { unfold Object_values. by rewrite Hbs, fmap_app. }
  assert (wfBranches (branches u)) as Hwfu by (by apply wfBranches_set).
  assert (mainIsRoot (branches u)) as Hmainu.
  { apply mainIsRoot_set; [done|done|].
    unfold isRoot, newBranchOf. cbn [parentBranchId]. rewrite Hid, truthy_Some by done.
    done. }
  assert (∀ k, k ∈ Object_keys (branches u) →
               descendsFrom (Object_values (branches u)) "main" k) as Hbelow_u.
  { intros k Hk. rewrite Hvals. unfold Object_keys in Hk.
    rewrite Hbs, fmap_app in Hk. apply elem_of_app in Hk as [Hk|Hk].
    - apply descendsFrom_app. by apply Hbelow.
    - apply list_elem_of_singleton in Hk as ->. eapply rtc_r.
      + apply descendsFrom_app. apply (Hbelow (activeBranchId c)).
        apply obj_get_is_Some. by eexists.
      + apply isChild_spec. exists (newBranchOf now ab lastMsg).
        split; [apply elem_of_app; right; apply list_elem_of_singleton; done|].
        split; [done|]. cbn [newBranchOf parentBranchId]. rewrite Hid.
        by apply truthy_Some. }
  unfold treeShaped. split; [|split; [|split; [|split]]].
  - rewrite repositioned_get.
    change (activeBranchId (repositioned np u)) with (newBranchId now).
    rewrite Hbs, obj_get_snoc_fresh by done. by eexists.
  - exact Hcenter.
  - intros k Hk. rewrite repositioned_keys in Hk.
    eapply descendsFrom_shape; [symmetry; apply repositioned_shape|]. by apply Hbelow_u.
  - intros k b Hk. rewrite repositioned_get in Hk.
    destruct (obj_get (branches u) k) as [b0|] eqn:Eb0; [|done]. injection Hk as <-.
    cbn [withPosition parentBranchId level].
    rewrite Hbs, obj_get_app in Eb0.
    destruct (obj_get (branches c) k) as [b1|] eqn:Eb1.
    + injection Eb0 as <-. specialize (Hlevels k b1 Eb1).
      destruct (truthy (parentBranchId b1)) as [p|]; [|done].
      destruct Hlevels as (pb & Hpb & Hl). exists (withPosition np p pb).
      rewrite repositioned_get, Hbs, (obj_get_app_l _ _ _ _ Hpb). done.
    + cbn [obj_get] in Eb0. destruct (String.eqb (newBranchId now) k); [|done].
      injection Eb0 as <-. cbn [newBranchOf parentBranchId level].
      rewrite Hid, truthy_Some by done.
      exists (withPosition np (activeBranchId c) ab).
      rewrite repositioned_get, Hbs, (obj_get_app_l _ _ _ _ Hab). done.
  - destruct (layout_below_main u Hwfu Hmainu) as (ps & Hps & Hiff).
    rewrite Hcalc in Hps. injection Hps as <-. exists np. split.
    + rewrite <- Hcalc. apply layout_of_shape; [apply repositioned_shape|done].
    + intros k b Hk. rewrite repositioned_get in Hk.
      destruct (obj_get (branches u) k) as [b0|] eqn:Eb0; [|done]. injection Hk as <-.
      cbn [withPosition position].
      assert (is_Some (obj_get np k)) as [pk Hpk].
      { apply Hiff, Hbelow_u. apply obj_get_is_Some. by eexists. }
      by rewrite Hpk.
Qed.

(** Built with fresh ids, a conversation stays a tree under main whose
    levels, active branch and stored positions are consistent. *)
Lemma builtFresh_treeShaped (c : Conversation) : builtFresh c → treeShaped c.
Proof.
  intros Hc. induction Hc as [newId lm| |c content' now Hc IH|c branchId Hc IH Hin
                               |c now c' Hc IH Hfresh Hrun].
  - apply treeShaped_initial; [|done..]. eexists. split; [reflexivity|done].
  - apply treeShaped_initial; [|done..]. eexists. split; [reflexivity|done].
  - apply treeShaped_send; [|done].
    by destruct (built_invariant c (builtFresh_built c Hc)).
  - destruct IH as (_ & IH). split; [|exact IH]. by apply obj_get_is_Some.
  - destruct (built_invariant c (builtFresh_built c Hc)) as [Hwf Hmain].
    by eapply treeShaped_create.
Qed.

Lemma builtFresh_branchedTwice : builtFresh branchedTwice.
Proof.
  apply (fresh_create (handleSendMessage "hi" 2 branchedOnce) 3).
  - apply fresh_send. apply (fresh_create projectIdeas 1).
    + apply fresh_sample.
    + apply (bool_decide_unpack _). vm_compute. exact I.
    + reflexivity.
  - apply (bool_decide_unpack _). vm_compute. exact I.
  - reflexivity.
Defined.

Lemma levels_along_depth (bs : JsObject Branch) (rootBranch : Branch) (u : string) (n : nat) :
  wfBranches bs → levelsConsistent bs →
  obj_get bs (branch_id rootBranch) = Some rootBranch → isRoot rootBranch = true →
  depthOf (Object_values bs) rootBranch u n →
  ∀ b, obj_get bs u = Some b → level b = Z.of_nat n.
Proof.
  intros Hwf Hlevels Hroot HisRoot. induction 1 as [|p c n Hp IH Hc]; intros b Hb.
  - rewrite Hroot in Hb. injection Hb as <-. specialize (Hlevels _ _ Hroot).
    unfold isRoot in HisRoot. by destruct (truthy (parentBranchId rootBranch)).
  - apply isChild_spec in Hc as (b' & Hin & Hid & Hparent).
    pose proof (wfBranches_lookup _ _ Hwf Hin) as Hb'. rewrite Hid, Hb in Hb'.
    injection Hb' as <-. specialize (Hlevels _ _ Hb). rewrite Hparent in Hlevels.
    destruct Hlevels as (pb & Hpb & ->). rewrite (IH _ Hpb). lia.
Qed.

Lemma filter_ne_length (l : list string) (k : string) :
  NoDup l → k ∈ l → (length (filter (λ k', k' ≠ k) l) + 1 = length l)%nat.
Proof.
  induction 1 as [|k0 l Hk0 Hnd IH]; intros Hin; [by apply elem_of_nil in Hin|].
  rewrite filter_cons. destruct (decide (k0 = k)) as [->|Hne].
  - rewrite decide_False by (by intros ?). simpl.
    assert (filter (λ k', k' ≠ k) l = l) as ->; [|lia].
    clear -Hk0. induction l as [|a l IHl]; [done|]. rewrite filter_cons.
    apply not_elem_of_cons in Hk0 as [Hne Hk0]. rewrite decide_True by done.
    by rewrite IHl.
  - rewrite decide_True by done. apply elem_of_cons in Hin as [->|Hin]; [done|].
    simpl. by rewrite IH.
Qed.

(** X13: as long as every create-branch draws an unused id and every
    switch names a branch of the conversation, the active branch id names a
    branch, every branch is reachable from main through parent links, a
    parentless branch has level 0, and any other branch has its parent in
    the mapping with a level one less than its own. *)
Theorem fresh_ids_keep_the_tree (c : Conversation) :
  builtFresh c →
  is_Some (obj_get (branches c) (activeBranchId c)) ∧
  (∀ k, k ∈ Object_keys (branches c) →
        descendsFrom (Object_values (branches c)) "main" k) ∧
  ∀ k b, obj_get (branches c) k = Some b →
    match truthy (parentBranchId b) with
    | None => k = "main" ∧ level b = 0
    | Some p => k ≠ "main" ∧ ∃ pb, obj_get (branches c) p = Some pb ∧ level b = level pb + 1
    end.
Proof.
  intros Hc. destruct (builtFresh_treeShaped c Hc) as (Hactive & _ & Hbelow & Hlevels & _).
  destruct (built_invariant c (builtFresh_built c Hc)) as [Hwf [Hall _]].
  split; [done|]. split; [done|]. intros k b Hb. specialize (Hlevels k b Hb).
  rewrite Forall_forall in Hall. destruct (Hall _ (obj_get_Some _ _ _ Hb)) as [_ Hroot].
  simpl in Hroot. unfold isRoot in Hroot.
  destruct (truthy (parentBranchId b)) as [p|].
  - split; [|done]. intros Hk. by apply Hroot in Hk.
  - split; [|done]. by apply Hroot.
Qed.

Lemma fresh_ids_keep_the_tree_witness :
  is_Some (obj_get (branches branchedTwice) (activeBranchId branchedTwice)) ∧
  (∀ k, k ∈ Object_keys (branches branchedTwice) →
        descendsFrom (Object_values (branches branchedTwice)) "main" k) ∧
  ∀ k b, obj_get (branches branchedTwice) k = Some b →
    match truthy (parentBranchId b) with
    | None => k = "main" ∧ level b = 0
    | Some p => k ≠ "main" ∧
                ∃ pb, obj_get (branches branchedTwice) p = Some pb ∧ level b = level pb + 1
    end.
Proof. apply (fresh_ids_keep_the_tree branchedTwice). apply builtFresh_branchedTwice. Defined.

(** X14: under the same conditions the stored level of a branch is its
    depth in the tree: the number of parent links between it and main. *)
Theorem level_is_depth_below_main (c : Conversation) :
  builtFresh c →
  ∃ rootBranch,
    obj_get (branches c) "main" = Some rootBranch ∧
    ∀ k b, obj_get (branches c) k = Some b →
      ∃ n, depthOf (Object_values (branches c)) rootBranch k n ∧ level b = Z.of_nat n.
Proof.
  intros Hc. destruct (builtFresh_treeShaped c Hc) as (_ & _ & Hbelow & Hlevels & _).
  destruct (built_invariant c (builtFresh_built c Hc)) as [Hwf Hmain].
  destruct (mainIsRoot_first _ Hwf Hmain) as (r & Hfind & Hid).
  destruct (find_isRoot_Some _ _ Hfind) as [Hin Hroot].
  pose proof (wfBranches_lookup _ _ Hwf Hin) as Hr.
  exists r. split; [by rewrite <- Hid|]. intros k b Hb.
  assert (k ∈ Object_keys (branches c)) as Hk by (apply obj_get_is_Some; by eexists).
  apply Hbelow in Hk. rewrite <- Hid in Hk.
  apply (descendsFrom_depthOf _ r) in Hk as [n Hn]. exists n. split; [done|].
  by eapply levels_along_depth.
Qed.

Lemma level_is_depth_below_main_witness :
  ∃ rootBranch,
    obj_get (branches branchedTwice) "main" = Some rootBranch ∧
    ∀ k b, obj_get (branches branchedTwice) k = Some b →
      ∃ n, depthOf (Object_values (branches branchedTwice)) rootBranch k n ∧
           level b = Z.of_nat n.
Proof. apply (level_is_depth_below_main branchedTwice). apply builtFresh_branchedTwice. Defined.

Lemma withPosition_stored (positions : JsObject Point) (k : string) (b : Branch) :
  obj_get positions k = Some (position b) → withPosition positions k b = b.
Proof. intros H. unfold withPosition. rewrite H. by destruct b. Qed.

(** X15: under the same conditions the stored positions are exactly what
    the layout computes for the conversation: the layout returns a position
    for every branch, equal to the stored one, so writing the positions
    back once more changes nothing. *)
Theorem stored_positions_are_the_layout (c : Conversation) :
  builtFresh c →
  ∃ positions,
    calculateOptimalBranchPositions c = Some positions ∧
    (∀ k b, obj_get (branches c) k = Some b → obj_get positions k = Some (position b)) ∧
    updateBranches positions (branches c) = branches c.
Proof.
  intros Hc. destruct (builtFresh_treeShaped c Hc) as (_ & _ & _ & _ & ps & Hcalc & Hstored).
  destruct (built_invariant c (builtFresh_built c Hc)) as [Hwf _].
  exists ps. split; [done|]. split; [done|].
  rewrite updateBranches_spec by apply Hwf.
  assert (∀ kb, kb ∈ branches c → obj_get (branches c) kb.1 = Some kb.2) as Hget.
  { intros [k b] Hin. apply list_elem_of_lookup in Hin as [j Hj].
    eapply obj_get_lookup; [apply Hwf|exact Hj]. }
  revert Hget. generalize (branches c) at 1 3 4. intros l Hl.
  induction l as [|[k b] l IH]; [done|]. rewrite fmap_cons. f_equal.
  - cbn [fst snd]. f_equal. apply withPosition_stored, Hstored, (Hl (k, b)). left.
  - apply IH. intros kb Hkb. apply Hl. by right.
Qed.

Lemma stored_positions_are_the_layout_witness :
  ∃ positions,
    calculateOptimalBranchPositions branchedTwice = Some positions ∧
    (∀ k b, obj_get (branches branchedTwice) k = Some b →
            obj_get positions k = Some (position b)) ∧
    updateBranches positions (branches branchedTwice) = branches branchedTwice.
Proof.
  apply (stored_positions_are_the_layout branchedTwice). apply builtFresh_branchedTwice.
Defined.

(** X16: under the same conditions main is stored at (800, 400) and every
    other branch is stored exactly 450 to the right or to the left of its
    parent. *)
Theorem stored_child_is_one_column_from_parent (c : Conversation) :
  builtFresh c →
  ∀ k b, obj_get (branches c) k = Some b →
    match truthy (parentBranchId b) with
    | None => position b = {| x := 800; y := 400 |}
    | Some p =>
        ∃ pb, obj_get (branches c) p = Some pb ∧
              (x (position b) = x (position pb) + 450 ∨
               x (position b) = x (position pb) - 450)
    end.
Proof.
  intros Hc k b Hb.
  destruct (builtFresh_treeShaped c Hc) as (_ & Hcenter & _ & Hlevels & ps & Hcalc & Hstored).
  destruct (built_invariant c (builtFresh_built c Hc)) as [Hwf Hmain].
  destruct (mainIsRoot_first _ Hwf Hmain) as (r & Hfind & Hid).
  specialize (Hlevels k b Hb).
  destruct (truthy (parentBranchId b)) as [p|] eqn:Hparent.
  - destruct Hlevels as (pb & Hpb & _). exists pb. split; [done|].
    destruct (layout_children_sides c r Hwf (built_named c (builtFresh_built c Hc)) Hfind)
      as (ps' & Hcalc' & Hsides).
    rewrite Hcalc in Hcalc'. injection Hcalc' as <-.
    destruct (Hsides p _ (Hstored _ _ Hpb)) as (R & L & Hkids).
    assert (isChild (Object_values (branches c)) p k) as Hchild.
    { apply isChild_spec. exists b. split; [|split; [|done]].
      - unfold Object_values. apply list_elem_of_fmap. exists (k, b).
        split; [done|]. by apply obj_get_Some.
      - by eapply wfBranches_get_id. }
    apply list_elem_of_lookup in Hchild as [i Hi].
    destruct (Hkids i k Hi) as (pc & Hpc & Hx).
    rewrite (Hstored _ _ Hb) in Hpc. injection Hpc as <-.
    rewrite Hx. destruct (goRight i R L); auto.
  - destruct (layout_main_at_center c Hwf Hmain (built_named c (builtFresh_built c Hc)))
      as (ps' & Hcalc' & Hroot).
    rewrite Hcalc in Hcalc'. injection Hcalc' as <-.
    destruct Hmain as [Hall _]. rewrite Forall_forall in Hall.
    destruct (Hall _ (obj_get_Some _ _ _ Hb)) as [_ Hk]. simpl in Hk.
    unfold isRoot in Hk. rewrite Hparent in Hk.
    assert (k = "main") as -> by (by apply Hk).
    rewrite (Hstored _ _ Hb), Hcenter in Hroot. by injection Hroot.
Qed.

Lemma stored_child_is_one_column_from_parent_witness :
  ∃ b, obj_get (branches branchedTwice) "branch-3" = Some b ∧
    match truthy (parentBranchId b) with
    | None => position b = {| x := 800; y := 400 |}
    | Some p =>
        ∃ pb, obj_get (branches branchedTwice) p = Some pb ∧
              (x (position b) = x (position pb) + 450 ∨
               x (position b) = x (position pb) - 450)
    end.
Proof.
  exists (default projectIdeasMain (obj_get (branches branchedTwice) "branch-3")).
  split; [vm_compute; reflexivity|].
  apply (stored_child_is_one_column_from_parent branchedTwice builtFresh_branchedTwice
           "branch-3" (default projectIdeasMain (obj_get (branches branchedTwice) "branch-3"))).
  vm_compute. reflexivity.
Defined.

(** ** What the handlers change and what they leave alone *)

(** X18: sending a message from an existing active branch appends the
    user message and the canned reply, with distinct ids, to that branch
    and to no other; the branch keeps its id, parent links, level and
    position, no branch is added or removed, and of the conversation only
    [lastMessage] changes besides. *)
Theorem send_message_appends_exchange
    (content' : string) (now : N) (c : Conversation) (activeBranch : Branch) :
  wfBranches (branches c) →
  obj_get (branches c) (activeBranchId c) = Some activeBranch →
  let sent := handleSendMessage content' now c in
  Object_keys (branches sent) = Object_keys (branches c) ∧
  (∀ k, k ≠ activeBranchId c → obj_get (branches sent) k = obj_get (branches c) k) ∧
  (∃ updatedBranch userMessage assistantMessage,
     obj_get (branches sent) (activeBranchId c) = Some updatedBranch ∧
     messages updatedBranch = messages activeBranch ++ [userMessage; assistantMessage] ∧
     role userMessage = user ∧ content userMessage = content' ∧
     role assistantMessage = assistant ∧
     message_id userMessage ≠ message_id assistantMessage ∧
     truthy_flag (isInherited userMessage) = false ∧
     truthy_flag (isInherited assistantMessage) = false ∧
     shape updatedBranch = shape activeBranch ∧
     parentMessageId updatedBranch = parentMessageId activeBranch ∧
     level updatedBranch = level activeBranch ∧
     position updatedBranch = position activeBranch ∧
     (messages activeBranch ≠ [] → summary updatedBranch = summary activeBranch)) ∧
  lastMessage sent = content' ∧
  activeBranchId sent = activeBranchId c ∧
  title sent = title c ∧
  canvasCenter sent = canvasCenter c.
Proof.
  intros Hwf Hab sent. subst sent. rewrite (handleSendMessage_eq _ _ _ _ Hab).
  pose proof (wfBranches_get_id _ _ _ Hwf Hab) as Hid.
  cbn [branches lastMessage activeBranchId title canvasCenter]. rewrite Hid.
  split.
  { rewrite obj_set_keys_present; [done|]. apply obj_get_is_Some. by eexists. }
  split. { intros k Hk. by apply obj_get_set_ne. }
  split; [|done]. eexists (sentBranch content' now activeBranch), _, _.
  split; [apply obj_get_set_eq|]. split; [reflexivity|].
  cbn [role content message_id isInherited].
  repeat (split; [done|]). split.
  { intros E. apply toString_inj in E. lia. }
  repeat (split; [done|]). intros Hne. cbn [sentBranch summary].
  destruct (messages activeBranch); done.
Qed.

Lemma send_message_appends_exchange_witness :
  let sent := handleSendMessage "hi" 5 projectIdeas in
  Object_keys (branches sent) = Object_keys (branches projectIdeas) ∧
  (∀ k, k ≠ "main" → obj_get (branches sent) k = obj_get (branches projectIdeas) k) ∧
  (∃ updatedBranch userMessage assistantMessage,
     obj_get (branches sent) "main" = Some updatedBranch ∧
     messages updatedBranch = messages projectIdeasMain ++ [userMessage; assistantMessage] ∧
     role userMessage = user ∧ content userMessage = "hi" ∧
     role assistantMessage = assistant ∧
     message_id userMessage ≠ message_id assistantMessage ∧
     truthy_flag (isInherited userMessage) = false ∧
     truthy_flag (isInherited assistantMessage) = false ∧
     shape updatedBranch = shape projectIdeasMain ∧
     parentMessageId updatedBranch = parentMessageId projectIdeasMain ∧
     level updatedBranch = level projectIdeasMain ∧
     position updatedBranch = position projectIdeasMain ∧
     (messages projectIdeasMain ≠ [] → summary updatedBranch = summary projectIdeasMain)) ∧
  lastMessage sent = "hi" ∧
  activeBranchId sent = "main" ∧
  title sent = title projectIdeas ∧
  canvasCenter sent = canvasCenter projectIdeas.
Proof.
  apply (send_message_appends_exchange "hi" 5 projectIdeas projectIdeasMain).
  - apply wfBranches_decide; reflexivity.
  - reflexivity.
Defined.



(** X20: [handleSwitchBranch] does not check its argument: after a switch
    to an id that names no branch, and is not the name of a member every
    object inherits, the conversation has no active branch, the New
    Branch button is disabled, and both sending a message and creating a
    branch leave the conversation as it is. *)
Theorem switch_to_unknown_branch_disables_handlers
    (branchId content' : string) (now now' : N) (c : Conversation) :
  branchId ∉ Object_keys (branches c) →
  branchId ∉ objectPrototypeKeys →
  let switched := handleSwitchBranch branchId c in
  obj_get (branches switched) (activeBranchId switched) = None ∧
  canCreateBranch (obj_get (branches switched) (activeBranchId switched)) = false ∧
  handleSendMessage content' now switched = switched ∧
  handleCreateBranch now' switched = Some switched.
Proof.
  intros Hk _ switched. apply obj_get_None in Hk.
  assert (obj_get (branches switched) (activeBranchId switched) = None) as Hnone by exact Hk.
  split; [done|]. rewrite Hnone. split; [done|].
  unfold handleSendMessage, handleCreateBranch. by rewrite Hnone.
Qed.

Lemma switch_to_unknown_branch_disables_handlers_witness :
  let switched := handleSwitchBranch "gone" projectIdeas in
  obj_get (branches switched) (activeBranchId switched) = None ∧
  canCreateBranch (obj_get (branches switched) (activeBranchId switched)) = false ∧
  handleSendMessage "hi" 5 switched = switched ∧
  handleCreateBranch 6 switched = Some switched.
Proof.
  apply (switch_to_unknown_branch_disables_handlers "gone" "hi" 5 6 projectIdeas).
  - apply (bool_decide_unpack _). vm_compute. exact I.
  - apply (bool_decide_unpack _). vm_compute. exact I.
Defined.





(** Every branch but main has a message: its inherited seed, to which
    messages are only ever added. *)
Lemma built_seeded (c : Conversation) :
  built c → Forall (λ kb, kb.1 ≠ "main" → messages kb.2 ≠ []) (branches c).
Proof.
  induction 1 as [newId lm| |c content' now Hc IH|c branchId Hc IH|c now c' Hc IH Hrun].
  - repeat constructor. done.
  - repeat constructor. done.
  - unfold handleSendMessage.
    destruct (obj_get (branches c) (activeBranchId c)) as [ab|] eqn:Eab; [|done].
    cbn [branches]. apply Forall_obj_set; [done|]. cbn [snd messages].
    intros _ E. by apply app_eq_nil in E as [_ ?].
  - done.
  - destruct (obj_get (branches c) (activeBranchId c)) as [ab|] eqn:Eab.
    2:{ unfold handleCreateBranch in Hrun. rewrite Eab in Hrun. by injection Hrun as <-. }
    destruct (last (messages ab)) as [lastMsg|] eqn:El.
    2:{ unfold handleCreateBranch in Hrun. rewrite Eab, El in Hrun. by injection Hrun as <-. }
    destruct (built_invariant c Hc) as [Hwf _].
    destruct (handleCreateBranch_runs now c ab lastMsg Hwf Eab El) as (np & _ & Hrun').
    rewrite Hrun' in Hrun. injection Hrun as <-.
    unfold repositioned. cbn [branches]. apply Forall_fmap.
    eapply Forall_impl.
    + unfold updatedConversationOf. cbn [branches].
      apply (Forall_obj_set (λ kb, kb.1 ≠ "main" → messages kb.2 ≠ [])); [exact IH|].
      done.
    + by intros [k b].
Qed.

(** X17: under the same conditions the canvas draws one connection line
    for every branch but main, from the stored block of its parent: with
    [n] branches, [n - 1] lines, the placeholder shown while no branch has
    a message included. *)
Theorem one_line_per_branch_but_main (c : Conversation) :
  builtFresh c →
  (∀ k b, obj_get (branches c) k = Some b →
     if decide (k = "main") then connectionLine c b = None
     else ∃ p pb, parentBranchId b = Some p ∧ obj_get (branches c) p = Some pb ∧
                  connectionLine c b = Some (connectionFor pb b)) ∧
  (length (filter is_Some (drawnLines c)) + 1 = length (Object_keys (branches c)))%nat.
Proof.
  intros Hc. destruct (builtFresh_treeShaped c Hc) as (_ & _ & _ & Hlevels & _).
  destruct (built_invariant c (builtFresh_built c Hc)) as [Hwf Hmain].
  assert (∀ k b, obj_get (branches c) k = Some b →
     if decide (k = "main") then connectionLine c b = None
     else ∃ p pb, parentBranchId b = Some p ∧ obj_get (branches c) p = Some pb ∧
                  connectionLine c b = Some (connectionFor pb b)) as Hlines.
  { intros k b Hb. specialize (Hlevels k b Hb).
    destruct Hmain as [Hall _]. rewrite Forall_forall in Hall.
    destruct (Hall _ (obj_get_Some _ _ _ Hb)) as [_ Hk]. simpl in Hk.
    unfold isRoot in Hk. unfold connectionLine.
    destruct (truthy (parentBranchId b)) as [p|] eqn:Hparent.
    - rewrite decide_False by (intros E; by apply Hk in E).
      destruct Hlevels as (pb & Hpb & _). exists p, pb. rewrite Hpb.
      split; [|done]. unfold truthy in Hparent.
      destruct (parentBranchId b) as [p'|]; [|done].
      destruct (String.eqb p' ""); [done|]. by injection Hparent as ->.
    - by rewrite decide_True by (by apply Hk). }
  split; [exact Hlines|].
  assert (main_in : "main" ∈ Object_keys (branches c)) by apply obj_get_is_Some, Hmain.
  unfold drawnLines. destruct (hasBranches c) eqn:Eshown.
  - rewrite <- (filter_ne_length (Object_keys (branches c)) "main"); [|apply Hwf|done].
    f_equal.
    assert (∀ kb, kb ∈ branches c → obj_get (branches c) kb.1 = Some kb.2) as Hget.
    { intros [k b] Hin. apply list_elem_of_lookup in Hin as [j Hj].
      eapply obj_get_lookup; [apply Hwf|exact Hj]. }
    unfold connectionLines, Object_values, Object_keys.
    revert Hget. generalize (branches c) at 1 3 4. intros l Hl.
    induction l as [|[k b] l IH]; [done|]. rewrite !fmap_cons, !filter_cons. cbn [fst snd].
    pose proof (Hlines k b (Hl (k, b) ltac:(left))) as Hkb.
    assert (length (filter is_Some (connectionLine c <$> l.*2))
            = length (filter (λ k', k' ≠ "main") l.*1)) as IH'.
    { apply IH. intros kb Hin. apply Hl. by right. }
    destruct (decide (k = "main")) as [->|Hne].
    + rewrite Hkb. rewrite decide_False by (by intros [? ?]).
      rewrite decide_False by (by intros ?). exact IH'.
    + destruct Hkb as (p & pb & _ & _ & ->).
      rewrite decide_True by (by eexists). rewrite decide_True by done.
      simpl. by rewrite IH'.
  - pose proof (built_seeded c (builtFresh_built c Hc)) as Hseeded.
    assert (∀ k, k ∈ Object_keys (branches c) → k = "main") as Honly.
    { intros k Hk. apply obj_get_is_Some in Hk as [b Hb].
      destruct (decide (k = "main")) as [|Hne]; [done|]. exfalso.
      rewrite Forall_forall in Hseeded.
      pose proof (Hseeded _ (obj_get_Some _ _ _ Hb) Hne) as Hmsgs. simpl in Hmsgs.
      unfold hasBranches in Eshown.
      assert (existsb (λ branch, 0 <? Z.of_nat (length (messages branch)))
                (Object_values (branches c)) = true) as Htrue; [|congruence].
      apply existsb_exists. exists b. split.
      - apply list_elem_of_In. unfold Object_values. apply list_elem_of_fmap.
        exists (k, b). split; [done|]. by apply obj_get_Some.
      - destruct (messages b); [done|]. apply Z.ltb_lt. cbn [length]. lia. }
    destruct Hwf as [Hnd _]. simpl.
    destruct (Object_keys (branches c)) as [|k1 [|k2 ks]].
    + by apply elem_of_nil in main_in.
    + done.
    + exfalso. apply NoDup_cons in Hnd as [Hk1 _]. apply Hk1.
      rewrite (Honly k1) by left. rewrite (Honly k2) by (right; left). left.
Qed.

Lemma one_line_per_branch_but_main_witness :
  (∀ k b, obj_get (branches branchedTwice) k = Some b →
     if decide (k = "main") then connectionLine branchedTwice b = None
     else ∃ p pb, parentBranchId b = Some p ∧
                  obj_get (branches branchedTwice) p = Some pb ∧
                  connectionLine branchedTwice b = Some (connectionFor pb b)) ∧
  (length (filter is_Some (drawnLines branchedTwice)) + 1
   = length (Object_keys (branches branchedTwice)))%nat.
Proof.
  apply (one_line_per_branch_but_main branchedTwice). apply builtFresh_branchedTwice.
Defined.

(** ** Dragging and wheel panning *)

Lemma mouseMoves_dragging (moves : list MousePos) (v : Viewport) :
  isDragging v = true →
  let v' := mouseMoves moves v in
  isDragging v' = true ∧
  lastMousePos v' = default (lastMousePos v) (last moves) ∧
  (offsetX (canvasOffset v') - mouseX (lastMousePos v')
   == offsetX (canvasOffset v) - mouseX (lastMousePos v))%Q ∧
  (offsetY (canvasOffset v') - mouseY (lastMousePos v')
   == offsetY (canvasOffset v) - mouseY (lastMousePos v))%Q.
Proof.
  revert v. induction moves as [|m moves IH]; intros v Hv; [done|]. cbv zeta.
  change (mouseMoves (m :: moves) v)
    with (mouseMoves moves (handleMouseMove v (mouseX m) (mouseY m) v)).
  set (v1 := handleMouseMove v (mouseX m) (mouseY m) v).
  assert (isDragging v1 = true ∧ lastMousePos v1 = m ∧
          (offsetX (canvasOffset v1) - mouseX (lastMousePos v1)
           == offsetX (canvasOffset v) - mouseX (lastMousePos v))%Q ∧
          (offsetY (canvasOffset v1) - mouseY (lastMousePos v1)
           == offsetY (canvasOffset v) - mouseY (lastMousePos v))%Q)
    as (Hd1 & Hl1 & Hx1 & Hy1).
  { subst v1. unfold handleMouseMove. rewrite Hv.
    cbn [isDragging lastMousePos canvasOffset offsetX offsetY mouseX mouseY].
    split; [done|]. split; [by destruct m|]. split; ring. }
  destruct (IH v1 Hd1) as (Hd & Hl & Hx & Hy). split; [exact Hd|]. split.
  - rewrite Hl, Hl1. by destruct moves as [|m' moves] using rev_ind;
      [|rewrite app_comm_cons, !last_snoc].
  - by rewrite Hx, Hy, Hx1, Hy1.
Qed.

Lemma mouseMoves_idle (moves : list MousePos) (v : Viewport) :
  isDragging v = false → mouseMoves moves v = v.
Proof.
  intros Hv. induction moves as [|m moves IH]; [done|].
  change (mouseMoves (m :: moves) v)
    with (mouseMoves moves (handleMouseMove v (mouseX m) (mouseY m) v)).
  unfold handleMouseMove. by rewrite Hv.
Qed.

(** With a render after each move the listener is always that of the
    current state. *)
Lemma canvasRun_movesRendered (moves : list MousePos) (v : Viewport) :
  isDragging v = true →
  canvasRun (movesRendered moves) {| viewport := v; registered := Some v |}
  = {| viewport := mouseMoves moves v; registered := Some (mouseMoves moves v) |}.
Proof.
  revert v. induction moves as [|m moves IH]; intros v Hv; [done|].
  change (mouseMoves (m :: moves) v)
    with (mouseMoves moves (handleMouseMove v (mouseX m) (mouseY m) v)).
  assert (isDragging (handleMouseMove v (mouseX m) (mouseY m) v) = true) as Hv'.
  { unfold handleMouseMove. by rewrite Hv. }
  rewrite <- (IH _ Hv'). unfold movesRendered, canvasRun.
  cbn [flat_map app fold_left canvasStep registered viewport]. unfold render.
  cbn [viewport]. by rewrite Hv'.
Qed.

(** Without registered listeners mouse moves and releases do nothing. *)
Lemma canvasRun_movesOnly_idle (moves : list MousePos) (c : Canvas) :
  registered c = None → canvasRun (movesOnly moves) c = c.
Proof.
  intros Hc. induction moves as [|m moves IH]; [done|].
  unfold movesOnly, canvasRun in *. cbn [fmap list_fmap fold_left canvasStep].
  rewrite Hc. exact IH.
Qed.

(** X23: a drag keeps the grip as long as a render follows each move.
    From a press of the left button at [(x0, y0)] and the render after
    it, a run of mouse moves, each followed by a render, changes the
    offset by exactly the vector from the press point to the last pointer
    position, whatever path the pointer took.  Two moves with no render
    between them are both measured from the position the last render saw,
    so the offset then changes by the sum of the two vectors from the
    press point.  After the release and the render that follows it,
    further moves change nothing. *)
Theorem drag_follows_the_pointer
    (x0 y0 x1 y1 x2 y2 : Q) (moves later : list MousePos) (c : Canvas) :
  let pressed := canvasRun [MouseDown 0 x0 y0; Render] c in
  let dragged := canvasRun (movesRendered moves) pressed in
  let finish := default {| mouseX := x0; mouseY := y0 |} (last moves) in
  let stale := canvasRun [MouseMove x1 y1; MouseMove x2 y2] pressed in
  let released := canvasRun [MouseUp; Render] dragged in
  isDragging (viewport dragged) = true ∧
  lastMousePos (viewport dragged) = finish ∧
  (offsetX (canvasOffset (viewport dragged))
   == offsetX (canvasOffset (viewport c)) + (mouseX finish - x0))%Q ∧
  (offsetY (canvasOffset (viewport dragged))
   == offsetY (canvasOffset (viewport c)) + (mouseY finish - y0))%Q ∧
  (offsetX (canvasOffset (viewport stale))
   == offsetX (canvasOffset (viewport c)) + (x1 - x0) + (x2 - x0))%Q ∧
  (offsetY (canvasOffset (viewport stale))
   == offsetY (canvasOffset (viewport c)) + (y1 - y0) + (y2 - y0))%Q ∧
  canvasRun (movesOnly later) released = released ∧
  isDragging (viewport released) = false ∧
  canvasOffset (viewport released) = canvasOffset (viewport dragged).
Proof.
  intros pressed dragged finish stale released.
  set (v0 := handleMouseDown 0 x0 y0 (viewport c)).
  assert (pressed = {| viewport := v0; registered := Some v0 |}) as Hpressed by done.
  assert (dragged = {| viewport := mouseMoves moves v0;
                       registered := Some (mouseMoves moves v0) |}) as Hdragged.
  { unfold dragged. rewrite Hpressed. by apply canvasRun_movesRendered. }
  destruct (mouseMoves_dragging moves v0 eq_refl) as (Hd & Hl & Hx & Hy).
  change (lastMousePos v0) with {| mouseX := x0; mouseY := y0 |} in Hl, Hx, Hy.
  fold finish in Hl. rewrite Hl in Hx, Hy. cbn [mouseX mouseY] in Hx, Hy.
  change (canvasOffset v0) with (canvasOffset (viewport c)) in Hx, Hy.
  rewrite Hdragged. cbn [viewport].
  split; [done|]. split; [done|]. split; [|split]; [| |split; [|split]]; [| | | |split].
  - apply (proj1 (Qplus_inj_r _ _ (- mouseX finish))).
    etransitivity; [exact Hx|ring].
  - apply (proj1 (Qplus_inj_r _ _ (- mouseY finish))).
    etransitivity; [exact Hy|ring].
  - unfold stale. rewrite Hpressed. cbn. ring.
  - unfold stale. rewrite Hpressed. cbn. ring.
  - apply canvasRun_movesOnly_idle. unfold released. by rewrite Hdragged.
  - unfold released. by rewrite Hdragged.
Qed.

(** X24: outside a drag the pointer does not move the canvas: a press
    with any other button than the left one starts no drag, and mouse moves
    in a viewport that is not being dragged leave it as it is. *)
Theorem no_pan_without_left_press
    (button : Z) (clientX clientY : Q) (moves : list MousePos) (v : Viewport) :
  isDragging v = false → button ≠ 0 →
  mouseMoves moves (handleMouseDown button clientX clientY v) = v.
Proof.
  intros Hv Hb. unfold handleMouseDown. apply Z.eqb_neq in Hb. rewrite Hb.
  by apply mouseMoves_idle.
Qed.

Lemma no_pan_without_left_press_witness :
  mouseMoves [{| mouseX := 5; mouseY := 7 |}; {| mouseX := 9; mouseY := 1 |}]
    (handleMouseDown 2 3 4 restingViewport) = restingViewport.
Proof. apply (no_pan_without_left_press 2 3 4 _ restingViewport); done. Defined.

Lemma carries_eq (attribute : string) (e : Element) :
  carries attribute e = hasAttribute e attribute || querySelector e attribute.
Proof. by destruct e. Qed.

Lemma carries_child (attribute : string) (e child : Element) (i : nat) :
  children e !! i = Some child → carries attribute child = true →
  carries attribute e = true.
Proof.
  intros Hi Hc. rewrite carries_eq. apply orb_true_iff. right.
  unfold querySelector. apply existsb_exists. exists child. split; [|done].
  apply list_elem_of_In. by eapply list_elem_of_lookup_2.
Qed.

Lemma parentChain_spec (attribute : string) (root : Element) (path : list nat)
    (above chain : list Element) :
  parentChain root path above = Some chain →
  root ∈ chain ∧
  (∀ e, e ∈ above → e ∈ chain) ∧
  ∀ e, e ∈ chain → e ∈ above ∨ (carries attribute e = true → carries attribute root = true).
Proof.
  revert root above. induction path as [|i path IH]; intros root above Hchain.
  - injection Hchain as <-. split; [left|]. split; [by right|].
    intros e He. apply elem_of_cons in He as [->|He]; auto.
  - cbn [parentChain] in Hchain.
    destruct (children root !! i) as [child|] eqn:Hi; [|done].
    destruct (IH _ _ Hchain) as (Hin & Habove & Hbelow). split; [|split].
    + apply Habove. left.
    + intros e He. apply Habove. by right.
    + intros e He. destruct (Hbelow e He) as [Hup|Hdown].
      * apply elem_of_cons in Hup as [->|Hup]; auto.
      * right. intros Hc. eapply carries_child; eauto.
Qed.

Lemma whileCurrent_existsb (chain : list Element) :
  whileCurrent chain =
  existsb (λ e, carries "data-radix-scroll-area-viewport" e
                || contains e "scroll-area-viewport"
                || contains e "conversation-block-content") chain.
Proof.
  induction chain as [|e chain IH]; [done|]. cbn [whileCurrent existsb].
  rewrite carries_eq, IH.
  destruct (hasAttribute e _), (contains e "scroll-area-viewport"),
    (querySelector e _), (contains e "conversation-block-content"); done.
Qed.

Lemma isWithinScrollableArea_spec (document : Element) (path : list nat)
    (chain : list Element) :
  parentChain document path [] = Some chain →
  isWithinScrollableArea document (Some path) =
  carries "data-radix-scroll-area-viewport" document
  || existsb (λ e, contains e "scroll-area-viewport"
                   || contains e "conversation-block-content") chain.
Proof.
  intros Hchain. unfold isWithinScrollableArea. rewrite Hchain, whileCurrent_existsb.
  destruct (parentChain_spec "data-radix-scroll-area-viewport" _ _ _ _ Hchain)
    as (Hroot & _ & Hbelow).
  apply Bool.eq_iff_eq_true. rewrite orb_true_iff, !existsb_exists. split.
  - intros (e & He & Hprop). apply orb_true_iff in Hprop as [Hprop|Hprop].
    + apply orb_true_iff in Hprop as [Hprop|Hprop].
      * left. apply list_elem_of_In in He.
        destruct (Hbelow e He) as [Habs|Hup]; [by apply elem_of_nil in Habs|auto].
      * right. exists e. by rewrite Hprop.
    + right. exists e. rewrite Hprop. by rewrite orb_true_r.
  - intros [Hdoc|(e & He & Hprop)].
    + exists document. split; [by apply list_elem_of_In|]. by rewrite Hdoc.
    + exists e. split; [done|]. apply orb_true_iff in Hprop as [->| ->];
        by rewrite ?orb_true_r.
Qed.

(** X25: what [isWithinScrollableArea] computes for an element of the
    document.  Because every ancestor is searched with [querySelector], the
    attribute test does not depend on the target: the result is true
    exactly when an element with the attribute
    data-radix-scroll-area-viewport occurs anywhere in the document, or the
    target or one of its ancestors has the class scroll-area-viewport or
    conversation-block-content. *)
Theorem isWithinScrollableArea_ignores_target_for_attribute
    (document : Element) (path : list nat) (chain : list Element) :
  parentChain document path [] = Some chain →
  isWithinScrollableArea document (Some path) =
  carries "data-radix-scroll-area-viewport" document
  || existsb (λ e, contains e "scroll-area-viewport"
                   || contains e "conversation-block-content") chain.
Proof. apply isWithinScrollableArea_spec. Qed.

Lemma isWithinScrollableArea_ignores_target_for_attribute_witness :
  isWithinScrollableArea examplePage (Some [1; 0]%nat) =
  carries "data-radix-scroll-area-viewport" examplePage
  || existsb (λ e, contains e "scroll-area-viewport"
                   || contains e "conversation-block-content")
       [mkElement [] ["grid"] [];
        mkElement [] ["canvas"] [mkElement [] ["grid"] []];
        examplePage].
Proof.
  apply (isWithinScrollableArea_ignores_target_for_attribute examplePage [1; 0]%nat).
  reflexivity.
Defined.

(** X26: a scroll viewport anywhere in the document stops wheel panning
    everywhere: if any element of the document has the attribute
    data-radix-scroll-area-viewport, then no wheel event on an element of
    the document moves the canvas, wherever the pointer is. *)
Theorem scroll_viewport_anywhere_stops_wheel_panning
    (ctrlKey metaKey : bool) (document : Element) (path : list nat)
    (deltaX deltaY : Q) (v : Viewport) :
  is_Some (parentChain document path []) →
  carries "data-radix-scroll-area-viewport" document = true →
  handleWheel ctrlKey metaKey document (Some path) deltaX deltaY v = v.
Proof.
  intros [chain Hchain] Hdoc. unfold handleWheel.
  rewrite (isWithinScrollableArea_spec _ _ _ Hchain), Hdoc.
  by destruct (ctrlKey || metaKey).
Qed.

Lemma scroll_viewport_anywhere_stops_wheel_panning_witness :
  handleWheel false false examplePage (Some [1; 0]%nat) 10 20 restingViewport
  = restingViewport.
Proof.
  apply (scroll_viewport_anywhere_stops_wheel_panning false false examplePage [1; 0]%nat).
  - by eexists.
  - reflexivity.
Defined.

(** X27: when the wheel does pan.  A wheel event without ctrl or meta, on
    an element of a document that has no scroll viewport and whose
    ancestors carry none of the two classes, moves the canvas against the
    wheel deltas and touches nothing else; with ctrl or meta held it
    changes nothing. *)
Theorem wheel_pans_against_deltas
    (document : Element) (path : list nat) (chain : list Element)
    (deltaX deltaY : Q) (v : Viewport) :
  parentChain document path [] = Some chain →
  carries "data-radix-scroll-area-viewport" document = false →
  Forall (λ e, contains e "scroll-area-viewport" = false ∧
               contains e "conversation-block-content" = false) chain →
  let panned := handleWheel false false document (Some path) deltaX deltaY v in
  (offsetX (canvasOffset panned) == offsetX (canvasOffset v) - deltaX)%Q ∧
  (offsetY (canvasOffset panned) == offsetY (canvasOffset v) - deltaY)%Q ∧
  isDragging panned = isDragging v ∧
  lastMousePos panned = lastMousePos v ∧
  handleWheel true false document (Some path) deltaX deltaY v = v ∧
  handleWheel false true document (Some path) deltaX deltaY v = v.
Proof.
  intros Hchain Hdoc Hclasses panned. subst panned. unfold handleWheel.
  rewrite (isWithinScrollableArea_spec _ _ _ Hchain), Hdoc.
  assert (existsb (λ e, contains e "scroll-area-viewport"
                        || contains e "conversation-block-content") chain = false) as ->.
  { apply not_true_is_false. intros H. apply existsb_exists in H as (e & He & Hprop).
    rewrite Forall_forall in Hclasses. apply list_elem_of_In in He.
    destruct (Hclasses e He) as [H1 H2]. by rewrite H1, H2 in Hprop. }
  cbn [orb canvasOffset offsetX offsetY isDragging lastMousePos].
  split; [ring|]. split; [ring|]. done.
Qed.

Lemma wheel_pans_against_deltas_witness :
  let page := mkElement [] [] [mkElement [] ["canvas"] [mkElement [] ["grid"] []]] in
  let panned := handleWheel false false page (Some [0; 0]%nat) 10 20 restingViewport in
  (offsetX (canvasOffset panned) == offsetX (canvasOffset restingViewport) - 10)%Q ∧
  (offsetY (canvasOffset panned) == offsetY (canvasOffset restingViewport) - 20)%Q ∧
  isDragging panned = isDragging restingViewport ∧
  lastMousePos panned = lastMousePos restingViewport ∧
  handleWheel true false page (Some [0; 0]%nat) 10 20 restingViewport = restingViewport ∧
  handleWheel false true page (Some [0; 0]%nat) 10 20 restingViewport = restingViewport.
Proof.
  eapply (wheel_pans_against_deltas
            (mkElement [] [] [mkElement [] ["canvas"] [mkElement [] ["grid"] []]])
            [0; 0]%nat).
  - reflexivity.
  - reflexivity.
  - repeat constructor.
Defined.

(** ** What the blocks and the chat bar show *)

Lemma filter_seed_sent (f : Message → bool) (seed sent : list Message) :
  Forall (λ m, f m = true) seed → Forall (λ m, f m = false) sent →
  List.filter f (seed ++ sent) = seed ∧
  List.filter (λ m, negb (f m)) (seed ++ sent) = sent.
Proof.
  intros Hseed Hsent. rewrite !List.filter_app. 
  assert (List.filter f seed = seed ∧ List.filter (λ m, negb (f m)) seed = []) as [-> ->].
  { induction Hseed as [|m seed Hm _ [IH1 IH2]]; [done|]. simpl.
    rewrite Hm. simpl. by rewrite IH1, IH2. }
  assert (List.filter f sent = [] ∧ List.filter (λ m, negb (f m)) sent = sent) as [-> ->].
  { induction Hsent as [|m sent Hm _ [IH1 IH2]]; [done|]. simpl.
    rewrite Hm. simpl. by rewrite IH1, IH2. }
  by rewrite app_nil_r.
Qed.

(** Main has no inherited message; every other branch starts with
    exactly one, followed by the messages sent in it. *)
Lemma built_one_seed (c : Conversation) :
  built c →
  Forall (λ kb, ∃ seed sent,
            messages kb.2 = seed ++ sent ∧
            Forall (λ m, truthy_flag (isInherited m) = true) seed ∧
            Forall (λ m, truthy_flag (isInherited m) = false) sent ∧
            length seed = if decide (kb.1 = "main") then 0%nat else 1%nat)
    (branches c).
Proof.
  induction 1 as [newId lm| |c content' now Hc IH|c branchId Hc IH|c now c' Hc IH Hrun].
  - repeat constructor. by exists [], [].
  - repeat constructor. exists [], (messages projectIdeasMain).
    split; [done|]. split; [done|]. split; [|done]. repeat constructor.
  - unfold handleSendMessage.
    destruct (obj_get (branches c) (activeBranchId c)) as [ab|] eqn:Eab; [|done].
    cbn [branches]. apply Forall_obj_set; [done|]. cbn [fst snd messages].
    destruct (built_invariant c Hc) as [Hwf _].
    rewrite (wfBranches_get_id _ _ _ Hwf Eab).
    rewrite Forall_forall in IH.
    destruct (IH (activeBranchId c, ab) (obj_get_Some _ _ _ Eab))
      as (seed & sent & Hmsgs & Hseed & Hsent & Hlen).
    simpl in Hmsgs, Hlen. exists seed. eexists.
    split; [rewrite Hmsgs, <- app_assoc; reflexivity|]. split; [done|]. split; [|done].
    apply Forall_app. split; [done|]. by repeat constructor.
  - done.
  - destruct (obj_get (branches c) (activeBranchId c)) as [ab|] eqn:Eab.
    2:{ unfold handleCreateBranch in Hrun. rewrite Eab in Hrun. by injection Hrun as <-. }
    destruct (last (messages ab)) as [lastMsg|] eqn:El.
    2:{ unfold handleCreateBranch in Hrun. rewrite Eab, El in Hrun. by injection Hrun as <-. }
    destruct (built_invariant c Hc) as [Hwf _].
    destruct (handleCreateBranch_runs now c ab lastMsg Hwf Eab El) as (np & _ & Hrun').
    rewrite Hrun' in Hrun. injection Hrun as <-.
    unfold repositioned. cbn [branches]. apply Forall_fmap.
    eapply Forall_impl.
    + unfold updatedConversationOf. cbn [branches].
      apply (Forall_obj_set (λ kb, ∃ seed sent,
            messages kb.2 = seed ++ sent ∧
            Forall (λ m, truthy_flag (isInherited m) = true) seed ∧
            Forall (λ m, truthy_flag (isInherited m) = false) sent ∧
            length seed = if decide (kb.1 = "main") then 0%nat else 1%nat));
        [exact IH|].
      cbn [fst snd newBranchOf messages]. exists [inheritedCopy lastMsg], [].
      split; [done|]. split; [by repeat constructor|]. split; [done|].
      by rewrite decide_False.
    + by intros [k b].
Qed.

(** X28: what a block and the chat bar show, in every conversation the
    application builds: the inherited messages listed first and the new
    ones below are together the stored message list in its stored order;
    main has no inherited message and every other branch exactly one; the
    two counters of the chat bar add up to the number of messages; and the
    New Branch button is enabled exactly when the new-message counter is
    not zero. *)
Theorem block_shows_messages_in_stored_order (c : Conversation) :
  built c →
  ∀ k b, obj_get (branches c) k = Some b →
    inheritedMessages b ++ newMessages b = messages b ∧
    inheritedCount (Some b) = (if decide (k = "main") then 0%nat else 1%nat) ∧
    (inheritedCount (Some b) + newMessageCount (Some b) = length (messages b))%nat ∧
    canCreateBranch (Some b) = negb (Nat.eqb (newMessageCount (Some b)) 0).
Proof.
  intros Hc k b Hb. pose proof (built_one_seed c Hc) as Hall.
  rewrite Forall_forall in Hall.
  destruct (Hall _ (obj_get_Some _ _ _ Hb)) as (seed & sent & Hmsgs & Hseed & Hsent & Hlen).
  simpl in Hmsgs, Hlen.
  destruct (filter_seed_sent (λ m, truthy_flag (isInherited m)) seed sent Hseed Hsent)
    as [Hf1 Hf2].
  unfold inheritedCount, newMessageCount, inheritedMessages, newMessages, canCreateBranch.
  rewrite Hmsgs, Hf1, Hf2. split; [done|]. split; [done|].
  split; [by rewrite length_app|].
  rewrite existsb_app.
  assert (existsb (λ m, negb (truthy_flag (isInherited m))) seed = false) as ->.
  { clear -Hseed. induction Hseed as [|m seed Hm _ IH]; [done|]. simpl. by rewrite Hm, IH. }
  destruct Hsent as [|m sent Hm _]; [done|]. simpl. by rewrite Hm.
Qed.

Lemma block_shows_messages_in_stored_order_witness :
  ∃ b, obj_get (branches branchedTwice) "branch-1" = Some b ∧
    inheritedMessages b ++ newMessages b = messages b ∧
    inheritedCount (Some b) = 1%nat ∧
    (inheritedCount (Some b) + newMessageCount (Some b) = length (messages b))%nat ∧
    canCreateBranch (Some b) = negb (Nat.eqb (newMessageCount (Some b)) 0).
Proof.
  exists (default projectIdeasMain (obj_get (branches branchedTwice) "branch-1")).
  split; [vm_compute; reflexivity|].
  apply (block_shows_messages_in_stored_order branchedTwice
           (builtFresh_built _ builtFresh_branchedTwice) "branch-1"
           (default projectIdeasMain (obj_get (branches branchedTwice) "branch-1"))).
  vm_compute. reflexivity.
Defined.




(** ** The branch menu *)

Lemma pushByLevel_perm (acc : list (Z * list Branch)) (b : Branch) :
  concat (pushByLevel acc b).*2 ≡ₚ concat acc.*2 ++ [b].
Proof.
  induction acc as [|[key group] rest IH]; [done|]. cbn [pushByLevel].
  destruct (key =? level b).
  - cbn. rewrite <- !app_assoc. apply Permutation_app_head, Permutation_app_comm.
  - destruct (isArrayIndex (level b) && _).
    + cbn. rewrite (Permutation_app_comm _ [b]). done.
    + cbn. rewrite IH. by rewrite app_assoc.
Qed.

Lemma pushByLevel_spec (acc : list (Z * list Branch)) (b : Branch) :
  Forall (λ key, isArrayIndex key = true) acc.*1 → isArrayIndex (level b) = true →
  ascending acc.*1 →
  ascending (pushByLevel acc b).*1 ∧
  (∀ key, key ∈ (pushByLevel acc b).*1 ↔ key = level b ∨ key ∈ acc.*1) ∧
  ∀ key group, (key, group) ∈ pushByLevel acc b ↔
    (key ≠ level b ∧ (key, group) ∈ acc) ∨
    (key = level b ∧
     ∃ group0, group = group0 ++ [b] ∧
               ((key, group0) ∈ acc ∨ (group0 = [] ∧ key ∉ acc.*1))).
Proof.
  intros Hidx Hb. induction acc as [|[key0 group0] rest IH]; intros Hasc.
  - cbn. split; [done|]. split.
    + intros key. rewrite list_elem_of_singleton, elem_of_nil. tauto.
    + intros key group. rewrite list_elem_of_singleton. split.
      * intros [= -> ->]. right. split; [done|]. exists []. split; [done|]. right.
        split; [done|]. apply not_elem_of_nil.
      * intros [[_ H]|[-> (g0 & -> & [H|[-> _]])]]; try by apply elem_of_nil in H. done.
  - cbn [fmap list_fmap fst] in Hidx, Hasc. apply Forall_cons in Hidx as [Hkey0 Hidx].
    destruct Hasc as [Hlt Hasc]. cbn [pushByLevel]. rewrite Hb, Hkey0. cbn [negb orb andb].
    assert (∀ group, (level b, group) ∈ rest → level b ∈ rest.*1) as Hin_keys.
    { intros group H. apply list_elem_of_fmap. by exists (level b, group). }
    pose proof Hlt as Hlt'. rewrite Forall_forall in Hlt.
    destruct (key0 =? level b) eqn:E; [|destruct (level b <? key0) eqn:E'].
    + apply Z.eqb_eq in E. subst key0. split; [by cbn|]. split.
      * intros key. cbn. rewrite !elem_of_cons. tauto.
      * intros key group. rewrite !elem_of_cons. split.
        -- intros [[= -> ->]|H].
           ++ right. split; [done|]. exists group0. split; [done|]. left. by left.
           ++ left. split; [|by right]. intros ->. apply Hin_keys, Hlt in H. lia.
        -- intros [[Hne [[= ? ?]|H]]|[-> (g0 & -> & [H|[-> H]])]];
             [done|by right| |].
           ++ apply elem_of_cons in H as [[= ->]|H]; [by left|].
              apply Hin_keys, Hlt in H. lia.
           ++ exfalso. apply H. cbn. left.
    + apply Z.ltb_lt in E'. apply Z.eqb_neq in E. split.
      * cbn. split; [|done]. apply Forall_cons. split; [done|].
        apply Forall_forall. intros k Hk. apply Hlt in Hk. lia.
      * split.
        -- intros key. cbn. rewrite !elem_of_cons. tauto.
        -- intros key group. rewrite !elem_of_cons. split.
           ++ intros [[= -> ->]|H].
              ** right. split; [done|]. exists []. split; [done|]. right.
                 split; [done|]. cbn. rewrite elem_of_cons. intros [?|H]; [lia|].
                 apply Hlt in H. lia.
              ** left. split; [|done]. intros ->.
                 destruct H as [[= ? ?]|H]; [lia|]. apply Hin_keys, Hlt in H. lia.
           ++ intros [[Hne H]|[-> (g0 & -> & [H|[-> H]])]]; [by right| |by left].
              exfalso. apply elem_of_cons in H as [[= ? ?]|H]; [lia|].
              apply Hin_keys, Hlt in H. lia.
    + apply Z.ltb_ge in E'. apply Z.eqb_neq in E.
      destruct (IH Hidx Hasc) as (IHasc & IHkeys & IHgroups). split; [|split].
      * cbn. split; [|done]. apply Forall_forall. intros k Hk.
        apply IHkeys in Hk as [->|Hk]; [lia|by apply Hlt].
      * intros key. cbn. rewrite !elem_of_cons, IHkeys. tauto.
      * intros key group. rewrite !elem_of_cons, IHgroups. split.
        -- intros [[= -> ->]|[[Hne H]|[-> (g0 & -> & [H|[-> H]])]]].
           ++ left. split; [done|by left].
           ++ left. split; [done|by right].
           ++ right. split; [done|]. exists g0. split; [done|]. left. by right.
           ++ right. split; [done|]. exists []. split; [done|]. right.
              split; [done|]. cbn. rewrite elem_of_cons. intros [?|?]; [lia|done].
        -- intros [[Hne [[= -> ->]|H]]|[-> (g0 & -> & [H|[-> H]])]].
           ++ by left.
           ++ right. left. done.
           ++ apply elem_of_cons in H as [[= ? ?]|H]; [lia|].
              right. right. split; [done|]. exists g0. split; [done|]. by left.
           ++ right. right. split; [done|]. exists []. split; [done|]. right.
              split; [done|]. intros Hin. apply H. cbn. by right.
Qed.

Lemma branchesByLevel_inv (seen rest : list Branch) (acc : list (Z * list Branch)) :
  Forall (λ b, isArrayIndex (level b) = true) rest →
  Forall (λ key, isArrayIndex key = true) acc.*1 →
  ascending acc.*1 →
  (∀ key, key ∈ acc.*1 ↔ ∃ b, b ∈ seen ∧ level b = key) →
  (∀ key group, (key, group) ∈ acc → group = filter (λ b, level b = key) seen) →
  let entries := fold_left pushByLevel rest acc in
  ascending entries.*1 ∧
  (∀ key, key ∈ entries.*1 ↔ ∃ b, b ∈ seen ++ rest ∧ level b = key) ∧
  (∀ key group, (key, group) ∈ entries →
     group = filter (λ b, level b = key) (seen ++ rest)).
Proof.
  revert seen acc. induction rest as [|b rest IH]; intros seen acc Hrest Hidx Hasc Hkeys Hgroups.
  - cbn. by rewrite app_nil_r.
  - apply Forall_cons in Hrest as [Hb Hrest]. cbn [fold_left].
    destruct (pushByLevel_spec acc b Hidx Hb Hasc) as (Hasc' & Hkeys' & Hgroups').
    rewrite (cons_middle b seen rest), (assoc_L (++)).
    apply IH; [done| |done| |].
    + apply Forall_forall. intros key Hk. apply Hkeys' in Hk as [->|Hk]; [done|].
      rewrite Forall_forall in Hidx. by apply Hidx.
    + intros key. rewrite Hkeys', Hkeys. split.
      * intros [->|(b' & Hb' & <-)].
        -- exists b. split; [|done]. apply elem_of_app. right. left.
        -- exists b'. split; [|done]. apply elem_of_app. by left.
      * intros (b' & Hb' & <-). apply elem_of_app in Hb' as [Hb'|Hb'].
        -- right. by exists b'.
        -- apply list_elem_of_singleton in Hb' as ->. by left.
    + intros key group Hin. apply Hgroups' in Hin as [[Hne Hin]|[-> (g0 & -> & H)]].
      * rewrite filter_app, filter_cons, decide_False by done.
        rewrite filter_nil, app_nil_r. by apply Hgroups.
      * rewrite filter_app, filter_cons, decide_True by done. rewrite filter_nil.
        f_equal. destruct H as [H|[-> H]]; [by apply Hgroups|].
        destruct (filter (λ b0, level b0 = level b) seen) as [|b' l] eqn:Ef; [done|].
        exfalso. apply H, Hkeys. exists b'.
        assert (b' ∈ filter (λ b0, level b0 = level b) seen) as Hin by (rewrite Ef; left).
        apply list_elem_of_filter in Hin as [? ?]. done.
Qed.

(** X30: the branch menu lists every branch once, grouped by level.
    When every level is an array index, as the levels the handlers assign
    are, the groups come in strictly ascending order of level, there is a
    group for exactly the levels that occur, and the group of a level
    holds the branches of that level in the order of [availableBranches]. *)
Theorem menu_groups_branches_by_level (availableBranches : list Branch) :
  Forall (λ b, isArrayIndex (level b) = true) availableBranches →
  let entries := branchesByLevel availableBranches in
  ascending entries.*1 ∧
  concat entries.*2 ≡ₚ availableBranches ∧
  (∀ key, key ∈ entries.*1 ↔ ∃ b, b ∈ availableBranches ∧ level b = key) ∧
  (∀ key group, (key, group) ∈ entries →
     group ≠ [] ∧ group = filter (λ b, level b = key) availableBranches).
Proof.
  intros Hidx entries.
  destruct (branchesByLevel_inv [] availableBranches [] Hidx) as (Hasc & Hkeys & Hgroups).
  - constructor.
  - done.
  - intros key. split; [by intros H%elem_of_nil|]. by intros (b & H%elem_of_nil & _).
  - by intros key group H%elem_of_nil.
  - cbn [app] in Hkeys, Hgroups.
    fold (branchesByLevel availableBranches) in Hasc, Hkeys, Hgroups.
    fold entries in Hasc, Hkeys, Hgroups.
    split; [done|]. split; [|split; [done|]].
    + subst entries. unfold branchesByLevel.
      assert (∀ acc, concat (fold_left pushByLevel availableBranches acc).*2
                     ≡ₚ concat acc.*2 ++ availableBranches) as Hperm; [|apply Hperm].
      clear. induction availableBranches as [|b bs IH]; intros acc.
      * cbn. by rewrite app_nil_r.
      * cbn [fold_left]. rewrite IH, pushByLevel_perm, <- app_assoc. done.
    + intros key group Hin. pose proof (Hgroups key group Hin) as Hg. split; [|done].
      assert (key ∈ entries.*1) as Hk.
      { apply list_elem_of_fmap. by exists (key, group). }
      apply Hkeys in Hk as (b & Hb & Hl). intros ->.
      assert (b ∈ filter (λ b, level b = key) availableBranches) as Hin'.
      { apply list_elem_of_filter. done. }
      rewrite <- Hg in Hin'. by apply elem_of_nil in Hin'.
Qed.

Lemma menu_groups_branches_by_level_witness :
  let availableBranches := Object_values (branches branchedTwice) in
  let entries := branchesByLevel availableBranches in
  ascending entries.*1 ∧
  concat entries.*2 ≡ₚ availableBranches ∧
  (∀ key, key ∈ entries.*1 ↔ ∃ b, b ∈ availableBranches ∧ level b = key) ∧
  (∀ key group, (key, group) ∈ entries →
     group ≠ [] ∧ group = filter (λ b, level b = key) availableBranches).
Proof.
  apply (menu_groups_branches_by_level (Object_values (branches branchedTwice))).
  apply (bool_decide_unpack _). vm_compute. exact I.
Defined.
